(** * DrawChain: the room engine of [src/pages/api/socket.ts], the drawing
    board, fill tool and voice mesh of [src/components/Canvas.tsx] and the
    lobby of [src/pages/index.tsx]

    A shallow embedding of the server's per-room state machine
    (join, start, word selection, guessing, disconnection, player removal,
    turn rotation, the two countdowns), of the per-recipient view
    [getPublicState], of socket.io's room fan-out, of the client's drawing
    board with its undo and redo stacks, of [floodFill], of the client's
    peer-connection upkeep, and of the lobby's room codes.

    Conventions.
    - JavaScript numbers that hold counters, indices and scores are [Z];
      canvas coordinates are [Q].
    - A JavaScript string is a sequence of code units; the model covers the
      code units below 256 (one [ascii] each), on which [toLowerCase],
      [trim] and the regular expression [/./] are written out.
    - [games] (a JS object used as a dictionary) is a [gmap string Game.t]
      of its own properties; under the names it inherits from
      [Object.prototype] ([inheritedKeys]) a lookup finds a truthy value
      that is no room, which the handlers take for one. socket.io's adapter
      ([room -> set of socket ids]) is a [gmap string (gset string)].
    - Every handler returns the server state it leaves, the list of
      emissions it performed, in program order, and the exception that ended
      it, if one did: what a handler wrote and sent before it threw stays
      written and sent.
    - socket.io's [emit] throws a [RangeError] on a payload that holds a live
      [Timeout] (its encoder recurses through the timer list without end);
      [Player.disconnectTimeout] tells whether the player object holds one.
    - [Math.random] is an input: the handlers that may call [nextTurn] take
      the three words [get3Words()] returned, [get3Words] takes the indices
      drawn, [generateRoomId] the six draws.
    - A [setInterval] handle is the field [Game.timer]; one firing of its
      callback is [timerTick]. The grace period of ['disconnect'] ends in
      [graceExpiry].
    - The [while] loops of [floodFill] carry a fuel argument; the statements
      about them give the fuel that suffices. *)

From Stdlib Require Import ZArith QArith Qround String Ascii List Bool Lia.
From stdpp Require Import base gmap sets list strings.

Local Open Scope string_scope.
Local Open Scope list_scope.
Local Open Scope Z_scope.

(** ** Strings *)

Module Js.

(** [String.prototype.toLowerCase] on code units below 256: the Latin
    capitals A-Z and the Latin-1 capitals 0xC0-0xDE (without the
    multiplication sign 0xD7) move up by 32. *)
Definition lowerChar (c : ascii) : ascii :=
  let n := nat_of_ascii c in
  if ((65 <=? n)%nat && (n <=? 90)%nat)
     || ((192 <=? n)%nat && (n <=? 222)%nat && negb (n =? 215)%nat)
  then ascii_of_nat (n + 32) else c.

Fixpoint toLowerCase (s : string) : string :=
  match s with
  | EmptyString => EmptyString
  | String c r => String (lowerChar c) (toLowerCase r)
  end.

(** White space and line terminators removed by [trim]: TAB, LF, VT, FF,
    CR, SPACE and NBSP. *)
Definition isSpace (c : ascii) : bool :=
  let n := nat_of_ascii c in
  ((9 <=? n)%nat && (n <=? 13)%nat) || (n =? 32)%nat || (n =? 160)%nat.

Fixpoint trimStart (s : string) : string :=
  match s with
  | EmptyString => EmptyString
  | String c r => if isSpace c then trimStart r else s
  end.

Fixpoint trimEnd (s : string) : string :=
  match s with
  | EmptyString => EmptyString
  | String c r =>
      match trimEnd r with
      | EmptyString => if isSpace c then EmptyString else String c EmptyString
      | r' => String c r'
      end
  end.

Definition trim (s : string) : string := trimEnd (trimStart s).

(** The characters the regular expression [/./] does not match. *)
Definition isLineTerminator (c : ascii) : bool :=
  let n := nat_of_ascii c in (n =? 10)%nat || (n =? 13)%nat.

(** [s.replace(/./g, '_ ')] *)
Fixpoint replaceEachChar (s : string) : string :=
  match s with
  | EmptyString => EmptyString
  | String c r =>
      if isLineTerminator c then String c (replaceEachChar r)
      else String "_" (String " " (replaceEachChar r))
  end.

(** [x || d] on a possibly absent number: [undefined] and [0] are falsy. *)
Definition orNum (x : option Z) (d : Z) : Z :=
  match x with
  | Some v => if (v =? 0)%Z then d else v
  | None => d
  end.

(** [x || d] on a possibly absent string: [undefined] and [''] are falsy. *)
Definition orStr (x d : string) : string :=
  if decide (x = "") then d else x.

End Js.

(** ** Data model *)

Inductive Status := LOBBY | SELECTING | DRAWING | ENDED.

#[global] Instance Status_eq_dec : EqDecision Status.
Proof. solve_decision. Defined.

Module Player.

(** [interface Player]. [disconnectTimeout] records whether a removal
    timeout is pending. *)
Record t := mk {
  id : string;
  name : string;
  avatar : string;
  score : Z;
  guessed : bool;
  disconnected : bool;
  disconnectTimeout : bool
}.

Definition set_guessed (b : bool) (p : t) : t :=
  mk (id p) (name p) (avatar p) (score p) b (disconnected p) (disconnectTimeout p).

Definition set_score (s : Z) (p : t) : t :=
  mk (id p) (name p) (avatar p) s (guessed p) (disconnected p) (disconnectTimeout p).

(** [p.score = 0; p.guessed = false] *)
Definition reset (p : t) : t := set_guessed false (set_score 0 p).

End Player.

#[global] Instance Player_eq_dec : EqDecision Player.t.
Proof. solve_decision. Defined.

(** The interval a room's [timer] field currently runs: the 15 s selection
  countdown set by [nextTurn] or the round countdown set by [startRound].
  [None] stands for no live interval ([null], or a cleared handle). *)
Inductive Timer := SelectionTimer | RoundTimer.

#[global] Instance Timer_eq_dec : EqDecision Timer.
Proof. solve_decision. Defined.

Module Game.

(** [interface Game] *)
Record t := mk {
  roomId : string;
  status : Status;
  players : list Player.t;
  drawerIndex : Z;
  currentWord : string;
  wordOptions : list string;
  maxRounds : Z;
  currentRound : Z;
  drawTime : Z;
  timeLeft : Z;
  timer : option Timer;
  hostId : string
}.

Definition set_status (v : Status) (g : t) : t :=
  mk (roomId g) v (players g) (drawerIndex g) (currentWord g) (wordOptions g)
     (maxRounds g) (currentRound g) (drawTime g) (timeLeft g) (timer g) (hostId g).
Definition set_players (v : list Player.t) (g : t) : t :=
  mk (roomId g) (status g) v (drawerIndex g) (currentWord g) (wordOptions g)
     (maxRounds g) (currentRound g) (drawTime g) (timeLeft g) (timer g) (hostId g).
Definition set_drawerIndex (v : Z) (g : t) : t :=
  mk (roomId g) (status g) (players g) v (currentWord g) (wordOptions g)
     (maxRounds g) (currentRound g) (drawTime g) (timeLeft g) (timer g) (hostId g).
Definition set_currentWord (v : string) (g : t) : t :=
  mk (roomId g) (status g) (players g) (drawerIndex g) v (wordOptions g)
     (maxRounds g) (currentRound g) (drawTime g) (timeLeft g) (timer g) (hostId g).
Definition set_wordOptions (v : list string) (g : t) : t :=
  mk (roomId g) (status g) (players g) (drawerIndex g) (currentWord g) v
     (maxRounds g) (currentRound g) (drawTime g) (timeLeft g) (timer g) (hostId g).
Definition set_maxRounds (v : Z) (g : t) : t :=
  mk (roomId g) (status g) (players g) (drawerIndex g) (currentWord g) (wordOptions g)
     v (currentRound g) (drawTime g) (timeLeft g) (timer g) (hostId g).
Definition set_currentRound (v : Z) (g : t) : t :=
  mk (roomId g) (status g) (players g) (drawerIndex g) (currentWord g) (wordOptions g)
     (maxRounds g) v (drawTime g) (timeLeft g) (timer g) (hostId g).
Definition set_drawTime (v : Z) (g : t) : t :=
  mk (roomId g) (status g) (players g) (drawerIndex g) (currentWord g) (wordOptions g)
     (maxRounds g) (currentRound g) v (timeLeft g) (timer g) (hostId g).
Definition set_timeLeft (v : Z) (g : t) : t :=
  mk (roomId g) (status g) (players g) (drawerIndex g) (currentWord g) (wordOptions g)
     (maxRounds g) (currentRound g) (drawTime g) v (timer g) (hostId g).
Definition set_timer (v : option Timer) (g : t) : t :=
  mk (roomId g) (status g) (players g) (drawerIndex g) (currentWord g) (wordOptions g)
     (maxRounds g) (currentRound g) (drawTime g) (timeLeft g) v (hostId g).
Definition set_hostId (v : string) (g : t) : t :=
  mk (roomId g) (status g) (players g) (drawerIndex g) (currentWord g) (wordOptions g)
     (maxRounds g) (currentRound g) (drawTime g) (timeLeft g) (timer g) v.

End Game.

#[global] Instance Game_eq_dec : EqDecision Game.t.
Proof. solve_decision. Defined.

(** [players[i]] for a JavaScript number [i]: [undefined] outside the array. *)
Definition playerAt (ps : list Player.t) (i : Z) : option Player.t :=
if i <? 0 then None else ps !! Z.to_nat i.

(** [game.players[game.drawerIndex]] *)
Definition drawerOf (g : Game.t) : option Player.t :=
playerAt (Game.players g) (Game.drawerIndex g).

(** [players.find(p => p.id === playerId)] together with its index
  ([findIndex]): the first match. *)
Definition findById (playerId : string) (ps : list Player.t) : option (nat * Player.t) :=
list_find (λ p, Player.id p = playerId) ps.

Definition findByName (username : string) (ps : list Player.t) : option (nat * Player.t) :=
list_find (λ p, Player.name p = username) ps.

(** ** The per-recipient view *)

(** [playerId !== game.players[game.drawerIndex]?.id]: with no drawer the
  right-hand side is [undefined], which differs from every string. *)
Definition notDrawer (g : Game.t) (playerId : string) : bool :=
match drawerOf g with
| Some d => negb (bool_decide (playerId = Player.id d))
| None => true
end.

(** [!game.players.find(p => p.id === playerId)?.guessed] *)
Definition notGuessed (g : Game.t) (playerId : string) : bool :=
match findById playerId (Game.players g) with
| Some (_, p) => negb (Player.guessed p)
| None => true
end.

(** [getPublicState(game, playerId)]; the view carries [timer: undefined]. *)
Definition getPublicState (g : Game.t) (playerId : string) : Game.t :=
Game.set_timer None
  (Game.set_wordOptions
     (if bool_decide (Game.status g = SELECTING) && notDrawer g playerId
      then [] else Game.wordOptions g)
     (Game.set_currentWord
        (if bool_decide (Game.status g = DRAWING) && notDrawer g playerId
            && notGuessed g playerId
         then Js.replaceEachChar (Game.currentWord g)
         else Game.currentWord g)
        g)).

(** ** Emissions and socket.io fan-out *)

(** The texts passed to ['system-message'], one constructor per template. *)
Inductive Notice :=
| NeedTwoPlayers                  (* 'Need at least 2 players!' *)
| DrawerSelected                  (* 'Drawer has selected a word!' *)
| EveryoneLeftYouWin              (* 'Everyone left! You win! ...' *)
| NowHost (name : string)         (* '<name> is now the Host! ...' *)
| DrawerDisconnected              (* 'Drawer disconnected! Skipping turn...' *)
| EveryoneGuessed                 (* 'Everyone guessed it!' *)
| PlayerLeft (name : string)      (* '<player.name> left.' *)
| WelcomeBack                     (* 'Welcome back! You reconnected.' *)
| GuessedTheWord (user : string)  (* '... <data.user> guessed the word!' *)
| YouGuessed (points : Z).        (* '... You guessed the word! (+<points>)' *)

(** The payload of a ['chat-message']. *)
Record ChatData := mkChat {
  chatRoomId : string;
  chatUser : string;
  chatText : string
}.

Inductive Payload :=
| GameUpdate (view : Game.t)      (* 'game-update' *)
| SystemMessage (n : Notice)      (* 'system-message' *)
| GameEnded (ps : list Player.t)  (* 'game-ended' *)
| Clear                           (* 'clear' *)
| ChatMessage (d : ChatData)      (* 'chat-message' *)
| JoinError.                      (* 'join-error', 'Room not found! ...' *)

(** [io.to(r).emit], [socket.to(r).emit] (everyone in [r] but the sending
    socket) and [socket.emit] (the sending socket alone). *)
Inductive Target :=
| IoTo (room : string)
| SocketTo (sender room : string)
| SocketEmit (sender : string).

Record Emit := mkEmit { target : Target; payload : Payload }.

#[global] Instance Notice_eq_dec : EqDecision Notice.
Proof. solve_decision. Defined.
#[global] Instance ChatData_eq_dec : EqDecision ChatData.
Proof. solve_decision. Defined.
#[global] Instance Payload_eq_dec : EqDecision Payload.
Proof. solve_decision. Defined.
#[global] Instance Target_eq_dec : EqDecision Target.
Proof. solve_decision. Defined.
#[global] Instance Emit_eq_dec : EqDecision Emit.
Proof. solve_decision. Defined.

(** The process-wide state: the [games] dictionary and the adapter's rooms. *)
Record Server := mkServer {
  games : gmap string Game.t;
  rooms : gmap string (gset string)
}.

Definition emptyServer : Server := mkServer ∅ ∅.

Definition setGame (roomId : string) (g : Game.t) (srv : Server) : Server :=
  mkServer (<[roomId := g]> (games srv)) (rooms srv).

(** [delete games[roomId]] *)
Definition deleteGame (roomId : string) (srv : Server) : Server :=
  mkServer (delete roomId (games srv)) (rooms srv).

(** The names [games[k]] finds on [Object.prototype] when the dictionary has
    no room [k]: functions and, for [__proto__], the prototype itself, all
    truthy, none with a [players] or a [status] property. *)
Definition inheritedKeys : list string :=
  ["constructor"; "__defineGetter__"; "__defineSetter__"; "hasOwnProperty";
   "__lookupGetter__"; "__lookupSetter__"; "isPrototypeOf";
   "propertyIsEnumerable"; "toString"; "valueOf"; "__proto__"; "toLocaleString"].

Definition inherited (k : string) : bool := bool_decide (k ∈ inheritedKeys).

(** [socket.join(roomId)] *)
Definition socketJoin (sid roomId : string) (srv : Server) : Server :=
  mkServer (games srv)
           (<[roomId := {[sid]} ∪ default ∅ (rooms srv !! roomId)]> (rooms srv)).

(** Membership of socket [sid] in room [r]: a socket is always in the room
    named by its own id, and in every room it joined. *)
Definition inRoom (srv : Server) (sid r : string) : bool :=
  bool_decide (sid = r) || bool_decide (sid ∈ default ∅ (rooms srv !! r)).

(** Whether the connection [sid] is handed the emission [e]. *)
Definition receives (srv : Server) (sid : string) (e : Emit) : bool :=
  match target e with
  | IoTo r => inRoom srv sid r
  | SocketTo sender r => inRoom srv sid r && negb (bool_decide (sid = sender))
  | SocketEmit sender => bool_decide (sid = sender)
  end.

(** The payloads connection [sid] receives out of a handler's emissions. *)
Definition delivered (srv : Server) (sid : string) (es : list Emit) : list Payload :=
  payload <$> filter (λ e, receives srv sid e = true) es.

(** [game.players.forEach(p => io.to(p.id).emit('game-update',
    getPublicState(game, p.id)))] *)
Definition broadcast (g : Game.t) : list Emit :=
  (λ p, mkEmit (IoTo (Player.id p)) (GameUpdate (getPublicState g (Player.id p))))
    <$> Game.players g.

(** ** Exceptions *)

(** The exceptions a handler ends on: a [TypeError] for a property read on
    [undefined], a [RangeError] ('Maximum call stack size exceeded') out of
    socket.io's encoder. *)
Inductive Error := TypeError | RangeError.

#[global] Instance Error_eq_dec : EqDecision Error.
Proof. solve_decision. Defined.

(** What a call has done when it ends: the state it leaves, the packets it
    has sent, in program order, and the exception that ended it, if any. *)
Definition Outcome (S : Type) : Type := S * list Emit * option Error.

(** Whether a player list holds a live [Timeout]: a [disconnectTimeout]
    that ['disconnect'] has set and that has neither been cleared nor run. *)
Definition pending (ps : list Player.t) : bool :=
  existsb Player.disconnectTimeout ps.

(** socket.io encodes a packet before it sends it to anyone, and to encode
    it walks through the payload looking for binary data. The walk never
    comes back from a live [Timeout], whose links to the timer list are
    cyclic: [emit] throws and nobody is sent anything. [getPublicState]
    copies [game.players], so a game update carries the player objects with
    their [disconnectTimeout], and so does the final list. *)
Definition encodable (p : Payload) : bool :=
  match p with
  | GameUpdate view => negb (pending (Game.players view))
  | GameEnded ps => negb (pending ps)
  | SystemMessage _ | Clear | ChatMessage _ | JoinError => true
  end.

(** A run of [emit] calls: the packets that went out before the first call
    that threw, and that exception. *)
Fixpoint emitAll (es : list Emit) : list Emit * option Error :=
  match es with
  | [] => ([], None)
  | e :: rest =>
      if encodable (payload e) then
        let '(sent, err) := emitAll rest in (e :: sent, err)
      else ([], Some RangeError)
  end.

(** ** Turn rotation *)

(** [nextTurn(io, roomId)] on the room [g = games[roomId]]; [opts] is what
    [get3Words()] returns when the function reaches it. *)
Definition nextTurn (opts : list string) (roomId : string) (g : Game.t)
  : Outcome Game.t :=
  let g := Game.set_timer None g in
  let cleared := [mkEmit (IoTo roomId) Clear] in
  let g := Game.set_drawerIndex (Game.drawerIndex g + 1) g in
  let g :=
    if Z.of_nat (length (Game.players g)) <=? Game.drawerIndex g
    then Game.set_currentRound (Game.currentRound g + 1) (Game.set_drawerIndex 0 g)
    else g in
  if Game.maxRounds g <? Game.currentRound g then
    let g := Game.set_status ENDED g in
    let '(sent, err) :=
      emitAll (cleared ++ broadcast g
                 ++ [mkEmit (IoTo roomId) (GameEnded (Game.players g))]) in
    (g, sent, err)
  else
    let g := Game.set_status SELECTING g in
    let g := Game.set_wordOptions opts g in
    let g := Game.set_currentWord "" g in
    let g := Game.set_timeLeft 15 g in
    let g := Game.set_players (Player.set_guessed false <$> Game.players g) g in
    match emitAll (cleared ++ broadcast g) with
    | (sent, None) => (Game.set_timer (Some SelectionTimer) g, sent, None)
    | (sent, Some err) => (g, sent, Some err)
    end.

(** [startRound(io, roomId, word)] on the room [g = games[roomId]]. *)
Definition startRound (roomId word : string) (g : Game.t) : Outcome Game.t :=
  let g := Game.set_timer None g in
  let g := Game.set_status DRAWING g in
  let g := Game.set_currentWord word g in
  let g := Game.set_wordOptions [] g in
  let g := Game.set_timeLeft (Game.drawTime g) g in
  match emitAll (broadcast g ++ [mkEmit (IoTo roomId) (SystemMessage DrawerSelected)]) with
  | (sent, None) => (Game.set_timer (Some RoundTimer) g, sent, None)
  | (sent, Some err) => (g, sent, Some err)
  end.

(** ** Player removal *)

(** [guessers.every(p => p.guessed)] over
    [guessers = game.players.filter(p => p.id !== drawerId)] *)
Definition guessersOf (drawerId : string) (g : Game.t) : list Player.t :=
  filter (λ p, Player.id p ≠ drawerId) (Game.players g).

Definition everyGuessed (ps : list Player.t) : bool :=
  forallb Player.guessed ps.

(** [handlePlayerRemove(io, roomId, playerId)] *)
Definition handlePlayerRemove (opts : list string) (roomId playerId : string)
    (srv : Server) : Outcome Server :=
  match games srv !! roomId with
  | None => (srv, [], if inherited roomId then Some TypeError else None)
  | Some game =>
    match findById playerId (Game.players game) with
    | None => (srv, [], None)
    | Some (playerIndex, player) =>
      let wasDrawer := bool_decide (Z.of_nat playerIndex = Game.drawerIndex game) in
      let wasHost := bool_decide (Game.hostId game = playerId) in
      let g := Game.set_players (delete playerIndex (Game.players game)) game in
      let g :=
        if Z.of_nat playerIndex <? Game.drawerIndex g
        then Game.set_drawerIndex (Game.drawerIndex g - 1) g else g in
      match Game.players g with
      | [] => (deleteGame roomId srv, [], None)
      | first :: rest =>
        if negb (bool_decide (Game.status g = LOBBY))
           && (length (Game.players g) <? 2)%nat then
          let g := Game.set_timer None g in
          let g := Game.set_status ENDED g in
          let winner := Player.set_score (Player.score first + 100) first in
          let g := Game.set_players (winner :: rest) g in
          let g := Game.set_hostId (Player.id winner) g in
          let '(sent, err) :=
            emitAll
              [mkEmit (IoTo roomId) (GameUpdate (getPublicState g (Player.id winner)));
               mkEmit (IoTo roomId) (SystemMessage EveryoneLeftYouWin);
               mkEmit (IoTo roomId) (GameEnded (Game.players g))] in
          (setGame roomId g srv, sent, err)
        else
          let '(g, e1) :=
            if wasHost
            then (Game.set_hostId (Player.id first) g,
                  [mkEmit (IoTo roomId) (SystemMessage (NowHost (Player.name first)))])
            else (g, []) in
          if wasDrawer && bool_decide (Game.status g = DRAWING) then
            let '(g', e2, err) :=
              nextTurn opts roomId (Game.set_drawerIndex (Game.drawerIndex g - 1) g) in
            (setGame roomId g' srv,
             e1 ++ [mkEmit (IoTo roomId) (SystemMessage DrawerDisconnected)] ++ e2,
             err)
          else
            let '(g', e2, err) :=
              if bool_decide (Game.status g = DRAWING) then
                match drawerOf g with
                | Some d =>
                  if decide (Player.id d = "") then nextTurn opts roomId g
                  else
                    let guessers := guessersOf (Player.id d) g in
                    if (0 <? length guessers)%nat && everyGuessed guessers
                    then
                      let '(g', e, err) := nextTurn opts roomId g in
                      (g', mkEmit (IoTo roomId) (SystemMessage EveryoneGuessed) :: e,
                       err)
                    else (g, [], None)
                | None => nextTurn opts roomId g
                end
              else (g, [], None) in
            match err with
            | Some _ => (setGame roomId g' srv, e1 ++ e2, err)
            | None =>
              let '(sent, err) :=
                emitAll
                  (broadcast g'
                     ++ [mkEmit (IoTo roomId)
                           (SystemMessage (PlayerLeft (Player.name player)))]) in
              (setGame roomId g' srv, e1 ++ e2 ++ sent, err)
            end
      end
    end
  end.

(** ** Message handlers *)

(** The optional [config] of ['join-room'] and ['start-game']; a field is
    [None] when the object lacks it. *)
Record Config := mkConfig { rounds : option Z; drawTime : option Z }.

(** The avatar given to a new player who sent none (an emoji literal in the
    source). *)
Definition defaultAvatar : string := "artist-emoji".

(** The room literal built by ['join-room'] for an unknown room id. *)
Definition newGame (roomId sid : string) (config : Config) : Game.t :=
  Game.mk roomId LOBBY [] 0 "" [] (Js.orNum (rounds config) 3) 1
          (Js.orNum (drawTime config) 60) 0 None sid.

(** The player a joining socket is reconciled with: by socket id first,
    by name when no id matches. *)
Definition findExisting (sid username : string) (ps : list Player.t)
  : option (nat * Player.t) :=
  match findById sid ps with
  | Some r => Some r
  | None => findByName username ps
  end.

(** The part of ['join-room'] after the room [game] is known to exist:
    reconnect or append, then sync. [avatar] is [""] when absent. *)
Definition enterRoom (sid roomId username avatar : string) (game : Game.t)
    (srv : Server) : Outcome Server :=
  let '(g, e1) :=
    match findExisting sid username (Game.players game) with
    | Some (existingInd, p) =>
      let p' := Player.mk sid username
                  (if decide (avatar = "") then Player.avatar p else avatar)
                  (Player.score p) (Player.guessed p) false false in
      let g := Game.set_players (<[existingInd := p']> (Game.players game)) game in
      let g := if decide (Game.hostId g = Player.id p)
               then Game.set_hostId sid g else g in
      (g, [mkEmit (SocketEmit sid) (SystemMessage WelcomeBack)])
    | None =>
      (Game.set_players
         (Game.players game
            ++ [Player.mk sid username (Js.orStr avatar defaultAvatar) 0 false false false])
         game, [])
    end in
  let '(sent, err) :=
    emitAll (e1 ++ mkEmit (IoTo roomId) (GameUpdate (getPublicState g sid))
                :: broadcast g) in
  (setGame roomId g srv, sent, err).

(** [socket.on('join-room', ({ roomId, username, config, avatar }) => ...)]
    for the socket [sid]. Under an inherited name [games[roomId]] is truthy
    and has no [players]: [game.players.findIndex] throws. *)
Definition join_room (sid roomId username : string) (config : option Config)
    (avatar : string) (srv : Server) : Outcome Server :=
  let srv := socketJoin sid roomId srv in
  match games srv !! roomId with
  | Some game => enterRoom sid roomId username avatar game srv
  | None =>
    if inherited roomId then (srv, [], Some TypeError)
    else
      match config with
      | None => (srv, [mkEmit (SocketEmit sid) JoinError], None)
      | Some c => enterRoom sid roomId username avatar (newGame roomId sid c) srv
      end
  end.

(** [config?.rounds], [config?.drawTime] *)
Definition configRounds (config : option Config) : option Z := config ≫= rounds.
Definition configDrawTime (config : option Config) : option Z := config ≫= drawTime.

(** [socket.on('start-game', ({ roomId, config }) => ...)]; under an
    inherited name [game.players.length] throws. *)
Definition start_game (opts : list string) (sid roomId : string)
    (config : option Config) (srv : Server) : Outcome Server :=
  match games srv !! roomId with
  | None => (srv, [], if inherited roomId then Some TypeError else None)
  | Some game =>
    if (length (Game.players game) <? 2)%nat then
      (srv, [mkEmit (SocketEmit sid) (SystemMessage NeedTwoPlayers)], None)
    else
      let g := Game.set_maxRounds (Js.orNum (configRounds config) (Game.maxRounds game)) game in
      let g := Game.set_drawTime (Js.orNum (configDrawTime config) (Game.drawTime g)) g in
      let g := Game.set_currentRound 1 g in
      let g := Game.set_drawerIndex (-1) g in
      let g := Game.set_players (Player.reset <$> Game.players g) g in
      let '(g', es, err) := nextTurn opts roomId g in
      (setGame roomId g' srv, es, err)
  end.

(** [game.players[game.drawerIndex]?.id === socket.id] *)
Definition isDrawer (g : Game.t) (sid : string) : bool :=
  match drawerOf g with
  | Some d => bool_decide (Player.id d = sid)
  | None => false
  end.

(** [socket.on('select-word', ({ roomId, word }) => ...)]; under an
    inherited name [game.players[game.drawerIndex]] throws. *)
Definition select_word (sid roomId word : string) (srv : Server)
  : Outcome Server :=
  match games srv !! roomId with
  | None => (srv, [], if inherited roomId then Some TypeError else None)
  | Some game =>
    if isDrawer game sid then
      let '(g', es, err) := startRound roomId word game in
      (setGame roomId g' srv, es, err)
    else (srv, [], None)
  end.

(** [Math.max(10, Math.ceil(game.timeLeft / game.drawTime * 500))], with
    the quotient and the product taken exactly, as rationals. JavaScript
    computes both in double precision, with the same result as long as the
    clock is within the round ([drawTime] not zero, [timeLeft] equal to it
    or between zero and it), which is the case in every room the server
    can reach; beyond the clock the two may differ by one, and a zero
    [drawTime], which no room ever has, gives no number in JavaScript. *)
Definition guessPoints (timeLeft drawTime : Z) : Z :=
  Z.max 10 (Qceiling (inject_Z timeLeft / inject_Z drawTime * inject_Z 500)%Q).

(** [data.text.trim().toLowerCase() === game.currentWord.toLowerCase()] *)
Definition isCorrectGuess (text currentWord : string) : bool :=
  bool_decide (Js.toLowerCase (Js.trim text) = Js.toLowerCase currentWord).

(** The mutations of an accepted guess: the guesser at index [i] is flagged
    and credited, then the drawer (read at [drawerIndex] afterwards) gets
    50. *)
Definition scoreGuess (i : nat) (player : Player.t) (game : Game.t) : Game.t :=
  let points := guessPoints (Game.timeLeft game) (Game.drawTime game) in
  let player' :=
    Player.set_score (Player.score player + points) (Player.set_guessed true player) in
  let g := Game.set_players (<[i := player']> (Game.players game)) game in
  match drawerOf g with
  | Some drawer =>
    Game.set_players
      (<[Z.to_nat (Game.drawerIndex g) := Player.set_score (Player.score drawer + 50) drawer]>
         (Game.players g)) g
  | None => g
  end.

(** [socket.on('chat-message', (data) => ...)]. With no player at
    [drawerIndex], [game.players[game.drawerIndex].id] throws before
    anything is written. Under an inherited name [game.status] is
    [undefined] and the message is echoed. *)
Definition chat_message (opts : list string) (sid : string) (data : ChatData)
    (srv : Server) : Outcome Server :=
  let roomId := chatRoomId data in
  let echo := (srv, [mkEmit (IoTo roomId) (ChatMessage data)], None) in
  match games srv !! roomId with
  | None => echo
  | Some game =>
    if bool_decide (Game.status game = DRAWING)
       && isCorrectGuess (chatText data) (Game.currentWord game) then
      match findById sid (Game.players game) with
      | None => echo
      | Some (i, player) =>
        if Player.guessed player then echo
        else
          match drawerOf game with
          | None => (srv, [], Some TypeError)
          | Some drawer0 =>
            if decide (Player.id player = Player.id drawer0) then echo
            else
              let points := guessPoints (Game.timeLeft game) (Game.drawTime game) in
              let g := scoreGuess i player game in
              match
                emitAll
                  ([mkEmit (SocketTo sid roomId)
                      (SystemMessage (GuessedTheWord (chatUser data)));
                    mkEmit (SocketEmit sid) (SystemMessage (YouGuessed points));
                    mkEmit (IoTo roomId) (GameUpdate (getPublicState g sid))]
                     ++ broadcast g)
              with
              | (e1, Some err) => (setGame roomId g srv, e1, Some err)
              | (e1, None) =>
                if everyGuessed (guessersOf (Player.id drawer0) g) then
                  let '(g', e2, err) := nextTurn opts roomId g in
                  (setGame roomId g' srv,
                   e1 ++ mkEmit (IoTo roomId) (SystemMessage EveryoneGuessed) :: e2,
                   err)
                else (setGame roomId g srv, e1, None)
              end
          end
      end
    else echo
  end.

(** ** The listeners of a connection *)





(** ** Voice mesh (client side, [VoiceChat] in [Canvas.tsx]) *)

Module VoiceChat.

Inductive SignalKind := Offer | Answer | Candidate.

#[global] Instance SignalKind_eq_dec : EqDecision SignalKind.
Proof. solve_decision. Defined.

(** [socket.emit('voice-signal', { target, signal })], by the kind of
    [signal]. *)
Record Signal := mkSignal { target : string; kind : SignalKind }.

#[global] Instance Signal_eq_dec : EqDecision Signal.
Proof. solve_decision. Defined.

(** The client state the initiator rule reads and writes: the keys of
    [peersRef.current], and the signals emitted so far. *)
Definition State : Type := gset string * list Signal.

(** [createPeerConnection(targetId)] registers the connection under
    [targetId]. *)
Definition createPeerConnection (targetId : string) (peers : gset string)
  : gset string := {[targetId]} ∪ peers.

(** The body of [players.forEach(p => ...)] under "Check for new peers";
    [pid] is [p.id] and [<?] compares strings code unit by code unit, as
    JavaScript's [<] does. *)
Definition checkPeer (currentUserId : string) (st : State) (pid : string) : State :=
  let '(peers, out) := st in
  if decide (pid = currentUserId) then st
  else if decide (pid ∈ peers) then st
  else if (currentUserId <? pid)%string
       then (createPeerConnection pid peers, out ++ [mkSignal pid Offer])
       else st.

Definition checkNewPeers (currentUserId : string) (players : list string)
    (peers : gset string) : State :=
  foldl (checkPeer currentUserId) (peers, []) players.

(** The body of the reconciliation interval's [players.forEach]. *)
Definition retryPeer (currentUserId : string) (st : State) (pid : string) : State :=
  let '(peers, out) := st in
  if decide (pid = currentUserId) then st
  else if negb (bool_decide (pid ∈ peers)) then
    if (currentUserId <? pid)%string
    then (createPeerConnection pid peers, out ++ [mkSignal pid Offer])
    else st
  else st.

(** One firing of the 2-second reconciliation interval. *)
Definition reconcile (currentUserId : string) (players : list string)
    (peers : gset string) : State :=
  foldl (retryPeer currentUserId) (peers, []) players.

(** [handleSignal({ signal, sender })]; [rtcOk] tells whether the WebRTC
    calls of the branch succeeded (a failure is caught and logged). *)
Definition handleSignal (currentUserId sender : string) (k : SignalKind)
    (rtcOk : bool) (peers : gset string) : State :=
  if decide (sender = currentUserId) then (peers, [])
  else
    let peers :=
      if decide (sender ∈ peers) then peers else createPeerConnection sender peers in
    match k with
    | Offer => (peers, if rtcOk then [mkSignal sender Answer] else [])
    | Answer => (peers, [])
    | Candidate => (peers, [])
    end.

End VoiceChat.

(** ** Auxiliary definitions for the statements *)

(** A word on one line: no character that [/./] skips. *)
Definition singleLine (w : string) : bool :=
  forallb (λ c, negb (Js.isLineTerminator c)) (list_ascii_of_string w).

(** The masking the specification describes, to compare with
    [Js.replaceEachChar]: one underscore per letter, in place, a space
    staying a space. *)
Fixpoint maskPreservingSpaces (w : string) : string :=
  match w with
  | EmptyString => EmptyString
  | String c r =>
      String (if Ascii.eqb c " " then " "%char else "_"%char) (maskPreservingSpaces r)
  end.

(** [n] consecutive [nextTurn] calls on one room, one [get3Words()] outcome
    per call, and nothing else in between. *)
Fixpoint nextTurns (optss : list (list string)) (roomId : string) (g : Game.t)
  : Game.t :=
  match optss with
  | [] => g
  | opts :: rest => nextTurns rest roomId (nextTurn opts roomId g).1.1
  end.

(** Whether a [nextTurn] call on [g] takes the wrap-around branch
    ([drawerIndex] incremented reaches [players.length]). *)
Definition wraps (g : Game.t) : bool :=
  Z.of_nat (length (Game.players g)) <=? Game.drawerIndex g + 1.

(** How many of the calls made by [nextTurns] wrap. *)
Fixpoint countWraps (optss : list (list string)) (roomId : string) (g : Game.t)
  : nat :=
  match optss with
  | [] => 0%nat
  | opts :: rest =>
      ((if wraps g then 1 else 0)
       + countWraps rest roomId (nextTurn opts roomId g).1.1)%nat
  end.

(** *** A worked session

    Room [r1] is created by socket [A] (two rounds of 60 s), sockets [B]
    and [C] join, [A] starts the game and picks the word [cat]. *)

Definition sessionConfig : option Config := Some (mkConfig (Some 2) (Some 60)).

Definition lobbyServer : Server :=
  let s := (join_room "A" "r1" "alice" sessionConfig "" emptyServer).1.1 in
  let s := (join_room "B" "r1" "bob" None "" s).1.1 in
  (join_room "C" "r1" "carol" None "" s).1.1.

Definition selectingServer : Server :=
  (start_game ["cat"; "dog"; "owl"] "A" "r1" sessionConfig lobbyServer).1.1.

Definition drawingServer : Server :=
  (select_word "A" "r1" "cat" selectingServer).1.1.

(** The room [r1] of [lobbyServer], of [selectingServer] and of
    [drawingServer]. *)
Definition lobbyRoom : Game.t :=
  Game.mk "r1" LOBBY
    [Player.mk "A" "alice" defaultAvatar 0 false false false;
     Player.mk "B" "bob" defaultAvatar 0 false false false;
     Player.mk "C" "carol" defaultAvatar 0 false false false]
    0 "" [] 2 1 60 0 None "A".

Definition selectingRoom : Game.t :=
  Game.mk "r1" SELECTING
    [Player.mk "A" "alice" defaultAvatar 0 false false false;
     Player.mk "B" "bob" defaultAvatar 0 false false false;
     Player.mk "C" "carol" defaultAvatar 0 false false false]
    0 "" ["cat"; "dog"; "owl"] 2 1 60 15 (Some SelectionTimer) "A".

Definition drawingRoom : Game.t :=
  Game.mk "r1" DRAWING
    [Player.mk "A" "alice" defaultAvatar 0 false false false;
     Player.mk "B" "bob" defaultAvatar 0 false false false;
     Player.mk "C" "carol" defaultAvatar 0 false false false]
    0 "cat" [] 2 1 60 60 (Some RoundTimer) "A".

(** A room in its drawing phase whose word has a space in it; [A] draws. *)
Definition iceCreamRoom : Game.t :=
  Game.mk "r1" DRAWING
    [Player.mk "A" "alice" "" 0 false false false;
     Player.mk "B" "bob" "" 0 false false false]
    0 "ice cream" [] 3 1 60 42 (Some RoundTimer) "A".

(** The room as ['start-game'] hands it to [nextTurn]: two players, round 1,
    [drawerIndex] at -1. *)
Definition freshlyStartedRoom : Game.t :=
  Game.mk "r1" LOBBY
    [Player.mk "A" "alice" "" 0 false false false;
     Player.mk "B" "bob" "" 0 false false false]
    (-1) "" [] 3 1 60 0 None "A".

(** What a scan of the player list by [me], started with the connections
    [peers0], may have added to the client state: offers only, toward
    strictly greater ids only, and one for each connection created. *)
Definition scanInv (me : string) (peers0 : gset string) (st : VoiceChat.State) : Prop :=
  (∀ s, s ∈ st.2 → VoiceChat.kind s = VoiceChat.Offer
                   ∧ (me <? VoiceChat.target s)%string = true)
  ∧ (∀ x, x ∈ st.1 → x ∈ peers0 ∨ (me <? x)%string = true)
  ∧ (∀ x, x ∈ st.1 → x ∈ peers0 ∨ VoiceChat.mkSignal x VoiceChat.Offer ∈ st.2)
  ∧ peers0 ⊆ st.1.

(** ** The word bank and [get3Words] *)

(** [WORDS] of [lib/words.ts]. *)
Definition WORDS : list string :=
  [
   "dog"; "cat"; "elephant"; "giraffe"; "lion"; "tiger"; "bear"; "monkey";
   "penguin"; "kangaroo"; "dolphin"; "shark"; "whale"; "octopus"; "eagle"; "owl";
   "flamingo"; "peacock"; "snake"; "frog"; "turtle"; "rabbit"; "hamster"; "squirrel";
   "fox"; "wolf"; "zebra"; "rhino"; "hippo"; "crocodile"; "panda"; "koala";
   "sloth"; "otter"; "seal"; "bat"; "butterfly"; "dragon"; "unicorn"; "dinosaur";
   "pizza"; "burger"; "sushi"; "taco"; "spaghetti"; "sandwich"; "salad"; "soup";
   "steak"; "chicken"; "fries"; "ice cream"; "cake"; "cookie"; "donut"; "chocolate";
   "pancake"; "waffle"; "popcorn"; "chips"; "apple"; "banana"; "grape"; "strawberry";
   "watermelon"; "pineapple"; "orange"; "lemon"; "avocado"; "tomato"; "coffee"; "tea";
   "milk"; "soda"; "juice"; "beer"; "wine"; "cocktail"; "water"; "cheese";
   "table"; "chair"; "sofa"; "bed"; "lamp"; "desk"; "computer"; "phone";
   "television"; "fridge"; "oven"; "microwave"; "toaster"; "sink"; "toilet"; "mirror";
   "clock"; "fan"; "broom"; "mop"; "bucket"; "sponge"; "soap"; "towel";
   "toothbrush"; "toothpaste"; "comb"; "brush"; "pillow"; "blanket"; "book"; "pen";
   "pencil"; "scissors"; "glue"; "tape"; "paper"; "notebook"; "laptop"; "mouse";
   "house"; "school"; "hospital"; "bank"; "store"; "park"; "beach"; "forest";
   "mountain"; "river"; "city"; "village"; "farm"; "zoo"; "museum"; "library";
   "cinema"; "stadium"; "airport"; "station"; "castle"; "palace"; "igloo"; "tent";
   "cave"; "island"; "desert"; "jungle"; "space"; "moon"; "run"; "jump";
   "swim"; "fly"; "sleep"; "eat"; "drink"; "read"; "write"; "draw";
   "paint"; "sing"; "dance"; "play"; "fight"; "laugh"; "cry"; "smile";
   "frown"; "shout"; "whisper"; "cook"; "clean"; "drive"; "ride"; "climb";
   "fall"; "push"; "pull"; "open"; "superman"; "batman"; "spiderman"; "hulk";
   "pikachu"; "mario"; "sonic"; "minecraft"; "fortnite"; "roblox"; "harry potter"; "star wars";
   "avengers"; "shrek"; "spongebob"; "minion"; "frozen"; "moana"; "lion king"; "toy story";
   "ghost"; "vampire"; "zombie"; "witch"; "wizard"; "clown"; "robot"; "ninja";
   "pirate"; "cowboy"
  ].

(** The loop of [get3Words]. [indices] is the [Set] in insertion order
    (adding a member again changes nothing); each element of [draws] is one
    value of [Math.floor(Math.random() * WORDS.length)], so a number below
    [len]. [None]: the draws given ran out before the loop ended. *)
Fixpoint drawIndices (len : nat) (draws indices : list nat) : option (list nat) :=
  if (length indices <? 3)%nat && (length indices <? len)%nat then
    match draws with
    | [] => None
    | i :: rest =>
        drawIndices len rest (if decide (i ∈ indices) then indices else indices ++ [i])
    end
  else Some indices.

(** [get3Words()], consuming [draws]: [Array.from(indices).map(i => WORDS[i])] *)
Definition get3Words (draws : list nat) : option (list string) :=
  (λ indices : list nat, (λ i, default "" (WORDS !! i)) <$> indices)
    <$> drawIndices (length WORDS) draws [].

(** ** Timer callbacks *)

(** What a timer callback emits: ['timer-update'] and the time's-up notice
    ('Time's up! The word was <currentWord>'), both to the whole room, and
    the emissions of the function it calls. *)
Inductive TimerEmit :=
| TimerUpdate (roomId : string) (timeLeft : Z)
| TimesUp (roomId word : string)
| Emitted (e : Emit).

(** The interval callback set by [nextTurn]. [None] stands for
    [game.wordOptions[0]] being [undefined] (no option offered), which the
    model of [currentWord] as a string does not cover. *)
Definition selectionTick (roomId : string) (g : Game.t)
  : option (Game.t * list TimerEmit * option Error) :=
  let g := Game.set_timeLeft (Game.timeLeft g - 1) g in
  if Game.timeLeft g <=? 0 then
    match Game.wordOptions g with
    | [] => None
    | word :: _ =>
        let '(g', es, err) := startRound roomId word g in
        Some (g', Emitted <$> es, err)
    end
  else Some (g, [TimerUpdate roomId (Game.timeLeft g)], None).

(** The interval callback set by [startRound]; [opts] is for the [nextTurn]
    it may call. *)
Definition roundTick (opts : list string) (roomId : string) (g : Game.t)
  : Game.t * list TimerEmit * option Error :=
  let g := Game.set_timeLeft (Game.timeLeft g - 1) g in
  let e1 := [TimerUpdate roomId (Game.timeLeft g)] in
  if Game.timeLeft g <=? 0 then
    let '(g', es, err) := nextTurn opts roomId g in
    (g', e1 ++ TimesUp roomId (Game.currentWord g) :: (Emitted <$> es), err)
  else (g, e1, None).

(** One firing of the interval a room currently runs, if any. *)
Definition timerTick (opts : list string) (roomId : string) (srv : Server)
  : option (Server * list TimerEmit * option Error) :=
  match games srv !! roomId with
  | None => Some (srv, [], None)
  | Some g =>
    match Game.timer g with
    | None => Some (srv, [], None)
    | Some SelectionTimer =>
        '(g', es, err) ← selectionTick roomId g;
        Some (setGame roomId g' srv, es, err)
    | Some RoundTimer =>
        let '(g', es, err) := roundTick opts roomId g in
        Some (setGame roomId g' srv, es, err)
    end
  end.

(** [n] consecutive firings of a room's selection interval, stopping once
    the round has started. *)
Fixpoint selectionTicks (n : nat) (roomId : string) (g : Game.t)
  : option (Game.t * list TimerEmit * option Error) :=
  match n with
  | O => Some (g, [], None)
  | S n =>
    '(g1, e1, err1) ← selectionTick roomId g;
    if decide (Game.timer g1 = Some SelectionTimer) then
      '(g2, e2, err2) ← selectionTicks n roomId g1; Some (g2, e1 ++ e2, err2)
    else Some (g1, e1, err1)
  end.


(** ** Disconnection *)

(** [player.disconnected = true] and, once the broadcast is through,
    [player.disconnectTimeout = setTimeout(...)]. *)
Definition setDisconnected (b : bool) (p : Player.t) : Player.t :=
  Player.mk (Player.id p) (Player.name p) (Player.avatar p) (Player.score p)
            (Player.guessed p) b (Player.disconnectTimeout p).

Definition setDisconnectTimeout (b : bool) (p : Player.t) : Player.t :=
  Player.mk (Player.id p) (Player.name p) (Player.avatar p) (Player.score p)
            (Player.guessed p) (Player.disconnected p) b.

(** The body of the ['disconnect'] loop for one room: [None] when the
    socket is no player of it ([playerIndex === -1]). *)
Definition markDisconnected (sid : string) (game : Game.t)
  : option (Outcome Game.t) :=
  match findById sid (Game.players game) with
  | None => None
  | Some (playerIndex, player) =>
    let player := setDisconnected true player in
    let g := Game.set_players (<[playerIndex := player]> (Game.players game)) game in
    match
      emitAll
        ((λ p, mkEmit (IoTo (Player.id p)) (GameUpdate (getPublicState g (Player.id p))))
           <$> filter (λ p, Player.disconnected p = false) (Game.players g))
    with
    | (sent, Some err) => Some (g, sent, Some err)
    | (sent, None) =>
      Some (Game.set_players
              (<[playerIndex := setDisconnectTimeout true player]> (Game.players g)) g,
            sent, None)
    end
  end.

(** [for (const roomId in games) { ... break }]: [order] is the order in
    which the keys of [games] are enumerated. *)
Fixpoint disconnectFrom (order : list string) (sid : string) (srv : Server)
  : Outcome Server :=
  match order with
  | [] => (srv, [], None)
  | roomId :: rest =>
    match games srv !! roomId with
    | None => disconnectFrom rest sid srv
    | Some game =>
      match markDisconnected sid game with
      | None => disconnectFrom rest sid srv
      | Some (g, es, err) => (setGame roomId g srv, es, err)
      end
    end
  end.

(** socket.io takes a closing socket out of every room before the
    ['disconnect'] listeners run. *)
Definition socketLeaveAll (sid : string) (srv : Server) : Server :=
  mkServer (games srv) ((λ members, members ∖ {[sid]}) <$> rooms srv).

(** [socket.on('disconnect', () => ...)] *)
Definition disconnect (order : list string) (sid : string) (srv : Server)
  : Outcome Server :=
  disconnectFrom order sid (socketLeaveAll sid srv).

(** The timeout callback of ['disconnect'], which runs unless a reconnection
    cleared it: [handlePlayerRemove(io, roomId, player.id)]. *)
Definition graceExpiry (opts : list string) (roomId playerId : string) (srv : Server)
  : Outcome Server :=
  match games srv !! roomId with
  | None => (srv, [], None)
  | Some game =>
    match findById playerId (Game.players game) with
    | Some (_, player) =>
      if Player.disconnectTimeout player
      then handlePlayerRemove opts roomId playerId srv else (srv, [], None)
    | None => (srv, [], None)
    end
  end.

(** The room ['join-room'] stores: the reconciliation of [enterRoom], without
    its emissions. *)
Definition joinedRoom (sid username avatar : string) (game : Game.t) : Game.t :=
  match findExisting sid username (Game.players game) with
  | Some (existingInd, p) =>
    let p' := Player.mk sid username
                (if decide (avatar = "") then Player.avatar p else avatar)
                (Player.score p) (Player.guessed p) false false in
    let g := Game.set_players (<[existingInd := p']> (Game.players game)) game in
    if decide (Game.hostId g = Player.id p) then Game.set_hostId sid g else g
  | None =>
    Game.set_players
      (Game.players game
         ++ [Player.mk sid username (Js.orStr avatar defaultAvatar) 0 false false false])
      game
  end.

(** A server whose only room is in SELECTING phase with the last listed
    player, [C], as drawer. *)
Definition lastDrawerRoom : Game.t :=
  Game.mk "r1" SELECTING
    [Player.mk "A" "alice" defaultAvatar 0 false false false;
     Player.mk "B" "bob" defaultAvatar 0 false false false;
     Player.mk "C" "carol" defaultAvatar 0 false true true]
    2 "" ["cat"; "dog"; "owl"] 2 1 60 12 (Some SelectionTimer) "A".

Definition lastDrawerServer : Server :=
  mkServer {["r1" := lastDrawerRoom]} ∅.

(** ** The server as a transition system *)

(** One unit of work of the event loop: a client message, a timer firing,
    a disconnection or the end of a grace period. *)
Inductive Event :=
| JoinRoom (sid roomId username : string) (config : option Config) (avatar : string)
| StartGame (opts : list string) (sid roomId : string) (config : option Config)
| SelectWord (sid roomId word : string)
| Chat (opts : list string) (sid : string) (data : ChatData)
| Tick (opts : list string) (roomId : string)
| Disconnect (order : list string) (sid : string)
| GraceExpiry (opts : list string) (roomId playerId : string).

(** The state after an event, which is the state the handler leaves,
    whether it returns or throws; [None] when the handler leaves the model
    (a selection countdown that runs out with no word on offer). *)
Definition step (ev : Event) (srv : Server) : option Server :=
  match ev with
  | JoinRoom sid roomId username config avatar =>
      Some (join_room sid roomId username config avatar srv).1.1
  | StartGame opts sid roomId config =>
      Some (start_game opts sid roomId config srv).1.1
  | SelectWord sid roomId word => Some (select_word sid roomId word srv).1.1
  | Chat opts sid data => Some (chat_message opts sid data srv).1.1
  | Tick opts roomId => (λ r, r.1.1) <$> timerTick opts roomId srv
  | Disconnect order sid => Some (disconnect order sid srv).1.1
  | GraceExpiry opts roomId playerId =>
      Some (graceExpiry opts roomId playerId srv).1.1
  end.

(** The states the server can be in: those a sequence of events leads to
    from the empty server. *)
Inductive Reachable : Server → Prop :=
| reach_empty : Reachable emptyServer
| reach_step (ev : Event) (srv srv' : Server) :
    Reachable srv → step ev srv = Some srv' → Reachable srv'.

(** The state a sequence of events leads to. *)
Fixpoint run (evs : list Event) (srv : Server) : option Server :=
  match evs with
  | [] => Some srv
  | ev :: rest => step ev srv ≫= run rest
  end.

(** A session of three players in which the third, [C], closes the
    connection while choosing a word, as the last listed player: two turns
    end on everyone guessing, [C] disconnects, the grace period ends after
    ten more seconds, and four more seconds pass. *)
Definition noDrawerTrace : list Event :=
  [JoinRoom "A" "r1" "alice" sessionConfig "";
   JoinRoom "B" "r1" "bob" None "";
   JoinRoom "C" "r1" "carol" None "";
   StartGame ["cat"; "dog"; "owl"] "A" "r1" sessionConfig;
   SelectWord "A" "r1" "cat";
   Chat [] "B" (mkChat "r1" "bob" "cat");
   Chat ["sun"; "sea"; "sky"] "C" (mkChat "r1" "carol" " Cat ");
   SelectWord "B" "r1" "sun";
   Chat [] "A" (mkChat "r1" "alice" "sun");
   Chat ["pen"; "ink"; "cup"] "C" (mkChat "r1" "carol" "SUN");
   Disconnect ["r1"] "C"]
  ++ replicate 10 (Tick [] "r1")
  ++ [GraceExpiry [] "r1" "C"]
  ++ replicate 4 (Tick [] "r1").

Definition noDrawerServer : Server :=
  default emptyServer (run noDrawerTrace emptyServer).

(** The state of [noDrawerServer] one second later, when the selection
    countdown has run out. *)
Definition noDrawerRoundServer : Server :=
  default emptyServer (run (noDrawerTrace ++ [Tick [] "r1"]) emptyServer).



(** The worked session after [C] has guessed the word and then closed the
    connection: the ten seconds [C] has to come back are running. *)
Definition pendingTrace : list Event :=
  [JoinRoom "A" "r1" "alice" sessionConfig "";
   JoinRoom "B" "r1" "bob" None "";
   JoinRoom "C" "r1" "carol" None "";
   StartGame ["cat"; "dog"; "owl"] "A" "r1" sessionConfig;
   SelectWord "A" "r1" "cat";
   Chat [] "C" (mkChat "r1" "carol" "cat");
   Disconnect ["r1"] "C"].

Definition pendingServer : Server :=
  default emptyServer (run pendingTrace emptyServer).

Definition pendingRoom : Game.t :=
  Game.mk "r1" DRAWING
    [Player.mk "A" "alice" defaultAvatar 50 false false false;
     Player.mk "B" "bob" defaultAvatar 0 false false false;
     Player.mk "C" "carol" defaultAvatar 500 true true true]
    0 "cat" [] 2 1 60 60 (Some RoundTimer) "A".

(** A lobby of three in which [C] closes the connection and [A] starts the
    game within the ten seconds [C] has to come back: ['start-game'] throws
    at its first game update, after the room was put in SELECTING phase and
    before the selection countdown is set. *)
Definition stalledTrace : list Event :=
  [JoinRoom "A" "r1" "alice" sessionConfig "";
   JoinRoom "B" "r1" "bob" None "";
   JoinRoom "C" "r1" "carol" None "";
   Disconnect ["r1"] "C";
   StartGame ["cat"; "dog"; "owl"] "A" "r1" sessionConfig].

Definition stalledServer : Server :=
  default emptyServer (run stalledTrace emptyServer).

(** The timer a phase runs. *)
Definition timerOf (s : Status) : option Timer :=
  match s with
  | LOBBY | ENDED => None
  | SELECTING => Some SelectionTimer
  | DRAWING => Some RoundTimer
  end.

(** What the handlers keep of a room stored under key [roomId], whatever
    its phase: its name, which is none of [Object.prototype], its players
    (listed once each, never none, the host among them, no score below
    zero) and its settings. *)
Record RoomCore (roomId : string) (g : Game.t) : Prop := mkRoomCore {
  core_key : Game.roomId g = roomId;
  core_own : inherited roomId = false;
  core_ids : NoDup (Player.id <$> Game.players g);
  core_nonempty : Game.players g ≠ [];
  core_host : Game.hostId g ∈ Player.id <$> Game.players g;
  core_drawTime : Game.drawTime g ≠ 0;
  core_maxRounds : Game.maxRounds g ≠ 0;
  core_scores : Forall (λ p, 0 ≤ Player.score p) (Game.players g)
}.

(** What holds of a room between two events: besides the above, the
    drawer index is not negative, an interval that runs is the one of the
    phase, and while a word is being drawn the clock is at the draw time or
    strictly between zero and it. *)
Record RoomInv (roomId : string) (g : Game.t) : Prop := mkRoomInv {
  inv_core : RoomCore roomId g;
  inv_drawer : 0 ≤ Game.drawerIndex g;
  inv_timer : ∀ t, Game.timer g = Some t → timerOf (Game.status g) = Some t;
  inv_clock : Game.status g = DRAWING →
              Game.timeLeft g = Game.drawTime g
              ∨ 0 < Game.timeLeft g < Game.drawTime g
}.

Definition ServerInv (srv : Server) : Prop :=
  ∀ roomId g, games srv !! roomId = Some g → RoomInv roomId g.

(** ** The drawing board (client, [components/Canvas.tsx]) *)

Module Sketch.

Inductive Tool := Pen | Eraser | Bucket.   (* 'pen' | 'eraser' | 'fill' *)

#[global] Instance Tool_eq_dec : EqDecision Tool.
Proof. solve_decision. Defined.

(** Canvas coordinates are JavaScript numbers; the handlers store and
    forward them, and floor them for a fill. *)
Record Point := mkPoint { x : Q; y : Q }.

(** [type Action = Stroke | Fill | Clear] *)
Inductive Action :=
| Stroke (points : list Point) (color : string) (width : Z)
| Fill (fx fy : Z) (color : string)
| Clear.

(** The payload of a ['draw'] message: [type] is ['start'] or ['draw'];
    [width] is absent from the latter. *)
Record DrawData := mkDraw {
  at_ : Point;
  isStart : bool;
  drawColor : string;
  drawWidth : option Z
}.

(** What a board sends, and is sent, through the six relay handlers of the
    server. *)
Inductive Msg :=
| DrawMsg (data : DrawData)                 (* 'draw' *)
| EndDrawMsg                                (* 'end-draw' *)
| FillMsg (fx fy : Z) (color : string)      (* 'fill' *)
| ClearMsg                                  (* 'clear' *)
| UndoMsg                                   (* 'undo' *)
| RedoMsg.                                  (* 'redo' *)

(** The state of one [Canvas] component between two events: the React
    state [history], [redoStack], [isDrawing], [color], [tool] and the refs
    [currentStroke] and [remoteStroke] (points, color, width). *)
Record Board := mkBoard {
  history : list Action;
  redoStack : list Action;
  isDrawing : bool;
  currentStroke : list Point;
  remoteStroke : option (list Point * string * Z);
  color : string;
  tool : Tool
}.


Definition set_history (h : list Action) (b : Board) : Board :=
  mkBoard h (redoStack b) (isDrawing b) (currentStroke b) (remoteStroke b)
          (color b) (tool b).
Definition set_redoStack (r : list Action) (b : Board) : Board :=
  mkBoard (history b) r (isDrawing b) (currentStroke b) (remoteStroke b)
          (color b) (tool b).
Definition set_currentStroke (ps : list Point) (b : Board) : Board :=
  mkBoard (history b) (redoStack b) (isDrawing b) ps (remoteStroke b)
          (color b) (tool b).

(** [tool === 'eraser' ? '#FFFFFF' : color] and [tool === 'eraser' ? 20 : 2] *)
Definition penColor (b : Board) : string :=
  if decide (tool b = Eraser) then "#FFFFFF" else color b.

(** [const a = copy.pop()]: the list without its last element, and that
    element; [None] on the empty list ([pop] gives [undefined]). *)
Definition pop {A : Type} (l : list A) : option (list A * A) :=
  match reverse l with
  | [] => None
  | a :: r => Some (reverse r, a)
  end.

(** *** Local handlers; [allowed] is the prop [isAllowedToDraw] *)


(** [draw(e)] *)
Definition draw (allowed : bool) (p : Point) (b : Board) : Board * list Msg :=
  if negb (isDrawing b) || negb allowed then (b, [])
  else (set_currentStroke (currentStroke b ++ [p]) b,
        [DrawMsg (mkDraw p false (penColor b) None)]).



(** [handleUndo()] *)
Definition handleUndo (allowed : bool) (b : Board) : Board * list Msg :=
  if negb allowed then (b, [])
  else
    match pop (history b) with
    | None => (b, [])
    | Some (newHistory, action) =>
      (set_redoStack (redoStack b ++ [action]) (set_history newHistory b), [UndoMsg])
    end.

(** [handleRedo()] *)
Definition handleRedo (allowed : bool) (b : Board) : Board * list Msg :=
  if negb allowed then (b, [])
  else
    match pop (redoStack b) with
    | None => (b, [])
    | Some (newRedoStack, action) =>
      (set_redoStack newRedoStack (set_history (history b ++ [action]) b), [RedoMsg])
    end.


(** *** Socket listeners *)






(** *** Two boards and the relay between them *)


(** What happens at the board of the player who draws; [ServerClear] is
    the ['clear'] the server sends to the whole room on a turn change. *)
Inductive Event :=
| StartDrawing (allowed : bool) (p : Point)
| Draw (allowed : bool) (p : Point)
| StopDrawing
| ClearClick (allowed : bool)
| UndoClick (allowed : bool)
| RedoClick (allowed : bool)
| SetTool (t : Tool)
| PickColor (c : string)
| ServerClear.






(** [n] clicks on Undo, or on Redo, in a row. *)
Fixpoint undos (n : nat) (b : Board) : Board * list Msg :=
  match n with
  | O => (b, [])
  | S n => let '(b1, m1) := handleUndo true b in
           let '(b2, m2) := undos n b1 in (b2, m1 ++ m2)
  end.
Fixpoint redos (n : nat) (b : Board) : Board * list Msg :=
  match n with
  | O => (b, [])
  | S n => let '(b1, m1) := handleRedo true b in
           let '(b2, m2) := redos n b1 in (b2, m1 ++ m2)
  end.

(** *** [hexToRgb] *)

(** One character of the class [[a-f\d]] under the [i] flag, as the digit
    [parseInt(_, 16)] reads. *)
Definition hexDigit (c : ascii) : option Z :=
  let n := Z.of_nat (nat_of_ascii c) in
  if (48 <=? n) && (n <=? 57) then Some (n - 48)
  else if (97 <=? n) && (n <=? 102) then Some (n - 87)
  else if (65 <=? n) && (n <=? 70) then Some (n - 55)
  else None.

Definition hexPair (a b : ascii) : option Z :=
  hi ← hexDigit a; lo ← hexDigit b; Some (16 * hi + lo).

(** [/^#?([a-f\d]{2})([a-f\d]{2})([a-f\d]{2})$/i.exec(hex)], each group
    read by [parseInt(_, 16)]. *)
Definition matchHex (hex : string) : option (Z * Z * Z) :=
  let body := match hex with
              | String "#" rest => rest
              | _ => hex
              end in
  match list_ascii_of_string body with
  | [r1; r2; g1; g2; b1; b2] =>
      r ← hexPair r1 r2; g ← hexPair g1 g2; b ← hexPair b1 b2; Some (r, g, b)
  | _ => None
  end.

(** [hexToRgb(hex)]: black when the text is no colour. *)
Definition hexToRgb (hex : string) : Z * Z * Z := default (0, 0, 0) (matchHex hex).

(** [COLORS] *)
Definition COLORS : list string :=
  ["#000000"; "#FF0000"; "#00FF00"; "#0000FF";
   "#FFFF00"; "#FF00FF"; "#00FFFF"; "#FFFFFF";
   "#FFA500"; "#800080"; "#008000"; "#A52A2A";
   "#A0aec0"; "#718096"].

End Sketch.

(** ** Voice mesh upkeep (client, [VoiceChat] of [components/Canvas.tsx]) *)

Module VoiceMesh.


(** [pc.oniceconnectionstatechange] with the state ['disconnected'] or
    ['failed']: the connection is closed and forgotten. *)
Definition onIceFailure (targetId : string) (peers : gset string) : gset string :=
  peers ∖ {[targetId]}.


(** Every listed player with a greater id is held. *)
Definition settled (currentUserId : string) (players : list string)
    (peers : gset string) : Prop :=
  ∀ pid, pid ∈ players → (currentUserId <? pid)%string = true → pid ∈ peers.

End VoiceMesh.

(** ** The fill tool ([floodFill] of [components/Canvas.tsx]) *)

Module FloodFill.

(** [ImageData]: [data] is the [Uint8ClampedArray] of the RGBA bytes of the
    canvas, row after row. *)
Record ImageData := mkImageData { width : Z; height : Z; data : list Z }.

(** [data[pos]]: [undefined] outside the array. *)
Definition get (d : list Z) (pos : Z) : option Z :=
  if pos <? 0 then None else d !! Z.to_nat pos.

(** [data[pos] = v]: a write outside a typed array is ignored. The values
    written are channels read by [hexToRgb] and 255, which the array stores
    as they are. *)
Definition put (pos v : Z) (d : list Z) : list Z :=
  if pos <? 0 then d else <[Z.to_nat pos := v]> d.

Section Loops.

(** [canvas.width], [canvas.height], [targetColor] (r, g, b) and
    [fillColor]. *)
Context (w h : Z) (targetColor : option Z * option Z * option Z)
        (fillColor : Z * Z * Z).

(** [match(pos)] *)
Definition matches (d : list Z) (pos : Z) : bool :=
  bool_decide (get d pos = targetColor.1.1)
  && bool_decide (get d (pos + 1) = targetColor.1.2)
  && bool_decide (get d (pos + 2) = targetColor.2).

(** [colorPixel(pos)] *)
Definition colorPixel (pos : Z) (d : list Z) : list Z :=
  put (pos + 3) 255
    (put (pos + 2) fillColor.2
       (put (pos + 1) fillColor.1.2
          (put pos fillColor.1.1 d))).

(** [while (y >= 0 && match(pixelPos)) { y--; pixelPos -= width * 4 }],
    at most [fuel] times round. *)
Fixpoint up (fuel : nat) (d : list Z) (y pixelPos : Z) : Z * Z :=
  match fuel with
  | O => (y, pixelPos)
  | S fuel =>
    if (0 <=? y) && matches d pixelPos
    then up fuel d (y - 1) (pixelPos - w * 4)
    else (y, pixelPos)
  end.

(** The loop itself: [y] goes down by one each time round and the loop
    stops below zero, so [y + 1] times round are enough. *)
Definition climb (d : list Z) (y pixelPos : Z) : Z * Z :=
  up (Z.to_nat (y + 1)) d y pixelPos.

(** [if (match(neighbour)) { if (!reach) { stack.push(entry); reach = true } }
     else if (reach) { reach = false }] *)
Definition look (reach hit : bool) (entry : Z * Z) (stack : list (Z * Z))
  : list (Z * Z) * bool :=
  if hit then (if reach then (stack, true) else (entry :: stack, true))
  else (stack, false).

(** [while (y < height && match(pixelPos)) { colorPixel(pixelPos); ...;
    y++; pixelPos += width * 4 }], at most [fuel] times round. The stack
    has its top first. *)
Fixpoint down (fuel : nat) (x y pixelPos : Z) (d : list Z) (stack : list (Z * Z))
    (reachLeft reachRight : bool) : list Z * list (Z * Z) :=
  match fuel with
  | O => (d, stack)
  | S fuel =>
    if (y <? h) && matches d pixelPos then
      let d := colorPixel pixelPos d in
      let '(stack, reachLeft) :=
        if 0 <? x
        then look reachLeft (matches d (pixelPos - 4)) (x - 1, y) stack
        else (stack, reachLeft) in
      let '(stack, reachRight) :=
        if x <? w - 1
        then look reachRight (matches d (pixelPos + 4)) (x + 1, y) stack
        else (stack, reachRight) in
      down fuel x (y + 1) (pixelPos + w * 4) d stack reachLeft reachRight
    else (d, stack)
  end.

(** The loop itself, entered with both flags down: [y] goes up by one each
    time round and the loop stops at [height]. *)
Definition descend (x y pixelPos : Z) (d : list Z) (stack : list (Z * Z))
  : list Z * list (Z * Z) :=
  down (Z.to_nat (h - y)) x y pixelPos d stack false false.

(** [while (stack.length) { let [x, y] = stack.pop(); ... }], at most
    [fuel] times round; [None] when that is not enough. *)
Fixpoint drain (fuel : nat) (d : list Z) (stack : list (Z * Z)) : option (list Z) :=
  match stack with
  | [] => Some d
  | (x, y) :: stack =>
    match fuel with
    | O => None
    | S fuel =>
      let pixelPos := (y * w + x) * 4 in
      let '(y, pixelPos) := climb d y pixelPos in
      let pixelPos := pixelPos + w * 4 in
      let y := y + 1 in
      let '(d, stack) := descend x y pixelPos d stack in
      drain fuel d stack
    end
  end.

End Loops.

(** [floodFill(ctx, startX, startY, fillColorStr)] on the image of the
    canvas; the result is the image of the canvas afterwards. *)
Definition floodFill (fuel : nat) (img : ImageData) (startX startY : Z)
    (fillColorStr : string) : option ImageData :=
  let w := width img in
  let d := data img in
  let fillColor := Sketch.hexToRgb fillColorStr in
  let startPos := (startY * w + startX) * 4 in
  let targetColor := (get d startPos, get d (startPos + 1), get d (startPos + 2)) in
  if bool_decide (targetColor.1.1 = Some fillColor.1.1)
     && bool_decide (targetColor.1.2 = Some fillColor.1.2)
     && bool_decide (targetColor.2 = Some fillColor.2)
  then Some img
  else mkImageData w (height img)
         <$> drain w (height img) targetColor fillColor fuel d [(startX, startY)].

(** *** Pixels and regions *)

Definition pixelPos (w x y : Z) : Z := (y * w + x) * 4.

Definition inside (w h x y : Z) : Prop := 0 ≤ x < w ∧ 0 ≤ y < h.

(** The colour and the opacity of the pixel in column [x] of row [y]. *)
Definition rgb (w : Z) (d : list Z) (x y : Z) : option Z * option Z * option Z :=
  let p := pixelPos w x y in (get d p, get d (p + 1), get d (p + 2)).
Definition alpha (w : Z) (d : list Z) (x y : Z) : option Z :=
  get d (pixelPos w x y + 3).

(** Side by side, or one above the other. *)
Definition adjacent (x y x' y' : Z) : Prop :=
  (x' = x ∧ (y' = y + 1 ∨ y' = y - 1)) ∨ (y' = y ∧ (x' = x + 1 ∨ x' = x - 1)).

(** The pixels reached from the start through adjacent pixels of the
    colour of the start, all inside the canvas. *)
Inductive Region (img : ImageData) (startX startY : Z) : Z → Z → Prop :=
| region_start : Region img startX startY startX startY
| region_step (x y x' y' : Z) :
    Region img startX startY x y →
    adjacent x y x' y' →
    inside (width img) (height img) x' y' →
    rgb (width img) (data img) x' y' = rgb (width img) (data img) startX startY →
    Region img startX startY x' y'.

(** *** What the loops keep *)

(** A pixel inside the canvas that has the target colour now. *)
Definition Open (w h : Z) (targetColor : option Z * option Z * option Z)
    (d : list Z) (x y : Z) : Prop :=
  inside w h x y ∧ matches targetColor d (pixelPos w x y) = true.

(** The pixel is waited for by an entry of the stack further up in its
    column, with only open pixels in between. *)
Definition Covered (w h : Z) (targetColor : option Z * option Z * option Z)
    (d : list Z) (stack : list (Z * Z)) (x y : Z) : Prop :=
  ∃ s, (x, s) ∈ stack ∧ s ≤ y ∧ ∀ i, s ≤ i ≤ y → Open w h targetColor d x i.

(** The pixels with the target colour, by index. *)
Definition openSet (w h : Z) (targetColor : option Z * option Z * option Z)
    (d : list Z) : gset Z :=
  filter (λ k, matches targetColor d (k * 4) = true)
         (list_to_set (seqZ 0 (w * h)) : gset Z).

(** The pixel has the fill colour, opaque; the pixel is as in [d0]. *)
Definition Filled (w : Z) (fillColor : Z * Z * Z) (d : list Z) (x y : Z) : Prop :=
  rgb w d x y = (Some fillColor.1.1, Some fillColor.1.2, Some fillColor.2)
  ∧ alpha w d x y = Some 255.
Definition Same (w : Z) (d0 d : list Z) (x y : Z) : Prop :=
  rgb w d x y = rgb w d0 x y ∧ alpha w d x y = alpha w d0 x y.

(** What holds each time round the outer loop, [d0] being the image the
    fill started on: a pixel is as it was or filled, and filled only in the
    region of the start; the stack holds pixels of the region; an open
    pixel next to a filled one is beside it and covered; the start is
    filled or covered. *)
Record Inv (w h : Z) (targetColor : option Z * option Z * option Z)
    (fillColor : Z * Z * Z) (d0 : list Z) (startX startY : Z)
    (d : list Z) (stack : list (Z * Z)) : Prop := mkInv {
  inv_length : length d = length d0;
  inv_frame : ∀ x y, inside w h x y →
      Same w d0 d x y
      ∨ (Region (mkImageData w h d0) startX startY x y ∧ Filled w fillColor d x y);
  inv_stack : ∀ e, e ∈ stack → Region (mkImageData w h d0) startX startY e.1 e.2;
  inv_closed : ∀ x y x' y',
      Open w h targetColor d0 x y → ¬ Open w h targetColor d x y →
      adjacent x y x' y' → Open w h targetColor d x' y' →
      y' = y ∧ Covered w h targetColor d stack x' y';
  inv_start :
      (Open w h targetColor d0 startX startY ∧ ¬ Open w h targetColor d startX startY)
      ∨ Covered w h targetColor d stack startX startY
}.

End FloodFill.

(** ** The clock alone *)





(** ** The lobby (client, [pages/index.tsx]) *)

Module Lobby.

(** The alphabet of [generateRoomId]. *)
Definition chars : string := "abcdefghijklmnopqrstuvwxyz0123456789".

(** [s.charAt(i)]: the empty string outside [s]. *)
Definition charAt (s : string) (i : nat) : string :=
  match String.get i s with
  | Some c => String c ""
  | None => ""
  end.

(** [generateRoomId()]; [draw i] is the value of
    [Math.floor(Math.random() * chars.length)] the [i]-th time round. *)
Definition generateRoomId (draw : nat → nat) : string :=
  foldl (λ result i, String.append result (charAt chars (draw i))) "" (seq 0 6).

Inductive View := LANDING | CREATE | JOIN.

(** [(roomId || 'room1').trim().toLowerCase()] *)
Definition cleanRoomId (roomId : string) : string :=
  Js.toLowerCase (Js.trim (Js.orStr roomId "room1")).

(** [handleJoin(e)] on the connected socket [sid]: the ['join-room']
    it sends, if any. The form's [rounds] and [drawTime] go along only when
    a room is being created. *)
Definition handleJoin (sid : string) (view : View) (roomId username avatar : string)
    (rounds drawTime : Z) : option Event :=
  if decide (username = "") then None
  else
    Some (JoinRoom sid (cleanRoomId roomId) username
            (match view with
             | CREATE => Some (mkConfig (Some rounds) (Some drawTime))
             | _ => None
             end)
            avatar).

(** The server after the message a form sends, if it sends one. *)
Definition submit (form : option Event) (srv : Server) : option Server :=
  match form with
  | Some ev => step ev srv
  | None => Some srv
  end.

(** A text with no white space and no capital at all. *)
Definition plain (s : string) : bool :=
  forallb (λ c, negb (Js.isSpace c) && Ascii.eqb (Js.lowerChar c) c)
          (list_ascii_of_string s).

End Lobby.



(** * Properties *)

(** ** The worked session *)

Lemma lobbyServer_room : games lobbyServer !! "r1" = Some lobbyRoom.
Proof. vm_compute. reflexivity. Qed.

Lemma selectingServer_room : games selectingServer !! "r1" = Some selectingRoom.
Proof. vm_compute. reflexivity. Qed.

Lemma drawingServer_room : games drawingServer !! "r1" = Some drawingRoom.
Proof. vm_compute. reflexivity. Qed.


Lemma pendingServer_room : games pendingServer !! "r1" = Some pendingRoom.
Proof. vm_compute. reflexivity. Qed.

(** ** The per-recipient view *)

Lemma singleLine_cons (c : ascii) (r : string) :
  singleLine (String c r) = true →
  Js.isLineTerminator c = false ∧ singleLine r = true.
Proof.
  unfold singleLine. cbn [list_ascii_of_string forallb].
  intros [H1 H2]%andb_true_iff. split; [|exact H2].
  by destruct (Js.isLineTerminator c).
Qed.

Lemma replaceEachChar_length (w : string) :
  singleLine w = true →
  String.length (Js.replaceEachChar w) = (2 * String.length w)%nat.
Proof.
  induction w as [|c r IH]; intros Hw; [reflexivity|].
  apply singleLine_cons in Hw as [Hc Hr].
  cbn [Js.replaceEachChar]. rewrite Hc.
  cbn [String.length]. rewrite IH by exact Hr. lia.
Qed.

Lemma replaceEachChar_get (w : string) (i : nat) :
  singleLine w = true →
  (i < String.length w)%nat →
  String.get (2 * i) (Js.replaceEachChar w) = Some "_"%char
  ∧ String.get (2 * i + 1) (Js.replaceEachChar w) = Some " "%char.
Proof.
  revert i. induction w as [|c r IH]; intros i Hw Hi; [cbn in Hi; lia|].
  apply singleLine_cons in Hw as [Hc Hr].
  cbn [Js.replaceEachChar]. rewrite Hc.
  destruct i as [|i]; [by cbn|].
  replace (2 * S i)%nat with (S (S (2 * i))) by lia.
  cbn [String.get Nat.add]. apply IH; [exact Hr|].
  cbn in Hi. lia.
Qed.

Lemma getPublicState_currentWord (g : Game.t) (pid : string) :
  Game.currentWord (getPublicState g pid)
  = if bool_decide (Game.status g = DRAWING) && notDrawer g pid && notGuessed g pid
    then Js.replaceEachChar (Game.currentWord g)
    else Game.currentWord g.
Proof. reflexivity. Qed.

(** The current drawer's own view carries the word as it is. *)
Lemma getPublicState_drawer (g : Game.t) (d : Player.t) :
  drawerOf g = Some d →
  Game.currentWord (getPublicState g (Player.id d)) = Game.currentWord g.
Proof.
  intros Hd. rewrite getPublicState_currentWord.
  unfold notDrawer. rewrite Hd.
  rewrite (bool_decide_true (Player.id d = Player.id d)) by reflexivity.
  by rewrite andb_false_r.
Qed.

(** The per-player loop sends each listed player the view computed for
    that very player. *)
Lemma broadcast_views (g : Game.t) (e : Emit) :
  e ∈ broadcast g →
  ∃ p, p ∈ Game.players g
       ∧ e = mkEmit (IoTo (Player.id p)) (GameUpdate (getPublicState g (Player.id p))).
Proof.
  unfold broadcast. intros (p & -> & Hp)%list_elem_of_fmap. eauto.
Qed.

(** The view never depends on the room's timer. *)
Lemma getPublicState_set_timer (t : option Timer) (g : Game.t) (pid : string) :
  getPublicState (Game.set_timer t g) pid = getPublicState g pid.
Proof. reflexivity. Qed.

(** C5, as stated, does not hold: a recipient who is neither the drawer nor
    flagged guessed is not sent the letter-for-letter mask that keeps the
    word's spaces. For the word [ice cream] the view carries nine
    underscore-space pairs. *)
Lemma C5_spacing_not_preserved :
  ¬ (∀ (g : Game.t) (pid : string),
       Game.status g = DRAWING →
       notDrawer g pid = true →
       notGuessed g pid = true →
       Game.currentWord (getPublicState g pid)
       = maskPreservingSpaces (Game.currentWord g)).
Proof.
  intros H. specialize (H iceCreamRoom "B" eq_refl eq_refl eq_refl).
  discriminate H.
Qed.

(** C5 (amended): in a room in DRAWING phase, the view sent for a recipient
    who is neither the current drawer nor flagged guessed carries
    [currentWord.replace(/./g, '_ ')]: every character of a single-line
    word, a space like any letter, is replaced by an underscore followed by
    a space, so the masked string is twice as long as the word, with an
    underscore at every even position and a space at every odd one. *)
Theorem C5_masked_view (g : Game.t) (pid : string) :
  Game.status g = DRAWING →
  notDrawer g pid = true →
  notGuessed g pid = true →
  singleLine (Game.currentWord g) = true →
  let masked := Game.currentWord (getPublicState g pid) in
  masked = Js.replaceEachChar (Game.currentWord g)
  ∧ String.length masked = (2 * String.length (Game.currentWord g))%nat
  ∧ ∀ i : nat, (i < String.length (Game.currentWord g))%nat →
      String.get (2 * i) masked = Some "_"%char
      ∧ String.get (2 * i + 1) masked = Some " "%char.
Proof.
  intros Hs Hd Hg Hw masked.
  assert (Hm : masked = Js.replaceEachChar (Game.currentWord g)).
  { unfold masked. rewrite getPublicState_currentWord, Hd, Hg.
    by rewrite bool_decide_true. }
  rewrite Hm. split; [reflexivity|]. split.
  - by apply replaceEachChar_length.
  - intros i Hi. by apply replaceEachChar_get.
Qed.

Lemma C5_masked_view_witness :
  Game.currentWord (getPublicState iceCreamRoom "B") = "_ _ _ _ _ _ _ _ _ "
  ∧ String.length (Game.currentWord (getPublicState iceCreamRoom "B")) = 18%nat.
Proof.
  destruct (C5_masked_view iceCreamRoom "B" eq_refl eq_refl eq_refl eq_refl)
    as (H1 & H2 & _).
  split; [exact H1 | exact H2].
Defined.

(** ** What goes out *)

Lemma emitAll_encodable (es : list Emit) :
  Forall (λ e, encodable (payload e) = true) es → emitAll es = (es, None).
Proof.
  induction 1 as [|e es He _ IH]; [done|]. cbn [emitAll]. by rewrite He, IH.
Qed.

Lemma emitAll_app (a b : list Emit) :
  emitAll (a ++ b)
  = match emitAll a with
    | (sa, None) => let '(sb, err) := emitAll b in (sa ++ sb, err)
    | (sa, Some err) => (sa, Some err)
    end.
Proof.
  induction a as [|e a IH]; cbn [app emitAll]; [by destruct (emitAll b)|].
  destruct (encodable (payload e)); [|done]. rewrite IH.
  destruct (emitAll a) as [sa [err|]]; [done|]. by destruct (emitAll b).
Qed.

(** What went out is the run of calls up to the first that threw, and the
    only exception is the encoder's. *)
Lemma emitAll_spec (es : list Emit) :
  Forall (λ e, encodable (payload e) = true) (emitAll es).1
  ∧ match (emitAll es).2 with
    | None => (emitAll es).1 = es
    | Some err =>
        err = RangeError
        ∧ ∃ e rest, es = (emitAll es).1 ++ e :: rest ∧ encodable (payload e) = false
    end.
Proof.
  induction es as [|e es [IH1 IH2]]; cbn [emitAll]; [by split|].
  destruct (encodable (payload e)) eqn:He.
  - destruct (emitAll es) as [sent [err|]]; cbn [fst snd] in *.
    + split; [by apply Forall_cons|]. destruct IH2 as (-> & e' & rest & -> & He').
      split; [done|]. by exists e', rest.
    + split; [by apply Forall_cons|]. by rewrite IH2.
  - cbn. split; [done|]. split; [done|]. by exists e, es.
Qed.

Lemma emitAll_sent_in (es : list Emit) (e : Emit) : e ∈ (emitAll es).1 → e ∈ es.
Proof.
  destruct (emitAll_spec es) as [_ H]. destruct (emitAll es) as [sent [err|]];
    cbn [fst snd] in *.
  - destruct H as (_ & e' & rest & -> & _). intros Hin. apply elem_of_app. by left.
  - by rewrite H.
Qed.

Lemma emitAll_error (es : list Emit) (err : Error) :
  (emitAll es).2 = Some err → err = RangeError.
Proof.
  destruct (emitAll_spec es) as [_ H]. intros E. rewrite E in H. by destruct H.
Qed.

(** A view carries the player objects of the room. *)
Lemma getPublicState_players (g : Game.t) (pid : string) :
  Game.players (getPublicState g pid) = Game.players g.
Proof. reflexivity. Qed.

Lemma pending_true (ps : list Player.t) :
  pending ps = true ↔ ∃ p, p ∈ ps ∧ Player.disconnectTimeout p = true.
Proof.
  unfold pending. rewrite existsb_exists. split.
  - intros (p & Hp%list_elem_of_In & Ht). eauto.
  - intros (p & Hp%list_elem_of_In & Ht). eauto.
Qed.

Lemma pending_false (ps : list Player.t) :
  pending ps = false ↔ Forall (λ p, Player.disconnectTimeout p = false) ps.
Proof.
  unfold pending. induction ps as [|p ps IH]; cbn; [done|].
  rewrite orb_false_iff, Forall_cons. tauto.
Qed.

Lemma pending_fmap (f : Player.t → Player.t) (ps : list Player.t) :
  (∀ p, Player.disconnectTimeout (f p) = Player.disconnectTimeout p) →
  pending (f <$> ps) = pending ps.
Proof.
  intros Hf. unfold pending. induction ps as [|p ps IH]; [done|].
  cbn. by rewrite Hf, IH.
Qed.

(** The per-player loop: with a removal pending its first [emit] throws,
    with none every view goes out. *)
Lemma emitAll_broadcast (g : Game.t) :
  emitAll (broadcast g)
  = if pending (Game.players g) then ([], Some RangeError) else (broadcast g, None).
Proof.
  destruct (pending (Game.players g)) eqn:Hp.
  - unfold broadcast. destruct (Game.players g) as [|p ps] eqn:E; [done|].
    cbn [fmap list_fmap emitAll payload encodable].
    by rewrite getPublicState_players, E, Hp.
  - apply emitAll_encodable. unfold broadcast. apply Forall_fmap, Forall_forall.
    intros p _. unfold compose. cbn [payload encodable].
    by rewrite getPublicState_players, Hp.
Qed.

Lemma broadcast_set_timer (t : option Timer) (g : Game.t) :
  broadcast (Game.set_timer t g) = broadcast g.
Proof. reflexivity. Qed.

(** C1, evaluated on the worked session. [B] sends the correct guess [cat].
    The handler emits [getPublicState(game, socket.id)], the view of [B],
    who has just been flagged guessed, to the whole room: [C], who is
    neither the drawer nor flagged guessed, is handed a game state whose
    [currentWord] is the literal [cat]. On the same room-wide emission of
    ['join-room'], when a newcomer [D] joins during the round, the drawer
    [A] is handed the masked word. *)
Theorem C1_room_wide_view_reaches_every_member :
  (∃ srv' es g',
      chat_message [] "B" (mkChat "r1" "bob" "cat") drawingServer = (srv', es, None)
      ∧ games srv' !! "r1" = Some g'
      ∧ Game.status g' = DRAWING
      ∧ Game.currentWord g' = "cat"
      ∧ notDrawer g' "C" = true
      ∧ notGuessed g' "C" = true
      ∧ ∃ v, GameUpdate v ∈ delivered srv' "C" es ∧ Game.currentWord v = "cat")
  ∧ (∃ srv' es g' v,
      join_room "D" "r1" "dave" None "" drawingServer = (srv', es, None)
      ∧ games srv' !! "r1" = Some g'
      ∧ Game.status g' = DRAWING
      ∧ isDrawer g' "A" = true
      ∧ GameUpdate v ∈ delivered srv' "A" es
      ∧ Game.currentWord v = "_ _ _ ").
Proof.
  split.
  - eexists _, _, _.
    split; [vm_compute; reflexivity|].
    split; [vm_compute; reflexivity|].
    repeat (split; [reflexivity|]).
    eexists. split.
    + apply list_elem_of_In. vm_compute. right. left. reflexivity.
    + reflexivity.
  - eexists _, _, _, _.
    split; [vm_compute; reflexivity|].
    split; [vm_compute; reflexivity|].
    repeat (split; [reflexivity|]).
    split.
    + apply list_elem_of_In. vm_compute. left. reflexivity.
    + reflexivity.
Qed.


(** ** Turn rotation, field by field *)

(** Reading a field of a room after a chain of field writes. *)
Ltac game_fields :=
  cbn [Game.roomId Game.status Game.players Game.drawerIndex Game.currentWord
       Game.wordOptions Game.maxRounds Game.currentRound Game.drawTime
       Game.timeLeft Game.timer Game.hostId
       Game.set_status Game.set_players Game.set_drawerIndex Game.set_currentWord
       Game.set_wordOptions Game.set_maxRounds Game.set_currentRound
       Game.set_drawTime Game.set_timeLeft Game.set_timer Game.set_hostId].

(** The cases of [nextTurn]: the game ends or goes on, and the packets went
    out or the encoder threw. *)
Ltac nextTurn_cases :=
  unfold nextTurn; cbv zeta;
  destruct (Game.maxRounds _ <? _) eqn:?;
  [destruct (emitAll _) as [? ?] | destruct (emitAll _) as [? [?|]]];
  cbn [fst snd].

Ltac startRound_cases :=
  unfold startRound; cbv zeta; destruct (emitAll _) as [? [?|]]; cbn [fst snd].

Lemma nextTurn_status (opts : list string) (roomId : string) (g : Game.t) :
  Game.status (nextTurn opts roomId g).1.1 = ENDED
  ∨ Game.status (nextTurn opts roomId g).1.1 = SELECTING.
Proof. nextTurn_cases; cbn; auto. Qed.

(** [nextTurn] changes nothing of a player but the guessed flag. *)
Lemma nextTurn_players_fmap {A : Type} (f : Player.t → A) (opts : list string)
    (roomId : string) (g : Game.t) :
  (∀ p, f (Player.set_guessed false p) = f p) →
  f <$> Game.players (nextTurn opts roomId g).1.1 = f <$> Game.players g.
Proof.
  intros Hf. nextTurn_cases; cbn; repeat case_match; cbn; try done;
    rewrite <- list_fmap_compose; apply list_fmap_ext; intros; by cbn.
Qed.

(** [nextTurn] leaves every score as it is. *)
Lemma nextTurn_scores (opts : list string) (roomId : string) (g : Game.t) :
  Player.score <$> Game.players (nextTurn opts roomId g).1.1
  = Player.score <$> Game.players g.
Proof. by apply nextTurn_players_fmap. Qed.

Lemma nextTurn_hostId (opts : list string) (roomId : string) (g : Game.t) :
  Game.hostId (nextTurn opts roomId g).1.1 = Game.hostId g.
Proof. nextTurn_cases; cbn; by repeat case_match. Qed.

Lemma pending_same (ps1 ps2 : list Player.t) :
  Player.disconnectTimeout <$> ps1 = Player.disconnectTimeout <$> ps2 →
  pending ps1 = pending ps2.
Proof.
  revert ps2. induction ps1 as [|p ps1 IH]; intros [|q ps2] E; try discriminate;
    [done|].
  injection E as Ep E. unfold pending. cbn. rewrite Ep. f_equal. by apply IH.
Qed.

Lemma nextTurn_pending_same (opts : list string) (roomId : string) (g : Game.t) :
  pending (Game.players (nextTurn opts roomId g).1.1) = pending (Game.players g).
Proof. apply pending_same. by apply nextTurn_players_fmap. Qed.

(** What one [nextTurn] call does to the counters. *)
Lemma nextTurn_counters (opts : list string) (roomId : string) (g : Game.t) :
  let g' := (nextTurn opts roomId g).1.1 in
  length (Game.players g') = length (Game.players g)
  ∧ Game.drawerIndex g' = (if wraps g then 0 else Game.drawerIndex g + 1)
  ∧ Game.currentRound g'
    = (if wraps g then Game.currentRound g + 1 else Game.currentRound g).
Proof.
  unfold wraps. nextTurn_cases; game_fields;
    destruct (Z.of_nat (length (Game.players g)) <=? Game.drawerIndex g + 1);
    game_fields; rewrite ?length_fmap; done.
Qed.

(** [nextTurn] in two steps: the room [g0] it has written when it comes to
    its game updates, and what becomes of them. *)
Lemma nextTurn_shape (opts : list string) (roomId : string) (g : Game.t) :
  ∃ g0 : Game.t,
    Game.timer g0 = None
    ∧ (Game.status g0 = ENDED ∨ Game.status g0 = SELECTING)
    ∧ pending (Game.players g0) = pending (Game.players g)
    ∧ nextTurn opts roomId g
      = if bool_decide (Game.status g0 = ENDED) then
          let '(sent, err) :=
            emitAll (mkEmit (IoTo roomId) Clear :: broadcast g0
                       ++ [mkEmit (IoTo roomId) (GameEnded (Game.players g0))]) in
          (g0, sent, err)
        else
          match emitAll (mkEmit (IoTo roomId) Clear :: broadcast g0) with
          | (sent, None) => (Game.set_timer (Some SelectionTimer) g0, sent, None)
          | (sent, Some err) => (g0, sent, Some err)
          end.
Proof.
  unfold nextTurn. cbv zeta.
  set (g1 := if _ <=? _ then _ else _).
  assert (H1 : Game.players g1 = Game.players g ∧ Game.timer g1 = None)
    by (unfold g1; by destruct (_ <=? _)).
  destruct H1 as [Hp1 Ht1].
  destruct (Game.maxRounds g1 <? Game.currentRound g1).
  - exists (Game.set_status ENDED g1).
    split; [exact Ht1|]. split; [by left|].
    split; [cbn [Game.players Game.set_status]; by rewrite Hp1|].
    by rewrite bool_decide_true.
  - exists (Game.set_players (Player.set_guessed false <$> Game.players g1)
              (Game.set_timeLeft 15
                 (Game.set_currentWord ""
                    (Game.set_wordOptions opts (Game.set_status SELECTING g1))))).
    split; [exact Ht1|]. split; [by right|]. split.
    + cbn [Game.players Game.set_players].
      rewrite (pending_fmap (Player.set_guessed false)) by done. by rewrite Hp1.
    + rewrite bool_decide_false by done. reflexivity.
Qed.

(** With no removal pending [nextTurn] returns: the canvas clear, one view
    per player and, at the end of the game, the final list have gone out,
    and the selection countdown runs unless the game is over. *)
Lemma nextTurn_quiet (opts : list string) (roomId : string) (g : Game.t) :
  pending (Game.players g) = false →
  let g' := (nextTurn opts roomId g).1.1 in
  (nextTurn opts roomId g).2 = None
  ∧ (nextTurn opts roomId g).1.2
    = mkEmit (IoTo roomId) Clear :: broadcast g'
        ++ (if bool_decide (Game.status g' = ENDED)
            then [mkEmit (IoTo roomId) (GameEnded (Game.players g'))] else [])
  ∧ Game.timer g' = timerOf (Game.status g').
Proof.
  intros Hp. destruct (nextTurn_shape opts roomId g) as (g0 & Ht & Hs & Hp0 & ->).
  rewrite Hp in Hp0.
  assert (Hb : Forall (λ e, encodable (payload e) = true) (broadcast g0)).
  { apply Forall_forall. intros e (p & -> & _)%list_elem_of_fmap.
    cbn [payload encodable]. by rewrite getPublicState_players, Hp0. }
  destruct Hs as [Hs|Hs]; rewrite Hs.
  - rewrite bool_decide_true by done.
    rewrite emitAll_encodable.
    + cbn [fst snd]. rewrite Hs, bool_decide_true by done. by rewrite Ht.
    + apply Forall_cons. split; [done|]. apply Forall_app. split; [done|].
      apply Forall_singleton. cbn. by rewrite Hp0.
  - rewrite bool_decide_false by done.
    rewrite emitAll_encodable by (by apply Forall_cons).
    cbn [fst snd Game.status Game.set_timer]. rewrite Hs.
    rewrite bool_decide_false by done. by rewrite app_nil_r.
Qed.

(** With a removal pending [nextTurn] throws at its first game update: the
    canvas clear is all that went out, and no countdown is started. *)
Lemma nextTurn_pending (opts : list string) (roomId : string) (g : Game.t) :
  pending (Game.players g) = true →
  (nextTurn opts roomId g).2 = Some RangeError
  ∧ (nextTurn opts roomId g).1.2 = [mkEmit (IoTo roomId) Clear]
  ∧ Game.timer (nextTurn opts roomId g).1.1 = None.
Proof.
  intros Hp. destruct (nextTurn_shape opts roomId g) as (g0 & Ht & Hs & Hp0 & ->).
  rewrite Hp in Hp0.
  assert (He : ∀ tl, emitAll (mkEmit (IoTo roomId) Clear :: broadcast g0 ++ tl)
                     = ([mkEmit (IoTo roomId) Clear], Some RangeError)).
  { intros tl. cbn [emitAll payload encodable].
    by rewrite emitAll_app, emitAll_broadcast, Hp0. }
  destruct Hs as [Hs|Hs]; rewrite Hs.
  - rewrite bool_decide_true by done. by rewrite He.
  - rewrite bool_decide_false by done.
    rewrite <- (app_nil_r (broadcast g0)), He. done.
Qed.

(** Either way the only exception of [nextTurn] is the encoder's. *)
Lemma nextTurn_thrown (opts : list string) (roomId : string) (g : Game.t) :
  (nextTurn opts roomId g).2
  = if pending (Game.players g) then Some RangeError else None.
Proof.
  destruct (pending (Game.players g)) eqn:Hp.
  - by destruct (nextTurn_pending opts roomId g Hp).
  - by destruct (nextTurn_quiet opts roomId g Hp).
Qed.

(** ** Starting the round, field by field *)

Lemma startRound_fields (roomId word : string) (g : Game.t) :
  Game.status (startRound roomId word g).1.1 = DRAWING
  ∧ Game.currentWord (startRound roomId word g).1.1 = word
  ∧ Game.wordOptions (startRound roomId word g).1.1 = []
  ∧ Game.timeLeft (startRound roomId word g).1.1 = Game.drawTime g
  ∧ Game.players (startRound roomId word g).1.1 = Game.players g
  ∧ Game.drawerIndex (startRound roomId word g).1.1 = Game.drawerIndex g.
Proof. startRound_cases; by repeat split. Qed.

(** With no removal pending [startRound] returns with the round countdown
    running, one view per player and the notice sent; with one pending it
    throws at its first game update and starts no countdown. *)
Lemma startRound_quiet (roomId word : string) (g : Game.t) :
  pending (Game.players g) = false →
  let g' := (startRound roomId word g).1.1 in
  (startRound roomId word g).2 = None
  ∧ (startRound roomId word g).1.2
    = broadcast g' ++ [mkEmit (IoTo roomId) (SystemMessage DrawerSelected)]
  ∧ Game.timer g' = Some RoundTimer.
Proof.
  intros Hp. unfold startRound. cbv zeta. rewrite emitAll_encodable; [done|].
  apply Forall_app. split; [|by apply Forall_singleton].
  apply Forall_forall. intros e (p & -> & _)%list_elem_of_fmap.
  cbn [payload encodable]. rewrite getPublicState_players. game_fields.
  by rewrite Hp.
Qed.

Lemma startRound_pending (roomId word : string) (g : Game.t) :
  pending (Game.players g) = true →
  (startRound roomId word g).2 = Some RangeError
  ∧ (startRound roomId word g).1.2 = []
  ∧ Game.timer (startRound roomId word g).1.1 = None.
Proof.
  intros Hp. unfold startRound. cbv zeta.
  rewrite emitAll_app, emitAll_broadcast. game_fields. by rewrite Hp.
Qed.

Lemma startRound_thrown (roomId word : string) (g : Game.t) :
  (startRound roomId word g).2
  = if pending (Game.players g) then Some RangeError else None.
Proof.
  destruct (pending (Game.players g)) eqn:Hp.
  - by destruct (startRound_pending roomId word g Hp).
  - by destruct (startRound_quiet roomId word g Hp).
Qed.


(** ** Sequences of events *)

Lemma run_reachable (evs : list Event) :
  ∀ srv srv', Reachable srv → run evs srv = Some srv' → Reachable srv'.
Proof.
  induction evs as [|ev rest IH]; intros srv srv' Hr; cbn [run].
  - by intros [= <-].
  - destruct (step ev srv) as [s|] eqn:Hs; [|done]. cbn.
    apply IH. by eapply reach_step.
Qed.

Lemma run_app (evs1 evs2 : list Event) (srv : Server) :
  run (evs1 ++ evs2) srv = run evs1 srv ≫= run evs2.
Proof.
  revert srv. induction evs1 as [|ev evs1 IH]; intros srv; [done|].
  cbn [app run]. destruct (step ev srv); [apply IH|done].
Qed.

Lemma drawingServer_reachable : Reachable drawingServer.
Proof.
  apply (run_reachable [JoinRoom "A" "r1" "alice" sessionConfig "";
                        JoinRoom "B" "r1" "bob" None "";
                        JoinRoom "C" "r1" "carol" None "";
                        StartGame ["cat"; "dog"; "owl"] "A" "r1" sessionConfig;
                        SelectWord "A" "r1" "cat"] emptyServer);
    [apply reach_empty|reflexivity].
Qed.

Lemma pendingServer_run : run pendingTrace emptyServer = Some pendingServer.
Proof. vm_compute. reflexivity. Qed.

Lemma pendingServer_reachable : Reachable pendingServer.
Proof. exact (run_reachable _ _ _ reach_empty pendingServer_run). Qed.

Lemma noDrawerServer_run : run noDrawerTrace emptyServer = Some noDrawerServer.
Proof. vm_compute. reflexivity. Qed.

Lemma noDrawerServer_reachable : Reachable noDrawerServer.
Proof. exact (run_reachable _ _ _ reach_empty noDrawerServer_run). Qed.

Lemma noDrawerServer_room :
  games noDrawerServer !! "r1"
  = Some (Game.mk "r1" SELECTING
            [Player.mk "A" "alice" defaultAvatar 600 false false false;
             Player.mk "B" "bob" defaultAvatar 600 false false false]
            2 "" ["pen"; "ink"; "cup"] 2 1 60 1 (Some SelectionTimer) "A").
Proof. vm_compute. reflexivity. Qed.

Lemma noDrawerRoundServer_run :
  run (noDrawerTrace ++ [Tick [] "r1"]) emptyServer = Some noDrawerRoundServer.
Proof. vm_compute. reflexivity. Qed.

Lemma noDrawerRoundServer_reachable : Reachable noDrawerRoundServer.
Proof. exact (run_reachable _ _ _ reach_empty noDrawerRoundServer_run). Qed.

(** ** Guess evaluation *)

Lemma drawerOf_Some (g : Game.t) (d : Player.t) :
  drawerOf g = Some d →
  0 ≤ Game.drawerIndex g
  ∧ Game.players g !! Z.to_nat (Game.drawerIndex g) = Some d.
Proof.
  unfold drawerOf, playerAt.
  destruct (Z.ltb_spec (Game.drawerIndex g) 0); [discriminate|]. by split.
Qed.

Lemma drawerOf_set_players (ps : list Player.t) (g : Game.t) (d : Player.t) :
  0 ≤ Game.drawerIndex g →
  ps !! Z.to_nat (Game.drawerIndex g) = Some d →
  drawerOf (Game.set_players ps g) = Some d.
Proof.
  intros H0 Hd. unfold drawerOf, playerAt. cbn.
  destruct (Z.ltb_spec (Game.drawerIndex g) 0); [lia|done].
Qed.

(** [find] and [findIndex] by id only look at the ids. *)
Lemma findById_same_ids (sid : string) (l1 l2 : list Player.t) :
  Player.id <$> l1 = Player.id <$> l2 →
  fst <$> findById sid l1 = fst <$> findById sid l2.
Proof.
  unfold findById. revert l2.
  induction l1 as [|x l1 IH]; intros [|y l2] Hids; try discriminate; [done|].
  injection Hids as Hxy Hids. cbn. rewrite Hxy.
  destruct (decide (Player.id y = sid)); [done|].
  specialize (IH l2 Hids).
  destruct (list_find _ l1) as [[? ?]|], (list_find _ l2) as [[? ?]|];
    cbn in *; congruence.
Qed.

Lemma findById_lookup (sid : string) (ps : list Player.t) (i : nat) (p : Player.t) :
  findById sid ps = Some (i, p) → ps !! i = Some p ∧ Player.id p = sid.
Proof. intros (? & ? & _)%list_find_Some. by split. Qed.

Lemma ids_insert (ps : list Player.t) (i : nat) (p p' : Player.t) :
  ps !! i = Some p → Player.id p' = Player.id p →
  Player.id <$> <[i := p']> ps = Player.id <$> ps.
Proof.
  intros Hi Hid. rewrite list_fmap_insert, Hid.
  apply list_insert_id. by rewrite list_lookup_fmap, Hi.
Qed.

(** The two writes of an accepted guess, spelled out. *)
Lemma scoreGuess_players (i : nat) (player drawer : Player.t) (game : Game.t) :
  Game.players game !! i = Some player →
  drawerOf game = Some drawer →
  Player.id player ≠ Player.id drawer →
  let d := Z.to_nat (Game.drawerIndex game) in
  let points := guessPoints (Game.timeLeft game) (Game.drawTime game) in
  i ≠ d
  ∧ scoreGuess i player game
    = Game.set_players
        (<[d := Player.set_score (Player.score drawer + 50) drawer]>
           (<[i := Player.set_score (Player.score player + points)
                     (Player.set_guessed true player)]> (Game.players game)))
        game.
Proof.
  intros Hi Hd Hne d points.
  destruct (drawerOf_Some _ _ Hd) as [H0 Hl].
  assert (Hid : i ≠ d) by (intros ->; unfold d in Hi; congruence).
  split; [exact Hid|].
  unfold scoreGuess.
  rewrite (drawerOf_set_players _ _ drawer); [reflexivity|exact H0|].
  by rewrite list_lookup_insert_ne.
Qed.


Lemma scoreGuess_pending (i : nat) (player : Player.t) (game : Game.t) :
  Game.players game !! i = Some player →
  pending (Game.players (scoreGuess i player game)) = pending (Game.players game).
Proof.
  intros Hi. apply pending_same. unfold scoreGuess.
  set (g := Game.set_players _ game).
  assert (Hg : Player.disconnectTimeout <$> Game.players g
               = Player.disconnectTimeout <$> Game.players game).
  { unfold g. cbn [Game.players Game.set_players]. rewrite list_fmap_insert.
    apply list_insert_id. by rewrite list_lookup_fmap, Hi. }
  destruct (drawerOf g) as [d|] eqn:Hd; [|exact Hg].
  destruct (drawerOf_Some _ _ Hd) as [_ Hl].
  cbn [Game.players Game.set_players]. rewrite list_fmap_insert, <- Hg.
  apply list_insert_id. by rewrite list_lookup_fmap, Hl.
Qed.

(** [guessers.every(p => p.guessed)], said of the players. *)
Lemma everyGuessed_guessersOf (drawerId : string) (g : Game.t) :
  everyGuessed (guessersOf drawerId g) = true
  ↔ ∀ p, p ∈ Game.players g → Player.id p ≠ drawerId → Player.guessed p = true.
Proof.
  unfold everyGuessed, guessersOf. rewrite forallb_forall. split.
  - intros H p Hp Hne. apply H, list_elem_of_In, list_elem_of_filter. by split.
  - intros H p [Hne Hp]%list_elem_of_In%list_elem_of_filter. by apply H.
Qed.

(** A chat message from a player already flagged guessed, or in a room not
    in DRAWING phase, is only echoed. *)
Lemma chat_message_echo (opts : list string) (sid : string) (data : ChatData)
    (srv : Server) (game : Game.t) :
  games srv !! chatRoomId data = Some game →
  (Game.status game ≠ DRAWING
   ∨ ∃ i p, findById sid (Game.players game) = Some (i, p) ∧ Player.guessed p = true) →
  chat_message opts sid data srv
  = (srv, [mkEmit (IoTo (chatRoomId data)) (ChatMessage data)], None).
Proof.
  intros Hg H. unfold chat_message. rewrite Hg.
  destruct H as [Hs | (i & p & Hf & Hp)].
  - by rewrite bool_decide_false.
  - rewrite Hf, Hp. by case_match.
Qed.

(** An accepted guess, by whether a removal is pending in the room: with
    one pending the handler has written the scores and sent the two notices
    when its first game update throws; with none it sends the updates and,
    when every other player than the drawer is flagged guessed, goes on
    with [nextTurn]. *)
Lemma chat_message_accepted (opts : list string) (sid : string) (data : ChatData)
    (srv : Server) (game : Game.t) (i : nat) (player drawer : Player.t) :
  games srv !! chatRoomId data = Some game →
  Game.status game = DRAWING →
  isCorrectGuess (chatText data) (Game.currentWord game) = true →
  findById sid (Game.players game) = Some (i, player) →
  Player.guessed player = false →
  drawerOf game = Some drawer →
  Player.id player ≠ Player.id drawer →
  let roomId := chatRoomId data in
  let g1 := scoreGuess i player game in
  let notices :=
    [mkEmit (SocketTo sid roomId) (SystemMessage (GuessedTheWord (chatUser data)));
     mkEmit (SocketEmit sid)
       (SystemMessage (YouGuessed (guessPoints (Game.timeLeft game)
                                     (Game.drawTime game))))] in
  chat_message opts sid data srv
  = if pending (Game.players game) then
      (setGame roomId g1 srv, notices, Some RangeError)
    else if everyGuessed (guessersOf (Player.id drawer) g1) then
      (setGame roomId (nextTurn opts roomId g1).1.1 srv,
       notices ++ mkEmit (IoTo roomId) (GameUpdate (getPublicState g1 sid))
         :: broadcast g1
         ++ mkEmit (IoTo roomId) (SystemMessage EveryoneGuessed)
         :: (nextTurn opts roomId g1).1.2,
       None)
    else
      (setGame roomId g1 srv,
       notices ++ mkEmit (IoTo roomId) (GameUpdate (getPublicState g1 sid))
         :: broadcast g1,
       None).
Proof.
  intros Hg Hs Hc Hf Hng Hd Hne roomId g1 notices.
  destruct (findById_lookup _ _ _ _ Hf) as [Hi _].
  pose proof (scoreGuess_pending i player game Hi) as Hp1. fold g1 in Hp1.
  unfold chat_message. fold roomId. unfold roomId at 1.
  rewrite Hg, Hs, Hc, Hf, Hng, Hd.
  rewrite bool_decide_true by done. cbn [andb].
  rewrite decide_False by done. fold g1.
  rewrite emitAll_app. cbn [emitAll payload encodable].
  rewrite getPublicState_players, Hp1.
  destruct (pending (Game.players game)) eqn:Hp; cbn [negb]; [done|].
  rewrite emitAll_broadcast, Hp1.
  destruct (everyGuessed _); [|done].
  pose proof (nextTurn_quiet opts roomId g1 Hp1) as (Hn & _).
  destruct (nextTurn opts roomId g1) as [[g' e2] err]. cbn [fst snd] in *.
  subst err. rewrite <- app_assoc. reflexivity.
Qed.

(** C2, evaluated on two rooms the server can reach. In the worked session
    [C] has guessed the word and then closed the connection, so the removal
    of [C] is pending; now [B] sends the word. [B] is flagged and credited
    500 points, the drawer [A] 50, and as every player but the drawer is
    then flagged guessed the turn should pass: but the first game update of
    the handler throws in the encoder, [nextTurn] is not called, the room
    stays in DRAWING with [A] drawing, and the two notices are all that was
    sent. In the room of [noDrawerRoundServer] a round is on with nobody at
    [drawerIndex]: the right word from [A], who is not the drawer and not
    flagged guessed, throws a [TypeError] and changes nothing. *)
Theorem C2_guess_does_not_pass_the_turn :
  (Reachable pendingServer
   ∧ ∃ srv' g',
       chat_message ["sun"; "pen"; "bed"] "B" (mkChat "r1" "bob" "cat") pendingServer
       = (srv',
          [mkEmit (SocketTo "B" "r1") (SystemMessage (GuessedTheWord "bob"));
           mkEmit (SocketEmit "B") (SystemMessage (YouGuessed 500))],
          Some RangeError)
       ∧ games srv' !! "r1" = Some g'
       ∧ (λ p, (Player.id p, Player.score p, Player.guessed p)) <$> Game.players g'
         = [("A", 100, false); ("B", 500, true); ("C", 500, true)]
       ∧ Game.status g' = DRAWING
       ∧ Game.drawerIndex g' = 0
       ∧ Game.currentRound g' = 1)
  ∧ (Reachable noDrawerRoundServer
     ∧ ∃ g,
         games noDrawerRoundServer !! "r1" = Some g
         ∧ Game.status g = DRAWING
         ∧ Game.currentWord g = "pen"
         ∧ drawerOf g = None
         ∧ (λ p, (Player.id p, Player.guessed p)) <$> Game.players g
           = [("A", false); ("B", false)]
         ∧ chat_message [] "A" (mkChat "r1" "alice" "pen") noDrawerRoundServer
           = (noDrawerRoundServer, [], Some TypeError)).
Proof.
  split; split.
  - exact pendingServer_reachable.
  - eexists _, _. split; [vm_compute; reflexivity|].
    split; [vm_compute; reflexivity|]. by repeat split.
  - exact noDrawerRoundServer_reachable.
  - eexists. split; [vm_compute; reflexivity|].
    repeat (split; [reflexivity|]).
    vm_compute. reflexivity.
Qed.

(** An emission made with [socket.emit] is handed to the sender alone. *)
Lemma delivered_socket_emit (srv : Server) (conn sid : string) (p : Payload) :
  delivered srv conn [mkEmit (SocketEmit sid) p]
  = if decide (conn = sid) then [p] else [].
Proof.
  unfold delivered. rewrite filter_cons, filter_nil.
  cbn [receives target]. destruct (decide (conn = sid)) as [Heq|Hne].
  - by rewrite bool_decide_true, decide_True.
  - by rewrite bool_decide_false, decide_False.
Qed.

(** ** Starting a game *)

(** C3, as stated, does not hold: ['start-game'] is not refused outside the
    LOBBY phase. In the worked session's room, which is in DRAWING phase,
    it restarts the game. *)
Lemma C3_start_accepted_outside_lobby :
  ¬ (∀ (opts : list string) (sid roomId : string) (config : option Config)
       (srv : Server) (game : Game.t),
       games srv !! roomId = Some game →
       Game.status game ≠ LOBBY →
       (start_game opts sid roomId config srv).1.1 = srv).
Proof.
  intros H.
  specialize (H ["sun"; "pen"; "bed"] "A" "r1" None drawingServer drawingRoom
                drawingServer_room ltac:(discriminate)).
  assert (Hs : Game.status
                 <$> games (start_game ["sun"; "pen"; "bed"] "A" "r1" None
                              drawingServer).1.1 !! "r1"
               = Some SELECTING) by (vm_compute; reflexivity).
  rewrite H, drawingServer_room in Hs. discriminate Hs.
Qed.

(** C3 (amended): for an existing room, ['start-game'] is accepted in any
    phase as soon as the room has at least 2 players. It then takes the
    supplied [rounds] and [drawTime] (keeping the room's when absent), sets
    [currentRound] to 1, every player's score to 0 and guessed flag to
    false, [drawerIndex] to -1, and calls [nextTurn] at once. With fewer
    than 2 players the server state is unchanged and the only emission is
    a notice to the sender. *)
Theorem C3_start_game (opts : list string) (sid roomId : string)
    (config : option Config) (srv : Server) (game : Game.t) :
  games srv !! roomId = Some game →
  ((2 ≤ length (Game.players game))%nat →
   ∃ g0 : Game.t,
     g0 = Game.mk (Game.roomId game) (Game.status game)
            ((λ p, Player.mk (Player.id p) (Player.name p) (Player.avatar p) 0 false
                     (Player.disconnected p) (Player.disconnectTimeout p))
               <$> Game.players game)
            (-1) (Game.currentWord game) (Game.wordOptions game)
            (Js.orNum (configRounds config) (Game.maxRounds game)) 1
            (Js.orNum (configDrawTime config) (Game.drawTime game))
            (Game.timeLeft game) (Game.timer game) (Game.hostId game)
     ∧ start_game opts sid roomId config srv
       = (setGame roomId (nextTurn opts roomId g0).1.1 srv,
          (nextTurn opts roomId g0).1.2,
          (nextTurn opts roomId g0).2))
  ∧ ((length (Game.players game) < 2)%nat →
     start_game opts sid roomId config srv
     = (srv, [mkEmit (SocketEmit sid) (SystemMessage NeedTwoPlayers)], None)
     ∧ ∀ other : string,
         other ≠ sid →
         delivered srv other (start_game opts sid roomId config srv).1.2 = []).
Proof.
  intros Hg. split.
  - intros Hn. eexists. split; [reflexivity|].
    unfold start_game. rewrite Hg.
    destruct (Nat.ltb_spec (length (Game.players game)) 2) as [|_]; [lia|].
    cbn -[nextTurn]. by destruct (nextTurn _ _ _) as [[? ?] ?].
  - intros Hn.
    assert (Hrun : start_game opts sid roomId config srv
                   = (srv, [mkEmit (SocketEmit sid) (SystemMessage NeedTwoPlayers)],
                      None)).
    { unfold start_game. rewrite Hg.
      by destruct (Nat.ltb_spec (length (Game.players game)) 2) as [_|]; [|lia]. }
    split; [exact Hrun|].
    intros other Hne. rewrite Hrun. cbn [fst snd].
    by rewrite delivered_socket_emit, decide_False.
Qed.

Lemma C3_start_game_witness :
  Game.status lobbyRoom = LOBBY
  ∧ (λ g, (Game.status g, Game.currentRound g, Game.drawerIndex g,
           Player.score <$> Game.players g))
      <$> games (start_game ["cat"; "dog"; "owl"] "A" "r1" None lobbyServer).1.1 !! "r1"
    = Some (SELECTING, 1, 0, [0; 0; 0]).
Proof.
  split; [reflexivity|].
  destruct (C3_start_game ["cat"; "dog"; "owl"] "A" "r1" None lobbyServer lobbyRoom
              lobbyServer_room) as [Hacc _].
  destruct Hacc as (g0 & Hg0 & Hrun); [cbn; lia|].
  rewrite Hrun, Hg0. cbn [fst setGame games]. rewrite lookup_insert_eq.
  reflexivity.
Defined.

(** ** Selecting the word *)

(** C10: in a room in SELECTING phase, a ['select-word'] message from the
    current drawer starts the round with whatever string [w] it carries:
    [currentWord] becomes [w] and the phase becomes DRAWING, with no
    condition on [w] being one of the offered [wordOptions]. *)
Theorem C10_select_word_unchecked (sid roomId w : string) (srv : Server)
    (game : Game.t) :
  games srv !! roomId = Some game →
  Game.status game = SELECTING →
  isDrawer game sid = true →
  ∃ g' es err,
    select_word sid roomId w srv = (setGame roomId g' srv, es, err)
    ∧ Game.status g' = DRAWING
    ∧ Game.currentWord g' = w
    ∧ Game.wordOptions g' = []
    ∧ Game.timeLeft g' = Game.drawTime game.
Proof.
  intros Hg _ Hd.
  exists (startRound roomId w game).1.1, (startRound roomId w game).1.2,
         (startRound roomId w game).2.
  split.
  - unfold select_word. rewrite Hg, Hd. by destruct (startRound _ _ _) as [[? ?] ?].
  - by destruct (startRound_fields roomId w game) as (? & ? & ? & ? & _).
Qed.

Lemma C10_select_word_unchecked_witness :
  Game.wordOptions selectingRoom = ["cat"; "dog"; "owl"]
  ∧ (λ g, (Game.status g, Game.currentWord g))
      <$> games (select_word "A" "r1" "zebra" selectingServer).1.1 !! "r1"
    = Some (DRAWING, "zebra").
Proof.
  split; [reflexivity|].
  destruct (C10_select_word_unchecked "A" "r1" "zebra" selectingServer selectingRoom
              selectingServer_room eq_refl eq_refl)
    as (g' & es & err & Hrun & Hst & Hw & _).
  rewrite Hrun. cbn [fst setGame games]. rewrite lookup_insert_eq.
  cbn. by rewrite Hst, Hw.
Defined.

(** ** Joining *)

(** C7, evaluated on a server without rooms: socket [X] joins the unknown
    room id [nope] with no [config]. The join is refused (the only emission
    is the join error to [X], no room is created), and yet the server state
    has changed: [socket.join(roomId)] ran before the room was looked up,
    so [X] is now a member of the channel [nope]. *)
Theorem C7_refused_join_still_subscribes :
  games emptyServer !! "nope" = None
  ∧ inRoom emptyServer "X" "nope" = false
  ∧ ∃ srv' es,
      join_room "X" "nope" "eve" None "" emptyServer = (srv', es, None)
      ∧ es = [mkEmit (SocketEmit "X") JoinError]
      ∧ games srv' !! "nope" = None
      ∧ inRoom srv' "X" "nope" = true
      ∧ srv' ≠ emptyServer.
Proof.
  split; [reflexivity|]. split; [reflexivity|].
  eexists _, _. split; [reflexivity|]. split; [reflexivity|].
  split; [reflexivity|].
  assert (Hin : inRoom (socketJoin "X" "nope" emptyServer) "X" "nope" = true)
    by (vm_compute; reflexivity).
  split; [exact Hin|].
  intros Heq. rewrite Heq in Hin. discriminate Hin.
Qed.

(** What ['join-room'] does hold to for a room id with no room, a name of
    [Object.prototype] apart: when a [config] is supplied a room is created
    in LOBBY phase, hosted by the joiner and with the joiner as its only
    player; when none is supplied the only emission is the join error,
    handed to the sender alone, no room is created and the [games]
    dictionary is unchanged. In both cases the sender's socket has been
    subscribed to the room id's channel. Under a name of [Object.prototype]
    the handler throws once it has subscribed the socket. *)
Lemma join_unknown_room (sid roomId username avatar : string)
    (config : option Config) (srv : Server) :
  games srv !! roomId = None →
  if inherited roomId then
    join_room sid roomId username config avatar srv
    = (socketJoin sid roomId srv, [], Some TypeError)
  else
    match config with
    | Some c =>
        join_room sid roomId username config avatar srv
        = (setGame roomId
             (Game.mk roomId LOBBY
                [Player.mk sid username (Js.orStr avatar defaultAvatar) 0 false false false]
                0 "" [] (Js.orNum (rounds c) 3) 1 (Js.orNum (drawTime c) 60) 0 None sid)
             (socketJoin sid roomId srv),
           [mkEmit (IoTo roomId)
              (GameUpdate
                 (Game.mk roomId LOBBY
                    [Player.mk sid username (Js.orStr avatar defaultAvatar) 0 false
                       false false]
                    0 "" [] (Js.orNum (rounds c) 3) 1 (Js.orNum (drawTime c) 60) 0 None
                    sid));
            mkEmit (IoTo sid)
              (GameUpdate
                 (Game.mk roomId LOBBY
                    [Player.mk sid username (Js.orStr avatar defaultAvatar) 0 false
                       false false]
                    0 "" [] (Js.orNum (rounds c) 3) 1 (Js.orNum (drawTime c) 60) 0 None
                    sid))],
           None)
    | None =>
        let '(srv', es, err) := join_room sid roomId username None avatar srv in
        err = None
        ∧ es = [mkEmit (SocketEmit sid) JoinError]
        ∧ delivered srv' sid es = [JoinError]
        ∧ (∀ other : string, other ≠ sid → delivered srv' other es = [])
        ∧ games srv' = games srv
        ∧ games srv' !! roomId = None
        ∧ srv' = socketJoin sid roomId srv
    end.
Proof.
  intros Hg. unfold join_room. cbn [socketJoin games]. rewrite Hg.
  destruct (inherited roomId); [done|]. destruct config as [c|].
  - unfold enterRoom, findExisting. reflexivity.
  - split; [reflexivity|]. split; [reflexivity|]. split.
    { by rewrite delivered_socket_emit, decide_True. }
    split.
    { intros other Hne. by rewrite delivered_socket_emit, decide_False. }
    by repeat split.
Qed.

Lemma join_unknown_room_example :
  (let '(srv', es, err) := join_room "X" "nope" "eve" None "" emptyServer in
   es = [mkEmit (SocketEmit "X") JoinError] ∧ games srv' = ∅)
  ∧ (Game.status <$> games lobbyServer !! "r1") = Some LOBBY
  ∧ join_room "X" "constructor" "eve" None "" emptyServer
    = (socketJoin "X" "constructor" emptyServer, [], Some TypeError).
Proof.
  split; [|split].
  - pose proof (join_unknown_room "X" "nope" "eve" "" None emptyServer eq_refl) as H.
    cbn beta iota in H.
    destruct (join_room "X" "nope" "eve" None "" emptyServer) as [[srv' es] err].
    destruct H as (_ & H1 & _ & _ & H2 & _). by split.
  - by rewrite lobbyServer_room.
  - exact (join_unknown_room "X" "constructor" "eve" "" None emptyServer eq_refl).
Qed.


(** ** Player removal *)

Lemma in_broadcast (g : Game.t) (p : Player.t) :
  p ∈ Game.players g →
  mkEmit (IoTo (Player.id p)) (GameUpdate (getPublicState g (Player.id p)))
    ∈ broadcast g.
Proof.
  intros Hp. unfold broadcast.
  apply (list_elem_of_fmap_2
           (λ p, mkEmit (IoTo (Player.id p))
                   (GameUpdate (getPublicState g (Player.id p))))).
  exact Hp.
Qed.

Lemma broadcast_payload (g : Game.t) (e : Emit) :
  e ∈ broadcast g → ∃ v, payload e = GameUpdate v.
Proof.
  unfold broadcast. intros (p & -> & _)%list_elem_of_fmap. cbn. eauto.
Qed.

(** [nextTurn] emits a canvas clear, one view per player and, when the game
    ends, the final player list: never a system message. *)
Lemma nextTurn_no_notice (opts : list string) (roomId : string) (g : Game.t)
    (t : Target) (n : Notice) :
  mkEmit t (SystemMessage n) ∉ (nextTurn opts roomId g).1.2.
Proof.
  destruct (nextTurn_shape opts roomId g) as (g0 & _ & _ & _ & ->). intros H.
  assert (Hin : mkEmit t (SystemMessage n)
                ∈ mkEmit (IoTo roomId) Clear :: broadcast g0
                    ++ [mkEmit (IoTo roomId) (GameEnded (Game.players g0))]).
  { destruct (bool_decide (Game.status g0 = ENDED)).
    - destruct (emitAll _) as [sent err] eqn:E. cbn [fst snd] in H.
      apply (emitAll_sent_in (_ :: _ ++ _)). by rewrite E.
    - assert (Hs : mkEmit t (SystemMessage n)
                   ∈ (emitAll (mkEmit (IoTo roomId) Clear :: broadcast g0)).1)
        by (by destruct (emitAll _) as [sent [err|]]).
      apply emitAll_sent_in in Hs.
      apply elem_of_cons in Hs as [Hs|Hs]; [discriminate Hs|].
      apply elem_of_cons. right. apply elem_of_app. by left. }
  apply elem_of_cons in Hin as [Hin|Hin]; [discriminate Hin|].
  apply elem_of_app in Hin as [[v Hv]%broadcast_payload|Hin]; [discriminate Hv|].
  apply list_elem_of_singleton in Hin. discriminate Hin.
Qed.

(** With no removal pending, every player of the room [nextTurn] leaves is
    sent their view of it. *)
Lemma nextTurn_broadcasts (opts : list string) (roomId : string) (g : Game.t)
    (p : Player.t) :
  pending (Game.players g) = false →
  p ∈ Game.players (nextTurn opts roomId g).1.1 →
  mkEmit (IoTo (Player.id p))
    (GameUpdate (getPublicState (nextTurn opts roomId g).1.1 (Player.id p)))
    ∈ (nextTurn opts roomId g).1.2.
Proof.
  intros Hq Hp. destruct (nextTurn_quiet opts roomId g Hq) as (_ & -> & _).
  apply elem_of_cons. right. apply elem_of_app. left. by apply in_broadcast.
Qed.

(** The room [handlePlayerRemove] leaves behind, by branch: [g1] is the room
    after the splice and the index adjustment, [gh] after the host
    promotion. *)
Lemma handlePlayerRemove_shape (opts : list string) (roomId playerId : string)
    (srv : Server) (game : Game.t) (i : nat) (player : Player.t) :
  games srv !! roomId = Some game →
  findById playerId (Game.players game) = Some (i, player) →
  let g0 := Game.set_players (delete i (Game.players game)) game in
  let g1 := if Z.of_nat i <? Game.drawerIndex game
            then Game.set_drawerIndex (Game.drawerIndex game - 1) g0 else g0 in
  match delete i (Game.players game) with
  | [] => (handlePlayerRemove opts roomId playerId srv).1.1 = deleteGame roomId srv
  | first :: rest =>
    let gh := if decide (Game.hostId game = playerId)
              then Game.set_hostId (Player.id first) g1 else g1 in
    ∃ g', (handlePlayerRemove opts roomId playerId srv).1.1 = setGame roomId g' srv
      ∧ ((Game.status game ≠ LOBBY ∧ rest = []
          ∧ g' = Game.set_hostId (Player.id first)
                   (Game.set_players [Player.set_score (Player.score first + 100) first]
                      (Game.set_status ENDED (Game.set_timer None g1))))
         ∨ ((Game.status game = LOBBY ∨ rest ≠ [])
            ∧ ((Z.of_nat i = Game.drawerIndex game ∧ Game.status game = DRAWING
                ∧ g' = (nextTurn opts roomId
                          (Game.set_drawerIndex (Game.drawerIndex gh - 1) gh)).1.1)
               ∨ (¬ (Z.of_nat i = Game.drawerIndex game ∧ Game.status game = DRAWING)
                  ∧ (g' = gh
                     ∨ (Game.status game = DRAWING
                        ∧ g' = (nextTurn opts roomId gh).1.1))))))
  end.
Proof.
  intros Hg Hf g0 g1.
  unfold handlePlayerRemove. rewrite Hg, Hf. fold g0.
  change (if Z.of_nat i <? Game.drawerIndex g0
          then Game.set_drawerIndex (Game.drawerIndex g0 - 1) g0 else g0) with g1.
  assert (Hp1 : Game.players g1 = delete i (Game.players game))
    by (unfold g1; by case_match).
  assert (Hs1 : Game.status g1 = Game.status game)
    by (unfold g1; by case_match).
  cbv zeta. rewrite Hp1, Hs1.
  destruct (delete i (Game.players game)) as [|first rest] eqn:Hrem; [done|].
  assert (Hlen : (length (first :: rest) <? 2)%nat = bool_decide (rest = []))
    by (by destruct rest).
  rewrite Hlen.
  destruct (bool_decide (Game.status game = LOBBY)) eqn:Hlobby;
    [apply bool_decide_eq_true in Hlobby|apply bool_decide_eq_false in Hlobby];
    (destruct (bool_decide (rest = [])) eqn:Hrest;
     [apply bool_decide_eq_true in Hrest|apply bool_decide_eq_false in Hrest]);
    cbn [negb andb].
  3: { destruct (emitAll _) as [sent err]. eexists. split; [reflexivity|].
       left. by subst rest. }
  all: set (gh := if decide (Game.hostId game = playerId)
                  then Game.set_hostId (Player.id first) g1 else g1).
  all: set (ge := if bool_decide (Game.hostId game = playerId) then _ else _).
  all: assert (Hge : ge.1 = gh)
         by (unfold ge, gh; destruct (decide (Game.hostId game = playerId));
             [by rewrite bool_decide_true|by rewrite bool_decide_false]).
  all: assert (Hsh : Game.status gh = Game.status game)
         by (unfold gh; by destruct (decide _)).
  all: destruct ge as [g e1]; cbn [fst] in Hge; subst g; rewrite Hsh.
  all: destruct (bool_decide (Z.of_nat i = Game.drawerIndex game)) eqn:Hwd;
         [apply bool_decide_eq_true in Hwd|apply bool_decide_eq_false in Hwd];
       (destruct (bool_decide (Game.status game = DRAWING)) eqn:Hdr;
         [apply bool_decide_eq_true in Hdr|apply bool_decide_eq_false in Hdr]);
       cbn [andb].
  all: try (exfalso; congruence).
  all: try (destruct (nextTurn opts roomId
                        (Game.set_drawerIndex (Game.drawerIndex gh - 1) gh))
              as [[g' e2] err] eqn:Hnt;
            exists g'; split; [reflexivity|]; right; split; [tauto|]; left;
            done).
  all: try (destruct (emitAll _) as [sent err];
            exists gh; split; [reflexivity|]; right; split; [tauto|]; right;
            split; [tauto|by left]).
  all: destruct (drawerOf gh) as [d|];
       [destruct (decide (Player.id d = "")) as [Hempty|Hempty]|];
       try (destruct ((0 <? length (guessersOf (Player.id d) gh))%nat
                      && everyGuessed (guessersOf (Player.id d) gh)));
       try (destruct (nextTurn opts roomId gh) as [[g' e2] [err|]] eqn:Hnt);
       try (destruct (emitAll _) as [sent err']);
       eexists; (split; [reflexivity|]); right; (split; [tauto|]); right;
       (split; [tauto|]);
       first [by left | right; split; done].
Qed.


(** The drawer keeps the pen when somebody else is taken off the list: the
    index is lowered when the entry taken off came before it. *)
Lemma drawerOf_delete (i : nat) (game : Game.t) :
  Z.of_nat i ≠ Game.drawerIndex game →
  drawerOf
    (if Z.of_nat i <? Game.drawerIndex game
     then Game.set_drawerIndex (Game.drawerIndex game - 1)
            (Game.set_players (delete i (Game.players game)) game)
     else Game.set_players (delete i (Game.players game)) game)
  = drawerOf game.
Proof.
  intros Hne. unfold drawerOf, playerAt.
  destruct (Z.ltb_spec (Z.of_nat i) (Game.drawerIndex game)) as [Hlt|Hge]; game_fields.
  - destruct (Z.ltb_spec (Game.drawerIndex game - 1) 0); [lia|].
    destruct (Z.ltb_spec (Game.drawerIndex game) 0); [lia|].
    rewrite list_lookup_delete_ge by lia. f_equal. lia.
  - destruct (Z.ltb_spec (Game.drawerIndex game) 0); [done|].
    rewrite list_lookup_delete_lt by lia. done.
Qed.

Lemma guessersOf_nonempty (drawerId : string) (g : Game.t) :
  (0 <? length (guessersOf drawerId g))%nat = true
  ↔ ∃ p, p ∈ Game.players g ∧ Player.id p ≠ drawerId.
Proof.
  unfold guessersOf. rewrite Nat.ltb_lt. split.
  - destruct (filter _ _) as [|p l] eqn:E; [cbn; lia|]. intros _.
    assert (Hp : p ∈ filter (λ p, Player.id p ≠ drawerId) (Game.players g))
      by (rewrite E; by left).
    apply list_elem_of_filter in Hp as [Hne Hp]. eauto.
  - intros (p & Hp & Hne).
    assert (Hin : p ∈ filter (λ p, Player.id p ≠ drawerId) (Game.players g))
      by (by apply list_elem_of_filter).
    destruct (filter _ _); [by apply elem_of_nil in Hin|cbn; lia].
Qed.

(** C6, as stated, does not hold: when the active drawer is removed during
    DRAWING and the game continues, no "player left" notice is emitted.
    In the worked session, removing the drawer [A] leaves [B] and [C]
    playing, and the notice about [alice] is not among the emissions. *)
Lemma C6_no_left_notice_on_drawer_skip :
  ¬ (∀ (opts : list string) (roomId playerId : string) (srv : Server)
       (game : Game.t) (i : nat) (player : Player.t),
       games srv !! roomId = Some game →
       findById playerId (Game.players game) = Some (i, player) →
       (2 ≤ length (delete i (Game.players game)))%nat →
       mkEmit (IoTo roomId) (SystemMessage (PlayerLeft (Player.name player)))
         ∈ (handlePlayerRemove opts roomId playerId srv).1.2).
Proof.
  intros H.
  assert (Hf : findById "A" (Game.players drawingRoom)
               = Some (0%nat, Player.mk "A" "alice" defaultAvatar 0 false false false))
    by (vm_compute; reflexivity).
  assert (Hn : (2 ≤ length (delete 0%nat (Game.players drawingRoom)))%nat)
    by (vm_compute; lia).
  pose proof (H ["sun"; "pen"; "bed"] "r1" "A" drawingServer drawingRoom _ _
                drawingServer_room Hf Hn) as Hin.
  assert (Hno : bool_decide
                  (mkEmit (IoTo "r1") (SystemMessage (PlayerLeft "alice"))
                   ∈ (handlePlayerRemove ["sun"; "pen"; "bed"] "r1" "A" drawingServer).1.2)
                = false) by (vm_compute; reflexivity).
  apply bool_decide_eq_false in Hno. exact (Hno Hin).
Qed.

(** C6 (amended): removing a listed player, when none of the players who
    remain has a removal pending, has exactly one of three outcomes, decided
    by who remains, and the handler returns. Nobody: the room is deleted
    and nothing is emitted. One player in a room not in LOBBY phase: the
    survivor gains 100 points and becomes host, the phase becomes ENDED and
    the win is announced. Otherwise the game continues: the room stays, the
    first remaining player becomes host when the host left, no score
    changes, no win is announced, and every player of the resulting room is
    sent their view of it on every sub-path. When the removed player was
    the active drawer of a round in DRAWING phase, the turn passes at once
    ([nextTurn] on the room with the drawer index one lower, so that the
    player who moved into the freed place draws next, or the first player,
    in a new round, when the last place was freed), and the
    drawer-disconnected notice is emitted in place of the "player left"
    notice. On every other sub-path the "player left" notice is emitted;
    the drawer, if another player, keeps the pen; and the turn passes
    ([nextTurn] on the room as it stands) exactly when the round is in
    DRAWING phase and either nobody is at the drawer index or every
    remaining player other than the drawer, there being one, is flagged
    guessed. *)
Theorem C6_player_removal (opts : list string) (roomId playerId : string)
    (srv : Server) (game : Game.t) (i : nat) (player : Player.t) :
  games srv !! roomId = Some game →
  findById playerId (Game.players game) = Some (i, player) →
  pending (delete i (Game.players game)) = false →
  let srv' := (handlePlayerRemove opts roomId playerId srv).1.1 in
  let es := (handlePlayerRemove opts roomId playerId srv).1.2 in
  let left := mkEmit (IoTo roomId) (SystemMessage (PlayerLeft (Player.name player))) in
  let won := mkEmit (IoTo roomId) (SystemMessage EveryoneLeftYouWin) in
  let skipped := mkEmit (IoTo roomId) (SystemMessage DrawerDisconnected) in
  (handlePlayerRemove opts roomId playerId srv).2 = None
  ∧ match delete i (Game.players game) with
    | [] => games srv' !! roomId = None ∧ es = []
    | first :: rest =>
      if negb (bool_decide (Game.status game = LOBBY)) && bool_decide (rest = [])
      then
        ∃ g', games srv' !! roomId = Some g'
          ∧ Game.status g' = ENDED
          ∧ Game.players g' = [Player.set_score (Player.score first + 100) first]
          ∧ Game.hostId g' = Player.id first
          ∧ es = [mkEmit (IoTo roomId) (GameUpdate (getPublicState g' (Player.id first)));
                  won;
                  mkEmit (IoTo roomId) (GameEnded (Game.players g'))]
      else
        let g0 := Game.set_players (first :: rest) game in
        let g1 := if Z.of_nat i <? Game.drawerIndex game
                  then Game.set_drawerIndex (Game.drawerIndex game - 1) g0 else g0 in
        let gh := if decide (Game.hostId game = playerId)
                  then Game.set_hostId (Player.id first) g1 else g1 in
        let nobodyDraws :=
          match drawerOf gh with
          | None => True
          | Some d => Player.id d = ""
          end in
        let othersGuessed :=
          ∃ d, drawerOf gh = Some d
               ∧ (∃ p, p ∈ first :: rest ∧ Player.id p ≠ Player.id d)
               ∧ ∀ p, p ∈ first :: rest → Player.id p ≠ Player.id d →
                      Player.guessed p = true in
        ∃ g', games srv' !! roomId = Some g'
          ∧ Game.hostId g'
            = (if decide (Game.hostId game = playerId)
               then Player.id first else Game.hostId game)
          ∧ Player.score <$> Game.players g' = Player.score <$> first :: rest
          ∧ (won ∉ es)
          ∧ (∀ p, p ∈ Game.players g' →
               mkEmit (IoTo (Player.id p)) (GameUpdate (getPublicState g' (Player.id p)))
                 ∈ es)
          ∧ if bool_decide (Z.of_nat i = Game.drawerIndex game)
               && bool_decide (Game.status game = DRAWING)
            then
              g' = (nextTurn opts roomId
                      (Game.set_drawerIndex (Z.of_nat i - 1) gh)).1.1
              ∧ Game.drawerIndex g'
                = (if Z.of_nat (length (first :: rest)) <=? Z.of_nat i
                   then 0 else Z.of_nat i)
              ∧ skipped ∈ es ∧ left ∉ es
            else
              left ∈ es
              ∧ (Z.of_nat i ≠ Game.drawerIndex game → drawerOf gh = drawerOf game)
              ∧ (Game.status game = DRAWING ∧ (nobodyDraws ∨ othersGuessed) →
                 g' = (nextTurn opts roomId gh).1.1)
              ∧ (¬ (Game.status game = DRAWING ∧ (nobodyDraws ∨ othersGuessed)) →
                 g' = gh)
    end.
Proof.
  intros Hg Hf Hq srv' es left won skipped.
  unfold srv', es, handlePlayerRemove. rewrite Hg, Hf. clear srv' es.
  set (g0 := Game.set_players (delete i (Game.players game)) game).
  set (g1 := if Z.of_nat i <? Game.drawerIndex g0
             then Game.set_drawerIndex (Game.drawerIndex g0 - 1) g0 else g0).
  assert (Hp1 : Game.players g1 = delete i (Game.players game))
    by (unfold g1; by case_match).
  assert (Hs1 : Game.status g1 = Game.status game)
    by (unfold g1; by case_match).
  assert (Hh1 : Game.hostId g1 = Game.hostId game)
    by (unfold g1; by case_match).
  cbv zeta. rewrite Hp1, Hs1.
  destruct (delete i (Game.players game)) as [|first rest] eqn:Hrem.
  { cbn. by rewrite lookup_delete_eq. }
  assert (Hlen : (length (first :: rest) <? 2)%nat = bool_decide (rest = []))
    by (by destruct rest).
  rewrite Hlen.
  destruct (negb (bool_decide (Game.status game = LOBBY)) && bool_decide (rest = []))
    eqn:Hwin.
  { apply andb_true_iff in Hwin as [_ Hrest%bool_decide_eq_true]. subst rest.
    rewrite emitAll_encodable.
    - cbn [fst snd setGame games]. split; [done|].
      eexists. split; [apply lookup_insert_eq|]. by repeat split.
    - assert (Hw : pending [Player.set_score (Player.score first + 100) first] = false)
        by (rewrite <- Hq; by apply pending_same).
      apply Forall_cons. split.
      { cbn [payload encodable]. rewrite getPublicState_players. game_fields.
        by rewrite Hw. }
      apply Forall_cons. split; [done|]. apply Forall_singleton.
      cbn [payload encodable]. game_fields. by rewrite Hw. }
  set (wasHost := bool_decide (Game.hostId game = playerId)).
  set (ge := if wasHost
             then (Game.set_hostId (Player.id first) g1,
                   [mkEmit (IoTo roomId) (SystemMessage (NowHost (Player.name first)))])
             else (g1, [])).
  set (gh := if decide (Game.hostId game = playerId)
             then Game.set_hostId (Player.id first) g1 else g1).
  assert (Hgh : g1 = (if Z.of_nat i <? Game.drawerIndex game
                      then Game.set_drawerIndex (Game.drawerIndex game - 1)
                             (Game.set_players (first :: rest) game)
                      else Game.set_players (first :: rest) game)).
  { reflexivity. }
  rewrite <- Hgh. fold gh.
  assert (Hge : ge.1 = gh
                ∧ Game.hostId gh
                  = (if decide (Game.hostId game = playerId)
                     then Player.id first else Game.hostId game)
                ∧ Game.status gh = Game.status game
                ∧ Game.players gh = first :: rest
                ∧ Game.drawerIndex gh = Game.drawerIndex g1
                ∧ drawerOf gh = drawerOf g1
                ∧ ∀ e, e ∈ ge.2 → ∃ n, payload e = SystemMessage (NowHost n)).
  { unfold ge, gh, wasHost. destruct (decide (Game.hostId game = playerId)) as [Heq|Hneq].
    - rewrite bool_decide_true by done. cbn [fst snd].
      split; [done|]. split; [done|]. split; [done|]. split; [cbn; by rewrite Hp1|].
      split; [done|]. split; [done|].
      intros x [->|Hw%elem_of_nil]%elem_of_cons; [cbn; eauto|done].
    - rewrite bool_decide_false by done. cbn [fst snd].
      split; [done|]. split; [done|]. split; [done|]. split; [cbn; by rewrite Hp1|].
      split; [done|]. split; [done|].
      by intros x Hw%elem_of_nil. }
  destruct ge as [g e1]. cbn [fst snd] in Hge.
  destruct Hge as (-> & Hh & Hs & Hps & Hdi & Hdo & He1).
  assert (Hw1 : won ∉ e1) by (intros [n Hn]%He1; discriminate Hn).
  assert (Hl1 : left ∉ e1) by (intros [n Hn]%He1; discriminate Hn).
  assert (Hqh : pending (Game.players gh) = false) by (by rewrite Hps).
  rewrite Hs.
  destruct (bool_decide (Z.of_nat i = Game.drawerIndex game)
            && bool_decide (Game.status game = DRAWING)) eqn:Hskip.
  { apply andb_true_iff in Hskip as [Hwd%bool_decide_eq_true Hdr%bool_decide_eq_true].
    assert (Hidx : Game.drawerIndex gh = Z.of_nat i).
    { rewrite Hdi. unfold g1, g0. game_fields.
      destruct (Z.ltb_spec (Z.of_nat i) (Game.drawerIndex game)); [lia|by cbn]. }
    rewrite Hidx.
    set (gs := Game.set_drawerIndex (Z.of_nat i - 1) gh).
    assert (Hqs : pending (Game.players gs) = false) by done.
    pose proof (nextTurn_no_notice opts roomId gs) as Hnn.
    pose proof (nextTurn_broadcasts opts roomId gs) as Hnb.
    pose proof (nextTurn_hostId opts roomId gs) as Hnh.
    pose proof (nextTurn_scores opts roomId gs) as Hsc.
    destruct (nextTurn_quiet opts roomId gs Hqs) as (Hnone & _).
    assert (Hni : Game.drawerIndex (nextTurn opts roomId gs).1.1
                  = (if Z.of_nat (length (first :: rest)) <=? Z.of_nat i
                     then 0 else Z.of_nat i)).
    { destruct (nextTurn_counters opts roomId gs) as (_ & -> & _).
      unfold wraps, gs. game_fields. rewrite Hps.
      by replace (Z.of_nat i - 1 + 1) with (Z.of_nat i) by lia. }
    destruct (nextTurn opts roomId gs) as [[g' e2] err].
    cbn [fst snd setGame games] in *. split; [done|].
    exists g'. split; [apply lookup_insert_eq|].
    split; [by rewrite Hnh|].
    split; [by rewrite Hsc, <- Hps|].
    split. { rewrite !elem_of_app, elem_of_cons, elem_of_nil.
             intros [?|[[Hx|[]]|Hx]]; [done|discriminate Hx|by apply Hnn in Hx]. }
    split. { intros p Hp. rewrite !elem_of_app. right. right. by apply Hnb. }
    split; [done|]. split; [done|].
    split. { rewrite !elem_of_app, elem_of_cons. right. left. by left. }
    rewrite !elem_of_app, elem_of_cons, elem_of_nil.
    intros [Hx|[[Hx|[]]|Hx]]; [done|discriminate Hx|by apply Hnn in Hx]. }
  set (nobodyDraws := match drawerOf gh with
                      | None => True
                      | Some d => Player.id d = ""
                      end).
  set (othersGuessed :=
         ∃ d, drawerOf gh = Some d
              ∧ (∃ p, p ∈ first :: rest ∧ Player.id p ≠ Player.id d)
              ∧ ∀ p, p ∈ first :: rest → Player.id p ≠ Player.id d →
                     Player.guessed p = true).
  match goal with
  | |- context [if bool_decide (Game.status game = DRAWING) then ?a else ?b] =>
      set (r := if bool_decide (Game.status game = DRAWING) then a else b)
  end.
  assert (Hr : r.2 = None
               ∧ Game.hostId r.1.1 = Game.hostId gh
               ∧ Player.score <$> Game.players r.1.1 = Player.score <$> Game.players gh
               ∧ pending (Game.players r.1.1) = false
               ∧ (won ∉ r.1.2)
               ∧ (Game.status game = DRAWING ∧ (nobodyDraws ∨ othersGuessed) →
                  r.1.1 = (nextTurn opts roomId gh).1.1)
               ∧ (¬ (Game.status game = DRAWING ∧ (nobodyDraws ∨ othersGuessed)) →
                  r.1.1 = gh)).
  { pose proof (nextTurn_no_notice opts roomId gh (IoTo roomId) EveryoneLeftYouWin) as Hnn.
    pose proof (nextTurn_hostId opts roomId gh) as Hnh.
    pose proof (nextTurn_scores opts roomId gh) as Hsc.
    pose proof (nextTurn_pending_same opts roomId gh) as Hnp. rewrite Hqh in Hnp.
    destruct (nextTurn_quiet opts roomId gh Hqh) as (Hnone & _).
    assert (Hturn : (nextTurn opts roomId gh).2 = None
                    ∧ Game.hostId (nextTurn opts roomId gh).1.1 = Game.hostId gh
                    ∧ Player.score <$> Game.players (nextTurn opts roomId gh).1.1
                      = Player.score <$> Game.players gh
                    ∧ pending (Game.players (nextTurn opts roomId gh).1.1) = false
                    ∧ won ∉ (nextTurn opts roomId gh).1.2) by done.
    assert (Hstay : (None : option Error) = None
                    ∧ Game.hostId gh = Game.hostId gh
                    ∧ Player.score <$> Game.players gh = Player.score <$> Game.players gh
                    ∧ pending (Game.players gh) = false
                    ∧ won ∉ ([] : list Emit))
      by (repeat split; try done; apply not_elem_of_nil).
    unfold r. destruct (bool_decide (Game.status game = DRAWING)) eqn:Hdr;
      [apply bool_decide_eq_true in Hdr|apply bool_decide_eq_false in Hdr].
    2: { destruct Hstay as (? & ? & ? & ? & ?). repeat split; try done.
         intros [? _]. done. }
    unfold nobodyDraws, othersGuessed.
    destruct (drawerOf gh) as [d|] eqn:Hd.
    2: { destruct Hturn as (? & ? & ? & ? & ?). repeat split; try done.
         intros Hno. exfalso. apply Hno. split; [done|by left]. }
    destruct (decide (Player.id d = "")) as [Hempty|Hempty].
    { destruct Hturn as (? & ? & ? & ? & ?). repeat split; try done.
      intros Hno. exfalso. apply Hno. split; [done|by left]. }
    destruct ((0 <? length (guessersOf (Player.id d) gh))%nat
              && everyGuessed (guessersOf (Player.id d) gh)) eqn:Hall.
    - apply andb_true_iff in Hall as [Hsome Hevery].
      apply guessersOf_nonempty in Hsome. rewrite Hps in Hsome.
      rewrite everyGuessed_guessersOf, Hps in Hevery.
      destruct Hturn as (? & ? & ? & ? & ?).
      destruct (nextTurn opts roomId gh) as [[g'' e''] err'']. cbn [fst snd] in *.
      repeat split; try done.
      + intros [Hx|Hx]%elem_of_cons; [discriminate Hx|done].
      + intros Hno. exfalso. apply Hno. split; [done|right]. by exists d.
    - destruct Hstay as (? & ? & ? & ? & ?). repeat split; try done.
      intros [_ [Hnb|(d' & [= <-] & Hsome & Hevery)]]; [done|].
      exfalso. apply andb_false_iff in Hall as [Hall|Hall].
      + apply not_true_iff_false in Hall. apply Hall, guessersOf_nonempty.
        by rewrite Hps.
      + apply not_true_iff_false in Hall. apply Hall, everyGuessed_guessersOf.
        by rewrite Hps. }
  destruct r as [[g' e2] err]. cbn [fst snd] in Hr.
  destruct Hr as (-> & Hh' & Hsc' & Hq' & Hw2 & Hadv & Hstay).
  rewrite emitAll_encodable.
  2: { apply Forall_app. split; [|by apply Forall_singleton].
       apply Forall_forall. intros e (p & -> & _)%list_elem_of_fmap.
       cbn [payload encodable]. by rewrite getPublicState_players, Hq'. }
  cbn [fst snd setGame games]. split; [done|].
  exists g'. split; [apply lookup_insert_eq|].
  split; [by rewrite Hh'|].
  split; [by rewrite Hsc', Hps|].
  split.
  { rewrite !elem_of_app, elem_of_cons, elem_of_nil.
    intros [?|[?|[Hx%broadcast_payload|[Hx|[]]]]]; [done|done| |discriminate Hx].
    destruct Hx as [v Hv]. discriminate Hv. }
  split.
  { intros p Hp. rewrite !elem_of_app. right. right. left. by apply in_broadcast. }
  split.
  { rewrite !elem_of_app, elem_of_cons. right. right. right. by left. }
  split; [|by split].
  intros Hne. rewrite Hdo, Hgh, <- Hrem. by apply drawerOf_delete.
Qed.

Lemma C6_player_removal_witness :
  mkEmit (IoTo "r1") (SystemMessage (PlayerLeft "bob"))
    ∈ (handlePlayerRemove [] "r1" "B" drawingServer).1.2
  ∧ (λ g, (Game.status g, Game.drawerIndex g, Player.id <$> Game.players g))
      <$> games (handlePlayerRemove [] "r1" "B" drawingServer).1.1 !! "r1"
    = Some (DRAWING, 0, ["A"; "C"]).
Proof.
  pose proof (C6_player_removal [] "r1" "B" drawingServer drawingRoom 1%nat
                (Player.mk "B" "bob" defaultAvatar 0 false false false)
                drawingServer_room eq_refl eq_refl) as [_ H].
  destruct H as (g' & Hg' & _ & _ & _ & _ & Hleft & _ & _ & Hstay).
  split; [exact Hleft|].
  rewrite Hg', Hstay; [reflexivity|].
  intros [_ [Hnb|(d & Hd & _ & Hall)]]; [done|].
  injection Hd as <-.
  by specialize (Hall (Player.mk "C" "carol" defaultAvatar 0 false false false)
                   ltac:(right; left) ltac:(discriminate)).
Defined.



(** ** Turn rotation *)

(** Any number of consecutive calls, in closed form: with [n] players and
    [drawerIndex] at [d] in range, [k] calls leave [drawerIndex] at
    [(d + k) mod n] after [(d + k) / n] wrap-arounds, each of which
    incremented [currentRound]. *)
Lemma nextTurns_closed_form (optss : list (list string)) (roomId : string) :
  ∀ g : Game.t,
    let n := Z.of_nat (length (Game.players g)) in
    let k := Z.of_nat (length optss) in
    0 ≤ Game.drawerIndex g < n →
    Game.drawerIndex (nextTurns optss roomId g) = (Game.drawerIndex g + k) mod n
    ∧ Game.currentRound (nextTurns optss roomId g)
      = Game.currentRound g + (Game.drawerIndex g + k) / n
    ∧ Z.of_nat (countWraps optss roomId g) = (Game.drawerIndex g + k) / n
    ∧ length (Game.players (nextTurns optss roomId g)) = length (Game.players g).
Proof.
  induction optss as [|opts rest IH]; intros g n k Hd.
  - unfold k. cbn. rewrite Z.add_0_r.
    rewrite Z.mod_small, Z.div_small by lia. repeat split; lia.
  - cbn [nextTurns countWraps].
    destruct (nextTurn_counters opts roomId g) as (Hlen & Hdi & Hcr).
    set (g1 := (nextTurn opts roomId g).1.1) in *.
    assert (Hk : k = Z.of_nat (length rest) + 1) by (unfold k; cbn; lia).
    specialize (IH g1). cbv zeta in IH. rewrite Hlen in IH. fold n in IH.
    unfold wraps in Hdi, Hcr |- *. fold n in Hdi, Hcr |- *.
    destruct (Z.leb_spec n (Game.drawerIndex g + 1)) as [Hw|Hw].
    + assert (Hlast : Game.drawerIndex g = n - 1) by lia.
      destruct IH as (I1 & I2 & I3 & I4); [lia|].
      rewrite Hdi, Hcr in *. rewrite Hk, Hlast.
      replace (n - 1 + (Z.of_nat (length rest) + 1))
        with (Z.of_nat (length rest) + 1 * n) by lia.
      rewrite Z.mod_add, Z.div_add by lia.
      rewrite Z.add_0_l in I1, I2, I3.
      repeat split; [exact I1|lia|lia|exact I4].
    + destruct IH as (I1 & I2 & I3 & I4); [lia|].
      rewrite Hdi, Hcr in *. rewrite Hk.
      replace (Game.drawerIndex g + (Z.of_nat (length rest) + 1))
        with (Game.drawerIndex g + 1 + Z.of_nat (length rest)) by lia.
      repeat split; [exact I1|exact I2|lia|exact I4].
Qed.

(** C8, as stated, does not hold for every room with a non-empty player
    list: from the room that ['start-game'] hands over, with [drawerIndex]
    at -1, two calls for two players visit both players without wrapping
    and [currentRound] is still 1. *)
Lemma C8_no_wrap_from_start_reset :
  ¬ (∀ (optss : list (list string)) (roomId : string) (g : Game.t),
       Game.players g ≠ [] →
       length optss = length (Game.players g) →
       Game.currentRound (nextTurns optss roomId g) = Game.currentRound g + 1).
Proof.
  intros H.
  specialize (H [["cat"; "dog"; "owl"]; ["sun"; "pen"; "bed"]] "r1"
                freshlyStartedRoom ltac:(discriminate) eq_refl).
  discriminate H.
Qed.

(** C8 (amended): for a room with a non-empty player list of length [n],
    [currentRound = r] and [drawerIndex] pointing at a listed player
    ([0 <= drawerIndex < n]), exactly [n] consecutive [nextTurn] calls with
    nothing in between leave [currentRound = r + 1] and [drawerIndex] back
    at its starting value, having taken the wrap-around branch exactly
    once; the player list keeps its length. *)
Theorem C8_full_rotation (optss : list (list string)) (roomId : string)
    (g : Game.t) :
  Game.players g ≠ [] →
  length optss = length (Game.players g) →
  0 ≤ Game.drawerIndex g < Z.of_nat (length (Game.players g)) →
  Game.currentRound (nextTurns optss roomId g) = Game.currentRound g + 1
  ∧ Game.drawerIndex (nextTurns optss roomId g) = Game.drawerIndex g
  ∧ countWraps optss roomId g = 1%nat
  ∧ length (Game.players (nextTurns optss roomId g)) = length (Game.players g).
Proof.
  intros _ Hk Hd.
  destruct (nextTurns_closed_form optss roomId g Hd) as (H1 & H2 & H3 & H4).
  rewrite Hk in H1, H2, H3.
  set (n := Z.of_nat (length (Game.players g))) in *.
  replace (Game.drawerIndex g + n) with (Game.drawerIndex g + 1 * n) in * by lia.
  rewrite Z.mod_add, Z.mod_small in H1 by lia.
  rewrite Z.div_add, Z.div_small in H2, H3 by lia.
  repeat split; [lia|exact H1|lia|exact H4].
Qed.

Lemma C8_full_rotation_witness :
  Game.currentRound
    (nextTurns [["sun"; "pen"; "bed"]; ["cup"; "hat"; "fox"]; ["car"; "bus"; "map"]]
       "r1" drawingRoom) = 2
  ∧ Game.drawerIndex
      (nextTurns [["sun"; "pen"; "bed"]; ["cup"; "hat"; "fox"]; ["car"; "bus"; "map"]]
         "r1" drawingRoom) = 0.
Proof.
  destruct (C8_full_rotation
              [["sun"; "pen"; "bed"]; ["cup"; "hat"; "fox"]; ["car"; "bus"; "map"]]
              "r1" drawingRoom) as (H1 & H2 & _).
  - discriminate.
  - reflexivity.
  - cbn. lia.
  - split; [exact H1|exact H2].
Defined.

(** ** The voice signals *)


(** ** Voice mesh: who initiates *)

Lemma ltb_irrefl (s : string) : (s <? s)%string = false.
Proof.
  unfold String.ltb. pose proof (String.compare_antisym s s) as H.
  by destruct (String.compare s s).
Qed.

Lemma ltb_asym (a b : string) : (a <? b)%string = true → (b <? a)%string = false.
Proof.
  unfold String.ltb. rewrite (String.compare_antisym a b).
  by destruct (String.compare b a).
Qed.

Lemma retryPeer_checkPeer (me : string) (st : VoiceChat.State) (pid : string) :
  VoiceChat.retryPeer me st pid = VoiceChat.checkPeer me st pid.
Proof.
  unfold VoiceChat.retryPeer, VoiceChat.checkPeer. destruct st as [peers out].
  destruct (decide (pid = me)); [done|].
  destruct (decide (pid ∈ peers)).
  - by rewrite bool_decide_true.
  - by rewrite bool_decide_false.
Qed.

Lemma reconcile_checkNewPeers (me : string) (players : list string)
    (peers : gset string) :
  VoiceChat.reconcile me players peers = VoiceChat.checkNewPeers me players peers.
Proof.
  unfold VoiceChat.reconcile, VoiceChat.checkNewPeers.
  generalize (peers, @nil VoiceChat.Signal).
  induction players as [|p ps IH]; intros st; [done|].
  cbn. by rewrite retryPeer_checkPeer, IH.
Qed.

Lemma checkPeer_inv (me : string) (peers0 : gset string) (st : VoiceChat.State)
    (pid : string) :
  scanInv me peers0 st → scanInv me peers0 (VoiceChat.checkPeer me st pid).
Proof.
  destruct st as [peers out]. intros Hinv.
  pose proof Hinv as (Hout & Hlt & Hoff & Hsub).
  unfold VoiceChat.checkPeer.
  destruct (decide (pid = me)); [exact Hinv|].
  destruct (decide (pid ∈ peers)); [exact Hinv|].
  destruct (me <? pid)%string eqn:Hlt'; [|exact Hinv].
  unfold VoiceChat.createPeerConnection, scanInv. cbn [fst snd] in *.
  split; [|split; [|split]].
  - intros s [Hs|Hs]%elem_of_app; [by apply Hout|].
    apply list_elem_of_singleton in Hs as ->. by split.
  - intros x [->%elem_of_singleton|Hx]%elem_of_union; [by right|by apply Hlt].
  - intros x [->%elem_of_singleton|Hx]%elem_of_union.
    + right. apply elem_of_app. right. by apply list_elem_of_singleton.
    + destruct (Hoff x Hx); [by left|right]. apply elem_of_app. by left.
  - clear -Hsub. set_solver.
Qed.

Lemma scan_inv (me : string) (peers0 : gset string) (players : list string) :
  ∀ st, scanInv me peers0 st →
        scanInv me peers0 (foldl (VoiceChat.checkPeer me) st players).
Proof.
  induction players as [|p ps IH]; intros st Hst; [done|].
  cbn. by apply IH, checkPeer_inv.
Qed.

Lemma scanInv_init (me : string) (peers : gset string) :
  scanInv me peers (peers, []).
Proof.
  unfold scanInv. cbn [fst snd]. split; [|split; [|split]].
  - intros s Hs. by apply elem_of_nil in Hs.
  - intros x Hx. by left.
  - intros x Hx. by left.
  - done.
Qed.

Lemma checkPeer_mono (me : string) (st : VoiceChat.State) (pid x : string) :
  x ∈ st.1 → x ∈ (VoiceChat.checkPeer me st pid).1.
Proof.
  destruct st as [peers out]. unfold VoiceChat.checkPeer, VoiceChat.createPeerConnection.
  repeat case_match; cbn; set_solver.
Qed.

Lemma scan_mono (me : string) (players : list string) (x : string) :
  ∀ st : VoiceChat.State,
    x ∈ st.1 → x ∈ (foldl (VoiceChat.checkPeer me) st players).1.
Proof.
  induction players as [|p ps IH]; intros st Hx; [done|].
  cbn. by apply IH, checkPeer_mono.
Qed.

(** A listed player with a greater id is connected once the scan is over. *)
Lemma scan_reaches (me pid : string) (players : list string) :
  pid ∈ players → (me <? pid)%string = true →
  ∀ st : VoiceChat.State,
    pid ∈ (foldl (VoiceChat.checkPeer me) st players).1.
Proof.
  intros Hin Hlt. induction players as [|p ps IH]; intros st.
  { by apply elem_of_nil in Hin. }
  cbn. apply elem_of_cons in Hin as [<-|Hin]; [|by apply IH].
  apply scan_mono. destruct st as [peers out].
  unfold VoiceChat.checkPeer, VoiceChat.createPeerConnection.
  destruct (decide (pid = me)) as [->|_]; [by rewrite ltb_irrefl in Hlt|].
  destruct (decide (pid ∈ peers)); [done|].
  rewrite Hlt. cbn. set_solver.
Qed.

(** C9: for participants [a] and [b] with [a < b] as strings, whatever the
    player list and the connections already held: neither the scan on a
    change of the player list nor a firing of the 2-second reconciliation
    makes [b] create a connection or send an offer toward [a], and what [b]
    sends on a signal from [a] is an answer to an offer, nothing else;
    [a], seeing [b] listed and not yet connected, creates the connection
    and sends the offer, in the scan and in every reconciliation alike. *)
Theorem C9_lower_id_initiates (a b : string) (players : list string)
    (peers : gset string) :
  (a <? b)%string = true →
  ((VoiceChat.mkSignal a VoiceChat.Offer ∉ (VoiceChat.checkNewPeers b players peers).2)
   ∧ (VoiceChat.mkSignal a VoiceChat.Offer ∉ (VoiceChat.reconcile b players peers).2)
   ∧ (a ∈ (VoiceChat.checkNewPeers b players peers).1 → a ∈ peers)
   ∧ (a ∈ (VoiceChat.reconcile b players peers).1 → a ∈ peers))
  ∧ (∀ (k : VoiceChat.SignalKind) (rtcOk : bool) (s : VoiceChat.Signal),
       s ∈ (VoiceChat.handleSignal b a k rtcOk peers).2 →
       k = VoiceChat.Offer ∧ s = VoiceChat.mkSignal a VoiceChat.Answer)
  ∧ (b ∈ players → b ∉ peers →
     (VoiceChat.mkSignal b VoiceChat.Offer ∈ (VoiceChat.checkNewPeers a players peers).2
      ∧ b ∈ (VoiceChat.checkNewPeers a players peers).1)
     ∧ (VoiceChat.mkSignal b VoiceChat.Offer ∈ (VoiceChat.reconcile a players peers).2
        ∧ b ∈ (VoiceChat.reconcile a players peers).1)).
Proof.
  intros Hab. pose proof (ltb_asym a b Hab) as Hba.
  rewrite !reconcile_checkNewPeers. unfold VoiceChat.checkNewPeers.
  destruct (scan_inv b peers players _ (scanInv_init b peers))
    as (Hout & Hlt & _ & _).
  destruct (scan_inv a peers players _ (scanInv_init a peers))
    as (_ & _ & Hoff & _).
  split; [|split].
  - assert (Hno : VoiceChat.mkSignal a VoiceChat.Offer
                  ∉ (foldl (VoiceChat.checkPeer b) (peers, []) players).2).
    { intros [_ Hlt']%Hout. cbn in Hlt'. congruence. }
    assert (Hnew : a ∈ (foldl (VoiceChat.checkPeer b) (peers, []) players).1 → a ∈ peers).
    { intros [?|?]%Hlt; [done|congruence]. }
    done.
  - intros k rtcOk s. unfold VoiceChat.handleSignal.
    destruct (decide (a = b)) as [->|_]; [by rewrite ltb_irrefl in Hab|].
    destruct k, rtcOk; cbn; intros Hs; try (by apply elem_of_nil in Hs).
    by apply list_elem_of_singleton in Hs.
  - intros Hin Hnew.
    pose proof (scan_reaches a b players Hin Hab (peers, [])) as Hb.
    destruct (Hoff b Hb) as [?|?]; done.
Qed.

Lemma C9_lower_id_initiates_witness :
  VoiceChat.mkSignal "sockB" VoiceChat.Offer
    ∈ (VoiceChat.checkNewPeers "sockA" ["sockA"; "sockB"] ∅).2
  ∧ VoiceChat.mkSignal "sockA" VoiceChat.Offer
    ∉ (VoiceChat.checkNewPeers "sockB" ["sockA"; "sockB"] ∅).2.
Proof.
  destruct (C9_lower_id_initiates "sockA" "sockB" ["sockA"; "sockB"] ∅ eq_refl)
    as ((Hno & _) & _ & Hyes).
  split; [|exact Hno].
  destruct Hyes as [[H _] _]; [|apply not_elem_of_empty|exact H].
  apply elem_of_cons. right. apply elem_of_cons. by left.
Defined.


(** * Further properties of the room engine *)

(** ** [nextTurn] *)

(** X1. [nextTurn] on a room with at least one player and [drawerIndex] not
    below -1 leaves [drawerIndex] on a listed player. *)
Theorem nextTurn_drawer_listed (opts : list string) (roomId : string) (g : Game.t) :
  Game.players g ≠ [] →
  -1 ≤ Game.drawerIndex g →
  let g' := (nextTurn opts roomId g).1.1 in
  0 ≤ Game.drawerIndex g' < Z.of_nat (length (Game.players g'))
  ∧ is_Some (drawerOf g').
Proof.
  intros Hne Hd g'.
  destruct (nextTurn_counters opts roomId g) as (Hlen & Hdi & _).
  fold g' in Hlen, Hdi.
  assert (Hn : (0 < length (Game.players g))%nat)
    by (destruct (Game.players g); [done|cbn; lia]).
  assert (Hr : 0 ≤ Game.drawerIndex g' < Z.of_nat (length (Game.players g'))).
  { rewrite Hdi, Hlen. unfold wraps.
    destruct (Z.leb_spec (Z.of_nat (length (Game.players g))) (Game.drawerIndex g + 1));
      lia. }
  split; [exact Hr|].
  unfold drawerOf, playerAt.
  destruct (Z.ltb_spec (Game.drawerIndex g') 0); [lia|].
  apply lookup_lt_is_Some. lia.
Qed.

Lemma nextTurn_drawer_listed_witness :
  is_Some (drawerOf (nextTurn ["cat"; "dog"; "owl"] "r1" freshlyStartedRoom).1.1).
Proof.
  apply (nextTurn_drawer_listed ["cat"; "dog"; "owl"] "r1" freshlyStartedRoom).
  - discriminate.
  - cbn. lia.
Defined.

Lemma nextTurn_fields (opts : list string) (roomId : string) (g : Game.t) :
  let g' := (nextTurn opts roomId g).1.1 in
  if Game.maxRounds g
     <? (if wraps g then Game.currentRound g + 1 else Game.currentRound g) then
    Game.status g' = ENDED
    ∧ Game.players g' = Game.players g
    ∧ Game.currentWord g' = Game.currentWord g
  else
    Game.status g' = SELECTING
    ∧ Game.players g' = Player.set_guessed false <$> Game.players g
    ∧ Game.currentWord g' = ""
    ∧ Game.wordOptions g' = opts
    ∧ Game.timeLeft g' = 15.
Proof.
  unfold nextTurn, wraps. cbv zeta. game_fields.
  destruct (Z.of_nat (length (Game.players g)) <=? Game.drawerIndex g + 1);
    game_fields; destruct (Game.maxRounds g <? _);
    destruct (emitAll _) as [? [?|]]; cbn [fst snd]; game_fields;
    by repeat split.
Qed.

(** X2. What [nextTurn] does, case by case. It ends the game exactly when
    the round counter it leaves exceeds [maxRounds], keeping the players,
    flags included, and the word; otherwise the room enters SELECTING with
    the offered options, an empty word, 15 seconds on the clock and every
    player as before except for a cleared guessed flag. With no removal
    pending in the room it returns, having sent the canvas clear, one view
    per player and, at the end of the game only, the final player list, and
    the selection countdown runs unless the game is over. With a removal
    pending it throws in the encoder at its first game update: the canvas
    clear is all that went out, and the room is left in its new phase with
    no interval running. *)
Theorem nextTurn_outcome (opts : list string) (roomId : string) (g : Game.t) :
  let g' := (nextTurn opts roomId g).1.1 in
  let es := (nextTurn opts roomId g).1.2 in
  let err := (nextTurn opts roomId g).2 in
  (if Game.maxRounds g <? Game.currentRound g' then
     Game.status g' = ENDED
     ∧ Game.players g' = Game.players g
     ∧ Game.currentWord g' = Game.currentWord g
   else
     Game.status g' = SELECTING
     ∧ Game.players g' = Player.set_guessed false <$> Game.players g
     ∧ Game.currentWord g' = ""
     ∧ Game.wordOptions g' = opts
     ∧ Game.timeLeft g' = 15)
  ∧ (if pending (Game.players g) then
       err = Some RangeError
       ∧ es = [mkEmit (IoTo roomId) Clear]
       ∧ Game.timer g' = None
     else
       err = None
       ∧ es = mkEmit (IoTo roomId) Clear :: broadcast g'
                ++ (if bool_decide (Game.status g' = ENDED)
                    then [mkEmit (IoTo roomId) (GameEnded (Game.players g'))]
                    else [])
       ∧ Game.timer g' = timerOf (Game.status g')).
Proof.
  intros g' es err. split.
  - destruct (nextTurn_counters opts roomId g) as (_ & _ & Hcr).
    fold g' in Hcr. rewrite Hcr. exact (nextTurn_fields opts roomId g).
  - destruct (pending (Game.players g)) eqn:Hp.
    + exact (nextTurn_pending opts roomId g Hp).
    + exact (nextTurn_quiet opts roomId g Hp).
Qed.

(** ** The masked word *)

Lemma replaceEachChar_same_length (w1 w2 : string) :
  singleLine w1 = true → singleLine w2 = true →
  String.length w1 = String.length w2 →
  Js.replaceEachChar w1 = Js.replaceEachChar w2.
Proof.
  revert w2. induction w1 as [|c1 r1 IH]; intros [|c2 r2] H1 H2 Hlen;
    try discriminate; [done|].
  apply singleLine_cons in H1 as [Hc1 Hr1]. apply singleLine_cons in H2 as [Hc2 Hr2].
  cbn [Js.replaceEachChar]. rewrite Hc1, Hc2.
  f_equal. f_equal. apply IH; [done..|]. cbn in Hlen. lia.
Qed.

(** X3. The view [getPublicState] computes during DRAWING for a player who
    is neither the drawer nor flagged guessed depends on the word through
    its length only: for two rooms that differ only in their single-line
    [currentWord], of equal length, the function returns the same view for
    that player. (This is about the function: C1 shows a handler sending
    such a player the view computed for somebody else.) *)
Theorem masked_view_reveals_length_only (g : Game.t) (pid w1 w2 : string) :
  Game.status g = DRAWING →
  notDrawer g pid = true →
  notGuessed g pid = true →
  singleLine w1 = true → singleLine w2 = true →
  String.length w1 = String.length w2 →
  getPublicState (Game.set_currentWord w1 g) pid
  = getPublicState (Game.set_currentWord w2 g) pid.
Proof.
  intros Hs Hd Hg H1 H2 Hlen.
  unfold getPublicState. cbn.
  change (notDrawer (Game.set_currentWord w1 g) pid) with (notDrawer g pid).
  change (notDrawer (Game.set_currentWord w2 g) pid) with (notDrawer g pid).
  change (notGuessed (Game.set_currentWord w1 g) pid) with (notGuessed g pid).
  change (notGuessed (Game.set_currentWord w2 g) pid) with (notGuessed g pid).
  rewrite Hd, Hg, (bool_decide_true (Game.status g = DRAWING)) by done. cbn.
  by rewrite (replaceEachChar_same_length w1 w2).
Qed.

Lemma masked_view_reveals_length_only_witness :
  getPublicState (Game.set_currentWord "ice cream" iceCreamRoom) "B"
  = getPublicState (Game.set_currentWord "pineapple" iceCreamRoom) "B".
Proof.
  by apply (masked_view_reveals_length_only iceCreamRoom "B" "ice cream" "pineapple").
Defined.

(** ** Points *)

Lemma guessPoints_ratio_le (t1 t2 d : Z) :
  0 < d → t1 ≤ t2 →
  (inject_Z t1 / inject_Z d * inject_Z 500 <= inject_Z t2 / inject_Z d * inject_Z 500)%Q.
Proof.
  intros Hd Hle. destruct d as [|p|p]; try lia.
  unfold Qle, Qdiv, Qmult, Qinv, inject_Z. simpl.
  rewrite ?Pos.mul_1_r, ?Z.mul_1_r. nia.
Qed.

(** X4. With a positive [drawTime] and [timeLeft] between 0 and [drawTime],
    a correct guess is worth at least 10 and at most 500 points, 500 at the
    full clock; and more time left never gives fewer points. *)
Theorem guessPoints_bounds (timeLeft drawTime : Z) :
  0 < drawTime → 0 ≤ timeLeft ≤ drawTime →
  10 ≤ guessPoints timeLeft drawTime ≤ 500
  ∧ guessPoints drawTime drawTime = 500
  ∧ ∀ earlier, timeLeft ≤ earlier →
      guessPoints timeLeft drawTime ≤ guessPoints earlier drawTime.
Proof.
  intros Hd Ht.
  assert (Hfull : Qceiling (inject_Z drawTime / inject_Z drawTime * inject_Z 500)%Q = 500).
  { transitivity (Qceiling (inject_Z 500)); [|apply Qceiling_Z].
    apply Qceiling_comp.
    destruct drawTime as [|p|p]; try lia.
    unfold Qeq, Qdiv, Qmult, Qinv, inject_Z. simpl.
    rewrite ?Pos.mul_1_r, ?Pos.mul_1_l. lia. }
  assert (Hmono : ∀ a b, a ≤ b → guessPoints a drawTime ≤ guessPoints b drawTime).
  { intros a b Hab. unfold guessPoints.
    apply Z.max_le_compat_l, Qceiling_resp_le. by apply guessPoints_ratio_le. }
  assert (Htop : guessPoints drawTime drawTime = 500)
    by (unfold guessPoints; rewrite Hfull; lia).
  split; [|split; [exact Htop|]].
  - split; [unfold guessPoints; lia|].
    rewrite <- Htop. apply Hmono. lia.
  - intros earlier Hle. by apply Hmono.
Qed.

Lemma guessPoints_bounds_witness :
  10 ≤ guessPoints 31 60 ≤ 500 ∧ guessPoints 31 60 = 259.
Proof.
  destruct (guessPoints_bounds 31 60) as [H _]; [lia|lia|].
  split; [exact H|reflexivity].
Defined.


(** ** Joining, leaving and coming back *)

Lemma findById_None (sid : string) (ps : list Player.t) :
  findById sid ps = None ↔ sid ∉ Player.id <$> ps.
Proof.
  unfold findById. rewrite list_find_None, Forall_forall. split.
  - intros H (p & -> & Hp)%list_elem_of_fmap. by apply (H p).
  - intros H p Hp <-. apply H. by apply list_elem_of_fmap_2.
Qed.

(** Writing, at the place of a player, a player of the same id does not
    change whom an id finds. *)
Lemma findById_insert_same (sid : string) (ps : list Player.t) (i : nat)
    (p p' : Player.t) :
  findById sid ps = Some (i, p) →
  Player.id p' = sid →
  findById sid (<[i := p']> ps) = Some (i, p').
Proof.
  intros Hf Hid. destruct (findById_lookup _ _ _ _ Hf) as [Hi Hp].
  assert (Hids : Player.id <$> <[i := p']> ps = Player.id <$> ps)
    by (apply (ids_insert _ _ p); congruence).
  pose proof (findById_same_ids sid _ _ Hids) as Hsame. rewrite Hf in Hsame.
  destruct (findById sid (<[i := p']> ps)) as [[k q]|] eqn:Hk; [|discriminate].
  cbn in Hsame. injection Hsame as ->.
  destruct (findById_lookup _ _ _ _ Hk) as [Hq _].
  rewrite list_lookup_insert_eq in Hq by (by eapply lookup_lt_Some). congruence.
Qed.

(** Giving a fresh id to the player at [j] makes that id find [j]. *)
Lemma findById_insert_fresh (sid : string) (ps : list Player.t) (j : nat)
    (p p' : Player.t) :
  findById sid ps = None →
  ps !! j = Some p →
  Player.id p' = sid →
  findById sid (<[j := p']> ps) = Some (j, p').
Proof.
  intros Hnone Hj Hid. apply list_find_Some.
  assert (Hlt : (j < length ps)%nat) by (by eapply lookup_lt_Some).
  split; [by rewrite list_lookup_insert_eq|]. split; [done|].
  intros k y Hk Hkj Hy. rewrite list_lookup_insert_ne in Hk by lia.
  apply findById_None in Hnone. apply Hnone. rewrite <- Hy.
  apply list_elem_of_fmap_2. by eapply list_elem_of_lookup_2.
Qed.

(** A fresh id appended at the end is found there. *)
Lemma findById_snoc_fresh (sid : string) (ps : list Player.t) (p' : Player.t) :
  findById sid ps = None →
  Player.id p' = sid →
  findById sid (ps ++ [p']) = Some (length ps, p').
Proof.
  intros Hnone Hid. apply list_find_Some.
  split; [by rewrite lookup_app_r, Nat.sub_diag by lia|]. split; [done|].
  intros k y Hk Hkj Hy. rewrite lookup_app_l in Hk by lia.
  apply findById_None in Hnone. apply Hnone. rewrite <- Hy.
  apply list_elem_of_fmap_2. by eapply list_elem_of_lookup_2.
Qed.

(** The room [enterRoom] stores, whether its game updates go out or not. *)
Lemma enterRoom_server (sid roomId username avatar : string) (game : Game.t)
    (srv : Server) :
  (enterRoom sid roomId username avatar game srv).1.1
  = setGame roomId (joinedRoom sid username avatar game) srv.
Proof.
  unfold enterRoom, joinedRoom.
  destruct (findExisting sid username (Game.players game)) as [[i p]|].
  - cbn zeta. destruct (decide _); by destruct (emitAll _).
  - by destruct (emitAll _).
Qed.

(** With no removal pending among the players it leaves, [enterRoom]
    returns, and its room-wide update and one view per player have gone
    out, after the welcome to a player who came back. *)
Lemma enterRoom_quiet (sid roomId username avatar : string) (game : Game.t)
    (srv : Server) :
  let g := joinedRoom sid username avatar game in
  pending (Game.players g) = false →
  (enterRoom sid roomId username avatar game srv).2 = None
  ∧ ∃ e1, (∀ e, e ∈ e1 → e = mkEmit (SocketEmit sid) (SystemMessage WelcomeBack))
          ∧ (enterRoom sid roomId username avatar game srv).1.2
            = e1 ++ mkEmit (IoTo roomId) (GameUpdate (getPublicState g sid))
                :: broadcast g.
Proof.
  intros g Hq.
  assert (Hall : ∀ e1 : list Emit,
            (∀ e, e ∈ e1 → e = mkEmit (SocketEmit sid) (SystemMessage WelcomeBack)) →
            emitAll (e1 ++ mkEmit (IoTo roomId) (GameUpdate (getPublicState g sid))
                       :: broadcast g)
            = (e1 ++ mkEmit (IoTo roomId) (GameUpdate (getPublicState g sid))
                 :: broadcast g, None)).
  { intros e1 He1. apply emitAll_encodable, Forall_app. split.
    - apply Forall_forall. intros e ->%He1. done.
    - apply Forall_cons. split.
      + cbn [payload encodable]. by rewrite getPublicState_players, Hq.
      + apply Forall_forall. intros e (p & -> & _)%list_elem_of_fmap.
        cbn [payload encodable]. by rewrite getPublicState_players, Hq. }
  revert Hq Hall. unfold g, enterRoom, joinedRoom.
  destruct (findExisting sid username (Game.players game)) as [[i p]|].
  - cbn zeta. intros Hq Hall.
    rewrite (Hall [mkEmit (SocketEmit sid) (SystemMessage WelcomeBack)])
      by (by intros e ->%list_elem_of_singleton).
    split; [done|]. eexists. split; [|reflexivity].
    by intros e ->%list_elem_of_singleton.
  - intros Hq Hall. rewrite (Hall []) by (by intros e ?%elem_of_nil).
    split; [done|]. exists []. split; [by intros e ?%elem_of_nil|done].
Qed.

Lemma set_hostId_same (h : string) (g : Game.t) :
  Game.hostId g = h → Game.set_hostId h g = g.
Proof. intros <-. by destruct g. Qed.

Lemma socketJoin_idemp (sid roomId : string) (srv : Server) :
  socketJoin sid roomId (socketJoin sid roomId srv) = socketJoin sid roomId srv.
Proof.
  unfold socketJoin. cbn. f_equal.
  rewrite lookup_insert_eq. cbn. rewrite insert_insert_eq.
  f_equal. by rewrite (assoc_L (∪)), (idemp_L (∪)).
Qed.

Lemma setGame_setGame (roomId : string) (g g' : Game.t) (srv : Server) :
  setGame roomId g (setGame roomId g' srv) = setGame roomId g srv.
Proof. unfold setGame. cbn. by rewrite insert_insert_eq. Qed.

Lemma socketJoin_setGame (sid roomId r : string) (g : Game.t) (srv : Server) :
  socketJoin sid roomId (setGame r g srv) = setGame r g (socketJoin sid roomId srv).
Proof. reflexivity. Qed.

(** Reconciling again a socket that has just been reconciled, under the
    same name and avatar, changes nothing. *)
Lemma joinedRoom_idemp (sid username avatar : string) (game : Game.t) :
  joinedRoom sid username avatar (joinedRoom sid username avatar game)
  = joinedRoom sid username avatar game.
Proof.
  assert (Hstep : ∀ (g : Game.t) (i : nat) (p1 : Player.t),
             findById sid (Game.players g) = Some (i, p1) →
             Player.name p1 = username →
             Player.avatar p1 = (if decide (avatar = "") then Player.avatar p1 else avatar) →
             Player.disconnected p1 = false → Player.disconnectTimeout p1 = false →
             joinedRoom sid username avatar g = g).
  { intros g i p1 Hf Hn Ha Hd Ht. unfold joinedRoom, findExisting. rewrite Hf.
    destruct (findById_lookup _ _ _ _ Hf) as [Hi Hp].
    assert (Hp1 : Player.mk sid username
                    (if decide (avatar = "") then Player.avatar p1 else avatar)
                    (Player.score p1) (Player.guessed p1) false false = p1).
    { rewrite <- Ha. destruct p1; cbn in *; by subst. }
    cbn zeta. rewrite Hp1, list_insert_id by done.
    assert (Hg : Game.set_players (Game.players g) g = g) by (by destruct g).
    rewrite Hg. destruct (decide (Game.hostId g = Player.id p1)) as [Hh|Hh]; [|done].
    apply set_hostId_same. congruence. }
  unfold joinedRoom at 2 3. unfold findExisting.
  destruct (findById sid (Game.players game)) as [[i p]|] eqn:Hid.
  - destruct (findById_lookup _ _ _ _ Hid) as [Hi Hp].
    set (p1 := Player.mk sid username _ (Player.score p) (Player.guessed p) false false).
    assert (Hf : findById sid (<[i := p1]> (Game.players game)) = Some (i, p1))
      by (by apply (findById_insert_same _ _ _ p)).
    cbn zeta. fold p1.
    apply (Hstep _ i p1); try done.
    + by destruct (decide (Game.hostId _ = Player.id p)).
    + unfold p1. cbn. by destruct (decide (avatar = "")).
  - destruct (findByName username (Game.players game)) as [[j p]|] eqn:Hname.
    + assert (Hj : Game.players game !! j = Some p)
        by (by apply list_find_Some in Hname as (? & _)).
      set (p1 := Player.mk sid username _ (Player.score p) (Player.guessed p) false false).
      assert (Hf : findById sid (<[j := p1]> (Game.players game)) = Some (j, p1))
        by (by apply (findById_insert_fresh _ _ _ p)).
      cbn zeta. fold p1.
      apply (Hstep _ j p1); try done.
      * by destruct (decide (Game.hostId _ = Player.id p)).
      * unfold p1. cbn. by destruct (decide (avatar = "")).
    + set (p1 := Player.mk sid username (Js.orStr avatar defaultAvatar) 0 false false false).
      assert (Hf : findById sid (Game.players game ++ [p1])
                   = Some (length (Game.players game), p1))
        by (by apply findById_snoc_fresh).
      fold p1. apply (Hstep _ (length (Game.players game)) p1); try done.
      unfold p1, Js.orStr. cbn. by destruct (decide (avatar = "")).
Qed.

(** X5. ['join-room'] is idempotent: the same socket sending the same join
    twice in a row leaves the server, rooms and subscriptions included, as
    the first join left it. *)
Theorem join_room_idempotent (sid roomId username avatar : string)
    (config : option Config) (srv : Server) :
  let srv1 := (join_room sid roomId username config avatar srv).1.1 in
  (join_room sid roomId username config avatar srv1).1.1 = srv1.
Proof.
  intros srv1.
  assert (Hcase : (games srv !! roomId = None
                   ∧ (inherited roomId = true ∨ config = None)
                   ∧ srv1 = socketJoin sid roomId srv)
                  ∨ ∃ g, srv1 = setGame roomId (joinedRoom sid username avatar g)
                                  (socketJoin sid roomId srv)).
  { unfold srv1, join_room. cbn [socketJoin games].
    destruct (games srv !! roomId) as [g|] eqn:Hg.
    - right. exists g. by rewrite enterRoom_server.
    - destruct (inherited roomId); [left; by eauto|].
      destruct config as [c|]; [right|left; by eauto].
      eexists. by rewrite enterRoom_server. }
  destruct Hcase as [(Hg & Hwhy & ->)|[g ->]].
  - unfold join_room. rewrite socketJoin_idemp. cbn [socketJoin games]. rewrite Hg.
    destruct (inherited roomId); [done|]. by destruct Hwhy as [?| ->].
  - unfold join_room. rewrite socketJoin_setGame, socketJoin_idemp.
    cbn [setGame games]. rewrite lookup_insert_eq, enterRoom_server.
    by rewrite joinedRoom_idemp, setGame_setGame.
Qed.

Lemma findByName_insert_same (username : string) (ps : list Player.t) (i : nat)
    (p p' : Player.t) :
  findByName username ps = Some (i, p) →
  Player.name p' = username →
  findByName username (<[i := p']> ps) = Some (i, p').
Proof.
  intros (Hi & Hn & Hmin)%list_find_Some Hp'. apply list_find_Some.
  assert (Hlt : (i < length ps)%nat) by (by eapply lookup_lt_Some).
  split; [by rewrite list_lookup_insert_eq|]. split; [done|].
  intros k y Hk Hki. rewrite list_lookup_insert_ne in Hk by lia. by eapply Hmin.
Qed.

(** The loop of ['disconnect'] over the players still connected: with a
    removal pending its first [emit] throws, if there is one. *)
Lemma emitAll_views (g : Game.t) (ps : list Player.t) :
  emitAll ((λ p, mkEmit (IoTo (Player.id p))
                   (GameUpdate (getPublicState g (Player.id p)))) <$> ps)
  = if pending (Game.players g) && bool_decide (ps ≠ [])
    then ([], Some RangeError)
    else ((λ p, mkEmit (IoTo (Player.id p))
                  (GameUpdate (getPublicState g (Player.id p)))) <$> ps, None).
Proof.
  destruct (pending (Game.players g)) eqn:Hp; cbn [andb].
  - destruct ps as [|p ps]; [done|]. rewrite bool_decide_true by done.
    cbn [fmap list_fmap emitAll payload encodable].
    by rewrite getPublicState_players, Hp.
  - apply emitAll_encodable, Forall_forall.
    intros e (p & -> & _)%list_elem_of_fmap. cbn [payload encodable].
    by rewrite getPublicState_players, Hp.
Qed.

(** Who is told of a disconnection: the players not flagged disconnected,
    the one who left apart. *)
Lemma told_of_disconnection (ps : list Player.t) (i : nat) (p : Player.t) :
  ps !! i = Some p →
  filter (λ q, Player.disconnected q = false) (<[i := setDisconnected true p]> ps) ≠ []
  ↔ ∃ j q, j ≠ i ∧ ps !! j = Some q ∧ Player.disconnected q = false.
Proof.
  intros Hi. assert (Hlt : (i < length ps)%nat) by (by eapply lookup_lt_Some). split.
  - destruct (filter _ _) as [|q l] eqn:E; [done|]. intros _.
    assert (Hq : q ∈ filter (λ q, Player.disconnected q = false)
                       (<[i := setDisconnected true p]> ps)) by (rewrite E; by left).
    apply list_elem_of_filter in Hq as [Hd [j Hj]%list_elem_of_lookup_1].
    destruct (decide (j = i)) as [->|Hji].
    + rewrite list_lookup_insert_eq in Hj by done. injection Hj as <-. discriminate Hd.
    + rewrite list_lookup_insert_ne in Hj by done. by exists j, q.
  - intros (j & q & Hji & Hj & Hd) E.
    assert (Hq : q ∈ filter (λ q, Player.disconnected q = false)
                       (<[i := setDisconnected true p]> ps)).
    { apply list_elem_of_filter. split; [done|].
      apply (list_elem_of_lookup_2 _ j). by rewrite list_lookup_insert_ne. }
    rewrite E in Hq. by apply elem_of_nil in Hq.
Qed.

(** X6. Disconnecting and coming back. When the socket of a listed player
    closes, the handler flags the entry disconnected and tells the players
    still connected; it arms the removal only once that is through, and it
    throws instead exactly when a removal is pending in the room and
    somebody else is there to be told. Either way, when a new socket, with
    an id not in the room, then joins under that player's name (the first
    player of that name), the room is as before the disconnection except
    that the player's entry carries the new socket id (and the new avatar,
    if one is sent), is neither flagged disconnected nor pending removal,
    and the host id follows: score, guessed flag, position and player count
    are kept. *)
Theorem disconnect_rejoin_round_trip (sid sid' roomId avatar : string)
    (game : Game.t) (srv : Server) (i : nat) (p : Player.t) :
  findById sid (Game.players game) = Some (i, p) →
  findById sid' (Game.players game) = None →
  findByName (Player.name p) (Game.players game) = Some (i, p) →
  ∃ g1 es err,
    markDisconnected sid game = Some (g1, es, err)
    ∧ (err = None ∨ err = Some RangeError)
    ∧ (err = Some RangeError
       ↔ pending (Game.players game) = true
         ∧ ∃ j q, j ≠ i ∧ Game.players game !! j = Some q
                  ∧ Player.disconnected q = false)
    ∧ g1 = Game.set_players
             (<[i := Player.mk sid (Player.name p) (Player.avatar p) (Player.score p)
                       (Player.guessed p) true
                       (match err with
                        | None => true
                        | Some _ => Player.disconnectTimeout p
                        end)]> (Game.players game))
             game
    ∧ (enterRoom sid' roomId (Player.name p) avatar g1 srv).1.1
      = setGame roomId
          (Game.set_hostId
             (if decide (Game.hostId game = sid) then sid' else Game.hostId game)
             (Game.set_players
                (<[i := Player.mk sid' (Player.name p)
                          (if decide (avatar = "") then Player.avatar p else avatar)
                          (Player.score p) (Player.guessed p) false false]>
                   (Game.players game))
                game))
          srv.
Proof.
  intros Hf Hfresh Hname.
  destruct (findById_lookup _ _ _ _ Hf) as [Hi Hp].
  pose proof (told_of_disconnection _ _ _ Hi) as Htold.
  assert (Hrun : ∃ es err,
            markDisconnected sid game
            = Some (Game.set_players
                      (<[i := Player.mk sid (Player.name p) (Player.avatar p)
                                (Player.score p) (Player.guessed p) true
                                (match err with
                                 | None => true
                                 | Some _ => Player.disconnectTimeout p
                                 end)]> (Game.players game)) game, es, err)
            ∧ (err = None ∨ err = Some RangeError)
            ∧ (err = Some RangeError
               ↔ pending (Game.players game) = true
                 ∧ ∃ j q, j ≠ i ∧ Game.players game !! j = Some q
                          ∧ Player.disconnected q = false)).
  { unfold markDisconnected. rewrite Hf. cbv zeta. rewrite emitAll_views.
    game_fields.
    assert (Hpend : pending (<[i := setDisconnected true p]> (Game.players game))
                    = pending (Game.players game)).
    { apply pending_same. rewrite list_fmap_insert. apply list_insert_id.
      by rewrite list_lookup_fmap, Hi. }
    rewrite Hpend.
    destruct (pending (Game.players game)) eqn:Hpd; cbn [andb].
    - destruct (decide (filter (λ q, Player.disconnected q = false)
                          (<[i := setDisconnected true p]> (Game.players game)) = []))
        as [Hnil|Hsome].
      + rewrite bool_decide_false by (by intros H; apply H).
        eexists _, None. rewrite list_insert_insert_eq.
        split; [by rewrite <- Hp|]. split; [by left|].
        split; [done|]. intros [_ Hex]. by apply Htold in Hex.
      + rewrite bool_decide_true by done. eexists _, (Some RangeError).
        split; [by rewrite <- Hp|]. split; [by right|].
        split; [|done]. intros _. split; [done|]. by apply Htold.
    - eexists _, None. rewrite list_insert_insert_eq.
      split; [by rewrite <- Hp|]. split; [by left|]. split; [done|]. by intros [? _]. }
  destruct Hrun as (es & err & Hrun & Herr & Hiff).
  eexists _, es, err. split; [exact Hrun|]. split; [exact Herr|].
  split; [exact Hiff|]. split; [reflexivity|].
  set (pt := Player.mk sid (Player.name p) (Player.avatar p) (Player.score p)
               (Player.guessed p) true _).
  rewrite enterRoom_server. f_equal.
  unfold joinedRoom, findExisting. cbn [Game.players Game.set_players].
  assert (Hids : Player.id <$> <[i := pt]> (Game.players game)
                 = Player.id <$> Game.players game)
    by (by apply (ids_insert _ _ p)).
  assert (Hn1 : findById sid' (<[i := pt]> (Game.players game)) = None).
  { apply findById_None. rewrite Hids. by apply findById_None. }
  assert (Hn2 : findByName (Player.name p) (<[i := pt]> (Game.players game))
                = Some (i, pt)) by (by apply (findByName_insert_same _ _ _ p)).
  rewrite Hn1, Hn2. cbn. rewrite list_insert_insert_eq.
  destruct (decide (Game.hostId game = sid)) as [Hh|Hh].
  - rewrite ?decide_True by done. done.
  - rewrite ?decide_False by done. symmetry. by apply set_hostId_same.
Qed.

Lemma disconnect_rejoin_round_trip_witness :
  ∃ g1 es err,
    markDisconnected "B" pendingRoom = Some (g1, es, err)
    ∧ err = Some RangeError
    ∧ (λ g, (Player.id <$> Game.players g, Player.score <$> Game.players g,
             Player.disconnected <$> Game.players g))
        <$> games (enterRoom "B2" "r1" "bob" "" g1 pendingServer).1.1 !! "r1"
      = Some (["A"; "B2"; "C"], [50; 0; 500], [false; false; true]).
Proof.
  destruct (disconnect_rejoin_round_trip "B" "B2" "r1" "" pendingRoom pendingServer
              1%nat (Player.mk "B" "bob" defaultAvatar 0 false false false)
              eq_refl eq_refl eq_refl) as (g1 & es & err & H1 & _ & Hiff & _ & H3).
  exists g1, es, err. split; [exact H1|]. split.
  - apply Hiff. split; [reflexivity|].
    by exists 0%nat, (Player.mk "A" "alice" defaultAvatar 50 false false false).
  - cbn [Player.name] in H3. rewrite H3. cbn [setGame games].
    by rewrite lookup_insert_eq.
Defined.

(** ** Who is handed what *)

Lemma in_delivered (srv : Server) (sid : string) (e : Emit) (es : list Emit) :
  e ∈ es → receives srv sid e = true → payload e ∈ delivered srv sid es.
Proof.
  intros He Hr. unfold delivered. apply list_elem_of_fmap_2.
  by apply list_elem_of_filter.
Qed.

Lemma isDrawer_Some (g : Game.t) (d : string) :
  isDrawer g d = true → ∃ p, drawerOf g = Some p ∧ Player.id p = d.
Proof.
  unfold isDrawer. destruct (drawerOf g) as [p|]; [|discriminate].
  intros ?%bool_decide_eq_true. eauto.
Qed.

(** X7. The private channel of a player can be joined by anyone who knows
    that player's socket id. A ['join-room'] naming the drawer's socket id
    [d] as room id, for which no room exists ([d] being no name of
    [Object.prototype]), is refused and adds no player anywhere, yet when
    the drawer then selects a word, no removal being pending in the room,
    the sender [x] is handed the drawer's own view, with the word in
    clear. *)
Theorem private_channel_can_be_joined (x d roomId username avatar w : string)
    (srv : Server) (game : Game.t) :
  games srv !! roomId = Some game →
  isDrawer game d = true →
  pending (Game.players game) = false →
  games srv !! d = None →
  inherited d = false →
  let srv1 := (join_room x d username None avatar srv).1.1 in
  let r := select_word d roomId w srv1 in
  (join_room x d username None avatar srv).1.2 = [mkEmit (SocketEmit x) JoinError]
  ∧ games srv1 = games srv
  ∧ r.2 = None
  ∧ ∃ v, GameUpdate v ∈ delivered r.1.1 x r.1.2 ∧ Game.currentWord v = w.
Proof.
  intros Hg Hd Hq Hnone Hown srv1 r.
  assert (Hsrv1 : join_room x d username None avatar srv
                  = (socketJoin x d srv, [mkEmit (SocketEmit x) JoinError], None)).
  { unfold join_room. cbn [socketJoin games]. by rewrite Hnone, Hown. }
  unfold r, srv1. rewrite Hsrv1. cbn [fst snd].
  split; [done|]. split; [done|].
  destruct (isDrawer_Some _ _ Hd) as (p & Hp & Hid).
  unfold select_word. cbn [socketJoin games]. rewrite Hg, Hd.
  pose proof (startRound_fields roomId w game) as (Hst & Hw & _ & _ & Hps & Hdi).
  destruct (startRound_quiet roomId w game Hq) as (Herr & Hes & _).
  destruct (startRound roomId w game) as [[g' es] err]. cbn [fst snd] in *.
  split; [done|].
  assert (Hdr : drawerOf g' = Some p) by (unfold drawerOf; by rewrite Hps, Hdi).
  exists (getPublicState g' d). split.
  - change (GameUpdate (getPublicState g' d))
      with (payload (mkEmit (IoTo d) (GameUpdate (getPublicState g' d)))).
    apply in_delivered.
    + rewrite Hes. apply elem_of_app. left. rewrite <- Hid.
      apply in_broadcast. rewrite Hps.
      destruct (drawerOf_Some _ _ Hp) as [_ Hl]. by eapply list_elem_of_lookup_2.
    + unfold receives, inRoom, setGame, socketJoin. cbn.
      rewrite lookup_insert_eq. cbn.
      rewrite (bool_decide_true (x ∈ _)) by set_solver. apply orb_true_r.
  - rewrite <- Hid. rewrite getPublicState_drawer by done. exact Hw.
Qed.

Lemma private_channel_can_be_joined_witness :
  ∃ v, GameUpdate v
         ∈ delivered
             (select_word "A" "r1" "cat"
                (join_room "C" "A" "carol" None "" selectingServer).1.1).1.1
             "C"
             (select_word "A" "r1" "cat"
                (join_room "C" "A" "carol" None "" selectingServer).1.1).1.2
       ∧ Game.currentWord v = "cat".
Proof.
  destruct (private_channel_can_be_joined "C" "A" "r1" "carol" "" "cat"
              selectingServer selectingRoom selectingServer_room eq_refl eq_refl)
    as (_ & _ & _ & H).
  - vm_compute. reflexivity.
  - vm_compute. reflexivity.
  - exact H.
Defined.


(** ** Removal, case by case *)

Lemma NoDup_delete_notin {A : Type} (l : list A) (i : nat) (x : A) :
  NoDup l → l !! i = Some x → x ∉ delete i l.
Proof.
  intros Hnd Hi. rewrite delete_take_drop.
  rewrite <- (take_drop_middle l i x Hi) in Hnd.
  apply NoDup_app in Hnd as (_ & H1 & H2%NoDup_cons).
  intros [Hx|Hx]%elem_of_app.
  - apply (H1 x Hx). by left.
  - by destruct H2.
Qed.

(** X8. Removing a player removes that player and nobody else: in the room
    that remains, the ids and names of the players are those of the room
    before, in the same order, without the removed entry; no room remains
    only when nobody is left. With pairwise distinct ids, the removed id is
    gone from the room. *)
Theorem removal_keeps_the_others (opts : list string) (roomId playerId : string)
    (srv : Server) (game : Game.t) (i : nat) (player : Player.t) :
  games srv !! roomId = Some game →
  findById playerId (Game.players game) = Some (i, player) →
  let srv' := (handlePlayerRemove opts roomId playerId srv).1.1 in
  match games srv' !! roomId with
  | None => delete i (Game.players game) = []
  | Some g' =>
      (λ p, (Player.id p, Player.name p)) <$> Game.players g'
      = (λ p, (Player.id p, Player.name p)) <$> delete i (Game.players game)
      ∧ (NoDup (Player.id <$> Game.players game) →
         playerId ∉ Player.id <$> Game.players g')
  end.
Proof.
  intros Hg Hf srv'.
  destruct (findById_lookup _ _ _ _ Hf) as [Hi Hid].
  pose proof (handlePlayerRemove_shape opts roomId playerId srv game i player Hg Hf)
    as Hshape. cbv zeta in Hshape. fold srv' in Hshape.
  set (g0 := Game.set_players (delete i (Game.players game)) game) in Hshape.
  set (g1 := if Z.of_nat i <? Game.drawerIndex game
             then Game.set_drawerIndex (Game.drawerIndex game - 1) g0 else g0) in Hshape.
  assert (Hp1 : Game.players g1 = delete i (Game.players game))
    by (unfold g1; by destruct (Z.of_nat i <? Game.drawerIndex game)).
  destruct (delete i (Game.players game)) as [|first rest] eqn:Hrem.
  { rewrite Hshape. cbn. by rewrite lookup_delete_eq. }
  destruct Hshape as (g' & -> & Hcases). cbn [setGame games].
  rewrite lookup_insert_eq.
  set (gh := if decide (Game.hostId game = playerId)
             then Game.set_hostId (Player.id first) g1 else g1) in Hcases.
  assert (Hph : Game.players gh = first :: rest)
    by (unfold gh; by destruct (decide _)).
  assert (Hkeep : (λ p, (Player.id p, Player.name p)) <$> Game.players g'
                  = (λ p, (Player.id p, Player.name p)) <$> first :: rest).
  { destruct Hcases as [(_ & -> & ->)|(_ & [(_ & _ & ->)|(_ & [->| [_ ->]])])].
    - done.
    - rewrite nextTurn_players_fmap by done. cbn. by rewrite Hph.
    - by rewrite Hph.
    - rewrite nextTurn_players_fmap by done. by rewrite Hph. }
  split; [exact Hkeep|].
  intros Hnd.
  assert (Hids : Player.id <$> Game.players g' = Player.id <$> first :: rest).
  { apply (f_equal (fmap fst)) in Hkeep.
    by rewrite <- !list_fmap_compose in Hkeep. }
  rewrite Hids, <- Hrem, list_fmap_delete.
  apply NoDup_delete_notin; [done|]. by rewrite list_lookup_fmap, Hi, <- Hid.
Qed.

Lemma removal_keeps_the_others_witness :
  (λ g, Player.id <$> Game.players g)
    <$> games (handlePlayerRemove [] "r1" "B" drawingServer).1.1 !! "r1"
  = Some ["A"; "C"].
Proof.
  pose proof (removal_keeps_the_others [] "r1" "B" drawingServer drawingRoom 1%nat
                (Player.mk "B" "bob" defaultAvatar 0 false false false)
                drawingServer_room eq_refl) as H.
  cbv zeta in H.
  destruct (games (handlePlayerRemove [] "r1" "B" drawingServer).1.1 !! "r1") as [g'|];
    [|discriminate H].
  destruct H as [H _]. cbn.
  apply (f_equal (fmap fst)) in H. rewrite <- !list_fmap_compose in H.
  f_equal. exact H.
Defined.

(** X9. A drawer who leaves during word selection can leave the room
    without a drawer: when the removed player is the drawer, is the last of
    the list, the phase is SELECTING and at least two players remain, the
    room stays in SELECTING with its timer, [drawerIndex] names nobody, and
    every ['select-word'] is ignored. *)
Theorem drawer_leaving_during_selection (opts : list string)
    (roomId playerId : string) (srv : Server) (game : Game.t) (i : nat)
    (player : Player.t) :
  games srv !! roomId = Some game →
  findById playerId (Game.players game) = Some (i, player) →
  Z.of_nat i = Game.drawerIndex game →
  S i = length (Game.players game) →
  Game.status game = SELECTING →
  (2 ≤ length (delete i (Game.players game)))%nat →
  let srv' := (handlePlayerRemove opts roomId playerId srv).1.1 in
  ∃ g', games srv' !! roomId = Some g'
    ∧ Game.status g' = SELECTING
    ∧ Game.timer g' = Game.timer game
    ∧ Game.players g' = delete i (Game.players game)
    ∧ drawerOf g' = None
    ∧ ∀ sid w, select_word sid roomId w srv' = (srv', [], None).
Proof.
  intros Hg Hf Hdi Hlast Hst Hn srv'.
  pose proof (handlePlayerRemove_shape opts roomId playerId srv game i player Hg Hf)
    as Hshape. cbv zeta in Hshape. fold srv' in Hshape.
  set (g0 := Game.set_players (delete i (Game.players game)) game) in Hshape.
  set (g1 := if Z.of_nat i <? Game.drawerIndex game
             then Game.set_drawerIndex (Game.drawerIndex game - 1) g0 else g0) in Hshape.
  assert (Hg1 : g1 = g0).
  { unfold g1. destruct (Z.ltb_spec (Z.of_nat i) (Game.drawerIndex game)); [lia|done]. }
  assert (Hlen : length (delete i (Game.players game)) = i)
    by (rewrite length_delete; [lia|apply lookup_lt_is_Some; lia]).
  destruct (delete i (Game.players game)) as [|first rest] eqn:Hrem;
    [cbn in Hn; lia|].
  destruct Hshape as (g' & Hsrv & Hcases).
  set (gh := if decide (Game.hostId game = playerId)
             then Game.set_hostId (Player.id first) g1 else g1) in Hcases.
  assert (Hgh : g' = gh).
  { destruct Hcases as [(_ & -> & _)|(_ & [(_ & Hd & _)|(_ & [->| [Hd _]])])];
      [cbn in Hn; lia|congruence|done|congruence]. }
  assert (Hfields : Game.status gh = SELECTING ∧ Game.timer gh = Game.timer game
                    ∧ Game.players gh = first :: rest
                    ∧ Game.drawerIndex gh = Z.of_nat i).
  { unfold gh. rewrite Hg1. destruct (decide _); cbn; by rewrite Hdi. }
  destruct Hfields as (H1 & H2 & H3 & H4).
  assert (Hnone : drawerOf gh = None).
  { unfold drawerOf, playerAt. rewrite H3, H4.
    destruct (Z.ltb_spec (Z.of_nat i) 0); [done|].
    rewrite Nat2Z.id. apply lookup_ge_None. lia. }
  exists g'. rewrite Hsrv. cbn [setGame games]. rewrite lookup_insert_eq.
  subst g'. repeat split; try done.
  intros sid w. unfold select_word. cbn [games setGame]. rewrite lookup_insert_eq.
  unfold isDrawer. by rewrite Hnone.
Qed.

Lemma drawer_leaving_during_selection_witness :
  ∃ g', games (handlePlayerRemove [] "r1" "C" lastDrawerServer).1.1 !! "r1" = Some g'
    ∧ Game.status g' = SELECTING
    ∧ Game.drawerIndex g' = 2
    ∧ length (Game.players g') = 2%nat.
Proof.
  destruct (drawer_leaving_during_selection [] "r1" "C" lastDrawerServer lastDrawerRoom
              2%nat (Player.mk "C" "carol" defaultAvatar 0 false true true))
    as (g' & H1 & H2 & _ & H4 & _).
  - reflexivity.
  - reflexivity.
  - reflexivity.
  - reflexivity.
  - reflexivity.
  - cbn. lia.
  - exists g'. split; [exact H1|]. split; [exact H2|].
    assert (Hroom : games (handlePlayerRemove [] "r1" "C" lastDrawerServer).1.1 !! "r1"
                    = Some (Game.mk "r1" SELECTING
                              [Player.mk "A" "alice" defaultAvatar 0 false false false;
                               Player.mk "B" "bob" defaultAvatar 0 false false false]
                              2 "" ["cat"; "dog"; "owl"] 2 1 60 12
                              (Some SelectionTimer) "A"))
      by (vm_compute; reflexivity).
    rewrite Hroom in H1. injection H1 as <-. by split.
Defined.

(** ** Chat *)

(** X10. How the ['chat-message'] handler ends. It throws a [TypeError]
    exactly when a listed player not yet flagged guessed sends the right
    word to a room in DRAWING phase whose [drawerIndex] names nobody. It
    throws a [RangeError] exactly when such a player sends the right word
    to such a room whose drawer is somebody else, while a removal is
    pending in the room. In every other case it returns. *)
Theorem chat_message_throws_iff (opts : list string) (sid : string)
    (data : ChatData) (srv : Server) :
  let err := (chat_message opts sid data srv).2 in
  (err = Some TypeError
   ↔ ∃ game i player,
       games srv !! chatRoomId data = Some game
       ∧ Game.status game = DRAWING
       ∧ isCorrectGuess (chatText data) (Game.currentWord game) = true
       ∧ findById sid (Game.players game) = Some (i, player)
       ∧ Player.guessed player = false
       ∧ drawerOf game = None)
  ∧ (err = Some RangeError
     ↔ ∃ game i player drawer,
         games srv !! chatRoomId data = Some game
         ∧ Game.status game = DRAWING
         ∧ isCorrectGuess (chatText data) (Game.currentWord game) = true
         ∧ findById sid (Game.players game) = Some (i, player)
         ∧ Player.guessed player = false
         ∧ drawerOf game = Some drawer
         ∧ Player.id player ≠ Player.id drawer
         ∧ pending (Game.players game) = true)
  ∧ (err = None ∨ err = Some TypeError ∨ err = Some RangeError).
Proof.
  intros err. unfold err. clear err.
  destruct (games srv !! chatRoomId data) as [game|] eqn:Hg.
  2: { unfold chat_message. rewrite Hg. cbn [snd].
       split; [|split; [|by left]];
         (split; [done|]); [intros (? & ? & ? & ? & _)|intros (? & ? & ? & ? & ? & _)];
         done. }
  destruct (decide (Game.status game = DRAWING)) as [Hs|Hs].
  2: { rewrite (chat_message_echo _ _ _ _ game) by (done || by left). cbn [snd].
       split; [|split; [|by left]]; (split; [done|]).
       - intros (g & ? & ? & Hg' & ? & _). congruence.
       - intros (g & ? & ? & ? & Hg' & ? & _). congruence. }
  destruct (isCorrectGuess (chatText data) (Game.currentWord game)) eqn:Hc.
  2: { unfold chat_message. rewrite Hg, Hc, andb_false_r. cbn [snd].
       split; [|split; [|by left]]; (split; [done|]).
       - intros (g & ? & ? & Hg' & ? & ? & _). congruence.
       - intros (g & ? & ? & ? & Hg' & ? & ? & _). congruence. }
  destruct (findById sid (Game.players game)) as [[i player]|] eqn:Hf.
  2: { unfold chat_message. rewrite Hg, Hc, Hf, bool_decide_true by done. cbn [andb snd].
       split; [|split; [|by left]]; (split; [done|]).
       - intros (g & ? & ? & Hg' & ? & ? & ? & _). congruence.
       - intros (g & ? & ? & ? & Hg' & ? & ? & ? & _). congruence. }
  destruct (Player.guessed player) eqn:Hgu.
  { rewrite (chat_message_echo _ _ _ _ game) by (done || right; eauto). cbn [snd].
    split; [|split; [|by left]]; (split; [done|]).
    - intros (g & ? & ? & Hg' & ? & ? & ? & ? & _). congruence.
    - intros (g & ? & ? & ? & Hg' & ? & ? & ? & ? & _). congruence. }
  destruct (drawerOf game) as [drawer|] eqn:Hd.
  2: { unfold chat_message. rewrite Hg, Hc, Hf, Hgu, Hd, bool_decide_true by done.
       cbn [andb snd]. split; [|split; [|right; by left]].
       - split; [|done]. intros _. by exists game, i, player.
       - split; [done|]. intros (g & ? & ? & ? & Hg' & ? & ? & ? & ? & Hd' & _).
         congruence. }
  destruct (decide (Player.id player = Player.id drawer)) as [Heq|Hne].
  { unfold chat_message. rewrite Hg, Hc, Hf, Hgu, Hd, bool_decide_true by done.
    cbn [andb]. rewrite decide_True by done. cbn [snd].
    split; [|split; [|by left]]; (split; [done|]).
    - intros (g & ? & ? & Hg' & ? & ? & ? & ? & ?). congruence.
    - intros (g & ? & ? & d & Hg' & ? & ? & ? & ? & ? & ? & _). congruence. }
  rewrite (chat_message_accepted opts sid data srv game i player drawer) by done.
  destruct (pending (Game.players game)) eqn:Hp.
  - cbn [snd]. split; [|split; [|right; by right]].
    + split; [done|]. intros (g & ? & ? & Hg' & ? & ? & ? & ? & ?). congruence.
    + split; [|done]. intros _. by exists game, i, player, drawer.
  - assert (Hnone : ∀ a b : Outcome Server,
              a.2 = None → b.2 = None → ∀ c : bool, (if c then a else b).2 = None)
      by (by intros a b ? ? []).
    rewrite Hnone by done.
    split; [|split; [|by left]]; (split; [done|]).
    + intros (g & ? & ? & Hg' & ? & ? & ? & ? & ?). congruence.
    + intros (g & ? & ? & d & Hg' & ? & ? & ? & ? & ? & ? & ?). congruence.
Qed.

(** X11. Chat is not filtered for the word. Whatever its text, a message
    from the current drawer, or from a player already flagged guessed, is
    sent as it is to every connection in the room's channel, and changes
    nothing. *)
Theorem chat_word_not_filtered (opts : list string) (sid : string) (data : ChatData)
    (srv : Server) (game : Game.t) :
  games srv !! chatRoomId data = Some game →
  isDrawer game sid = true
  ∨ (∃ i p, findById sid (Game.players game) = Some (i, p) ∧ Player.guessed p = true) →
  chat_message opts sid data srv
  = (srv, [mkEmit (IoTo (chatRoomId data)) (ChatMessage data)], None)
  ∧ ∀ conn, inRoom srv conn (chatRoomId data) = true →
      delivered srv conn [mkEmit (IoTo (chatRoomId data)) (ChatMessage data)]
      = [ChatMessage data].
Proof.
  intros Hg Hwho. split.
  - destruct Hwho as [Hd|Hguessed]; [|by apply chat_message_echo with (game := game); eauto].
    destruct (isDrawer_Some _ _ Hd) as (d & Hdr & Hid).
    destruct (drawerOf_Some _ _ Hdr) as [_ Hl].
    assert (Hin : is_Some (findById sid (Game.players game))).
    { unfold findById. apply (list_find_elem_of _ _ d); [|done].
      by eapply list_elem_of_lookup_2. }
    destruct Hin as [[i p] Hf]. destruct (findById_lookup _ _ _ _ Hf) as [_ Hp].
    unfold chat_message. rewrite Hg, Hf, Hdr.
    destruct (_ && _); [|done].
    destruct (Player.guessed p); [done|].
    rewrite decide_True by congruence. done.
  - intros conn Hin. unfold delivered.
    rewrite filter_cons_True by (by cbn). done.
Qed.

Lemma chat_word_not_filtered_witness :
  ChatMessage (mkChat "r1" "alice" "cat")
    ∈ delivered drawingServer "C"
        [mkEmit (IoTo "r1") (ChatMessage (mkChat "r1" "alice" "cat"))].
Proof.
  destruct (chat_word_not_filtered [] "A" (mkChat "r1" "alice" "cat") drawingServer
              drawingRoom drawingServer_room) as [_ H].
  - by left.
  - cbn [chatRoomId] in H. rewrite (H "C"); [by left|]. vm_compute. reflexivity.
Defined.


(** ** A correct guess *)

Lemma guessPoints_ge (timeLeft drawTime : Z) : 10 ≤ guessPoints timeLeft drawTime.
Proof. unfold guessPoints. lia. Qed.






(** ** Rooms are apart *)

Lemma setGame_lookup_ne (roomId other : string) (g : Game.t) (srv : Server) :
  other ≠ roomId → games (setGame roomId g srv) !! other = games srv !! other.
Proof. intros Hne. cbn. by rewrite lookup_insert_ne. Qed.

Lemma handlePlayerRemove_lookup_ne (opts : list string) (roomId playerId other : string)
    (srv : Server) :
  other ≠ roomId →
  games (handlePlayerRemove opts roomId playerId srv).1.1 !! other = games srv !! other.
Proof.
  intros Hne.
  destruct (games srv !! roomId) as [game|] eqn:Hg;
    [|by unfold handlePlayerRemove; rewrite Hg].
  destruct (findById playerId (Game.players game)) as [[i player]|] eqn:Hf;
    [|by unfold handlePlayerRemove; rewrite Hg, Hf].
  pose proof (handlePlayerRemove_shape opts roomId playerId srv game i player Hg Hf)
    as Hshape. cbv zeta in Hshape.
  destruct (delete i (Game.players game)).
  - rewrite Hshape. cbn. by rewrite lookup_delete_ne.
  - destruct Hshape as (g' & -> & _). by apply setGame_lookup_ne.
Qed.

(** X12. Every handler reads and writes the one room it is about: a
    ['join-room'], ['start-game'], ['select-word'] or ['chat-message'], a
    timer firing, a removal or the end of a grace period for room [roomId]
    leaves every other room as it was. *)
Theorem handlers_touch_one_room (roomId other : string) (srv : Server) :
  other ≠ roomId →
  (∀ sid username config avatar,
     games (join_room sid roomId username config avatar srv).1.1 !! other
     = games srv !! other)
  ∧ (∀ opts sid config,
       games (start_game opts sid roomId config srv).1.1 !! other = games srv !! other)
  ∧ (∀ sid word,
       games (select_word sid roomId word srv).1.1 !! other = games srv !! other)
  ∧ (∀ opts sid data,
       chatRoomId data = roomId →
       games (chat_message opts sid data srv).1.1 !! other = games srv !! other)
  ∧ (∀ opts r,
       timerTick opts roomId srv = Some r →
       games r.1.1 !! other = games srv !! other)
  ∧ (∀ opts playerId,
       games (handlePlayerRemove opts roomId playerId srv).1.1 !! other
       = games srv !! other)
  ∧ (∀ opts playerId,
       games (graceExpiry opts roomId playerId srv).1.1 !! other = games srv !! other).
Proof.
  intros Hne. repeat split.
  - intros sid username config avatar. unfold join_room.
    cbn [socketJoin games].
    destruct (games srv !! roomId); [|destruct (inherited roomId); [|destruct config]];
      try done; by rewrite enterRoom_server, setGame_lookup_ne.
  - intros opts sid config. unfold start_game.
    destruct (games srv !! roomId); [|done].
    destruct (_ <? _)%nat; [done|].
    destruct (nextTurn _ _ _) as [[? ?] ?]. by apply setGame_lookup_ne.
  - intros sid word. unfold select_word.
    destruct (games srv !! roomId); [|done].
    destruct (isDrawer _ _); [|done].
    destruct (startRound _ _ _) as [[? ?] ?]. by apply setGame_lookup_ne.
  - intros opts sid data <-. unfold chat_message.
    destruct (games srv !! chatRoomId data); [|done].
    destruct (_ && _); [|done].
    destruct (findById _ _) as [[i p]|]; [|done].
    destruct (Player.guessed p); [done|].
    destruct (drawerOf _); [|done].
    destruct (decide _); [done|].
    destruct (emitAll _) as [e1 [err|]]; [by apply setGame_lookup_ne|].
    destruct (everyGuessed _); [destruct (nextTurn _ _ _) as [[? ?] ?]|];
      by apply setGame_lookup_ne.
  - intros opts r. unfold timerTick.
    destruct (games srv !! roomId) as [g|]; [|by intros [= <-]].
    destruct (Game.timer g) as [[]|]; [| |by intros [= <-]].
    + destruct (selectionTick roomId g) as [[[g' es] err]|]; [|discriminate].
      cbn. intros [= <-]. by apply setGame_lookup_ne.
    + destruct (roundTick opts roomId g) as [[? ?] ?]. intros [= <-].
      by apply setGame_lookup_ne.
  - intros opts playerId. by apply handlePlayerRemove_lookup_ne.
  - intros opts playerId. unfold graceExpiry.
    destruct (games srv !! roomId) as [g|]; [|done].
    destruct (findById _ _) as [[i p]|]; [|done].
    destruct (Player.disconnectTimeout p); [|done].
    by apply handlePlayerRemove_lookup_ne.
Qed.

Lemma handlers_touch_one_room_witness :
  games (start_game ["cat"; "dog"; "owl"] "A" "r1" None lobbyServer).1.1 !! "r2" = None.
Proof.
  destruct (handlers_touch_one_room "r1" "r2" lobbyServer) as (_ & H & _).
  - discriminate.
  - rewrite H. vm_compute. reflexivity.
Defined.


(** ** The word options *)

Lemma WORDS_NoDup : NoDup WORDS.
Proof.
  apply (bool_decide_eq_true_1 (NoDup WORDS)). vm_compute. reflexivity.
Qed.

Lemma WORDS_length : length WORDS = 210%nat.
Proof. reflexivity. Qed.

Lemma drawIndices_eq (len : nat) (draws indices : list nat) :
  drawIndices len draws indices =
  if (length indices <? 3)%nat && (length indices <? len)%nat then
    match draws with
    | [] => None
    | i :: rest =>
        drawIndices len rest (if decide (i ∈ indices) then indices else indices ++ [i])
    end
  else Some indices.
Proof. destruct draws; reflexivity. Qed.

Lemma drawIndices_spec (len : nat) (draws : list nat) :
  ∀ indices res,
    NoDup indices → Forall (λ i, (i < len)%nat) indices →
    Forall (λ i, (i < len)%nat) draws →
    (length indices ≤ 3 `min` len)%nat →
    drawIndices len draws indices = Some res →
    NoDup res ∧ Forall (λ i, (i < len)%nat) res ∧ length res = (3 `min` len)%nat.
Proof.
  induction draws as [|i rest IH]; intros indices res Hnd Hlt Hdr Hlen; rewrite drawIndices_eq.
  - destruct (andb _ _) eqn:Hc; [done|]. intros [= <-].
    apply andb_false_iff in Hc as [Hc|Hc]; apply Nat.ltb_ge in Hc;
      (split; [done|split; [done|lia]]).
  - destruct (andb _ _) eqn:Hc.
    + apply andb_true_iff in Hc as [Hc1%Nat.ltb_lt Hc2%Nat.ltb_lt].
      apply Forall_cons in Hdr as [Hi Hrest].
      destruct (decide (i ∈ indices)) as [Hin|Hin]; apply IH; try done.
      * apply NoDup_app. split; [done|]. split; [|apply NoDup_singleton].
        intros x Hx ->%list_elem_of_singleton. done.
      * apply Forall_app. split; [done|]. by apply Forall_singleton.
      * rewrite length_app. cbn [length]. lia.
    + intros [= <-].
      apply andb_false_iff in Hc as [Hc|Hc]; apply Nat.ltb_ge in Hc;
        (split; [done|split; [done|lia]]).
Qed.

Lemma drawIndices_progress (len : nat) (draws : list nat) :
  ∀ indices,
    NoDup indices →
    (3 `min` len ≤ size (list_to_set (indices ++ draws) : gset nat))%nat →
    is_Some (drawIndices len draws indices).
Proof.
  induction draws as [|i rest IH]; intros indices Hnd Hsz; rewrite drawIndices_eq.
  - destruct (andb _ _) eqn:Hc; [|by eexists].
    apply andb_true_iff in Hc as [Hc1%Nat.ltb_lt Hc2%Nat.ltb_lt].
    rewrite app_nil_r, size_list_to_set in Hsz by done. lia.
  - destruct (andb _ _) eqn:Hc; [|by eexists].
    destruct (decide (i ∈ indices)) as [Hin|Hin]; apply IH; try done.
    + replace (list_to_set (indices ++ rest) : gset nat)
        with (list_to_set (indices ++ i :: rest) : gset nat); [done|].
      rewrite !list_to_set_app_L, list_to_set_cons.
      assert (i ∈ (list_to_set indices : gset nat)) as Hi by by apply elem_of_list_to_set.
      apply set_eq; intros x. rewrite !elem_of_union, elem_of_singleton. split.
      * intros [Hx|[->|Hx]]; [by left|by left|by right].
      * intros [Hx|Hx]; [by left|by right; right].
    + apply NoDup_app. split; [done|]. split; [|apply NoDup_singleton].
      intros x Hx ->%list_elem_of_singleton. done.
    + by rewrite <- app_assoc.
Qed.

Lemma WORDS_at_inj (i j : nat) :
  (i < length WORDS)%nat → (j < length WORDS)%nat →
  default "" (WORDS !! i) = default "" (WORDS !! j) → i = j.
Proof.
  intros Hi Hj.
  destruct (lookup_lt_is_Some_2 _ _ Hi) as [x Hx].
  destruct (lookup_lt_is_Some_2 _ _ Hj) as [y Hy].
  rewrite Hx, Hy. cbn. intros <-.
  exact (NoDup_lookup _ _ _ _ WORDS_NoDup Hx Hy).
Qed.

(** X13. Whenever the random draws show three different indices,
    [get3Words] returns exactly three words, pairwise different and all of
    the word bank. *)
Theorem get3Words_three_distinct_words (draws : list nat) :
  Forall (λ i, (i < length WORDS)%nat) draws →
  (3 ≤ size (list_to_set draws : gset nat))%nat →
  ∃ words, get3Words draws = Some words
           ∧ length words = 3%nat ∧ NoDup words ∧ words ⊆ WORDS.
Proof.
  intros Hdr Hsz. unfold get3Words.
  destruct (drawIndices_progress (length WORDS) draws []) as [ix Hix].
  { apply NoDup_nil_2. }
  { cbn [app]. rewrite WORDS_length. cbn. lia. }
  rewrite Hix. cbn [fmap option_fmap option_map].
  destruct (drawIndices_spec (length WORDS) draws [] ix) as (Hnd & Hlt & Hlen);
    [apply NoDup_nil_2|done|done|cbn; lia|done|].
  eexists. split; [reflexivity|]. split; [|split].
  - rewrite length_fmap, Hlen, WORDS_length. reflexivity.
  - apply NoDup_fmap_2_strong; [|done].
    intros i j Hi Hj. rewrite Forall_forall in Hlt.
    apply WORDS_at_inj; by apply Hlt.
  - intros w (i & -> & Hi)%list_elem_of_fmap.
    rewrite Forall_forall in Hlt. apply Hlt in Hi.
    destruct (lookup_lt_is_Some_2 _ _ Hi) as [x Hx]. rewrite Hx. cbn.
    by eapply list_elem_of_lookup_2.
Qed.

Lemma get3Words_three_distinct_words_witness :
  ∃ words, get3Words [7; 7; 0; 7; 209]%nat = Some words
           ∧ length words = 3%nat ∧ NoDup words ∧ words ⊆ WORDS.
Proof.
  apply get3Words_three_distinct_words.
  - apply (bool_decide_eq_true_1 _). vm_compute. reflexivity.
  - apply (bool_decide_eq_true_1 _). vm_compute. reflexivity.
Defined.


(** ** The countdowns *)

Lemma startRound_set_timeLeft (roomId w : string) (x : Z) (g : Game.t) :
  startRound roomId w (Game.set_timeLeft x g) = startRound roomId w g.
Proof. reflexivity. Qed.

Lemma startRound_timer_not_selection (roomId w : string) (g : Game.t) :
  Game.timer (startRound roomId w g).1.1 ≠ Some SelectionTimer.
Proof. startRound_cases; game_fields; done. Qed.

Lemma selectionTick_running (roomId : string) (g : Game.t) :
  1 < Game.timeLeft g →
  selectionTick roomId g
  = Some (Game.set_timeLeft (Game.timeLeft g - 1) g,
          [TimerUpdate roomId (Game.timeLeft g - 1)], None).
Proof.
  intros Ht. unfold selectionTick. cbn [Game.timeLeft Game.set_timeLeft].
  destruct (Z.leb_spec (Game.timeLeft g - 1) 0); [lia|reflexivity].
Qed.

Lemma selectionTick_expiry (roomId w : string) (ws : list string) (g : Game.t) :
  Game.timeLeft g ≤ 1 → Game.wordOptions g = w :: ws →
  selectionTick roomId g
  = Some ((startRound roomId w g).1.1, Emitted <$> (startRound roomId w g).1.2,
          (startRound roomId w g).2).
Proof.
  intros Ht Hw. unfold selectionTick.
  cbn [Game.timeLeft Game.wordOptions Game.set_timeLeft].
  destruct (Z.leb_spec (Game.timeLeft g - 1) 0); [|lia].
  rewrite Hw, startRound_set_timeLeft. by destruct (startRound roomId w g) as [[? ?] ?].
Qed.

Lemma countdown_shift (roomId : string) (t n : nat) :
  TimerUpdate roomId (Z.of_nat (S t)) ::
    ((λ j, TimerUpdate roomId (Z.of_nat (S t - j))) <$> seq 1 n)
  = (λ j, TimerUpdate roomId (Z.of_nat (S (S t) - j))) <$> seq 1 (S n).
Proof.
  cbn [seq fmap list_fmap]. f_equal.
  rewrite <- (fmap_S_seq 1), <- list_fmap_compose.
  apply list_fmap_ext. intros _ j _. reflexivity.
Qed.

Lemma selectionTicks_running (roomId : string) (k : nat) :
  ∀ (t : nat) (g : Game.t),
    Game.timer g = Some SelectionTimer →
    Game.timeLeft g = Z.of_nat (S t) → (k ≤ t)%nat →
    selectionTicks k roomId g
    = Some (Game.set_timeLeft (Z.of_nat (S t - k)) g,
            (λ j, TimerUpdate roomId (Z.of_nat (S t - j))) <$> seq 1 k, None).
Proof.
  induction k as [|k IH]; intros t g Htm Ht Hk.
  - cbn [selectionTicks seq fmap list_fmap]. rewrite Nat.sub_0_r, <- Ht.
    by destruct g.
  - destruct t as [|t]; [lia|].
    cbn [selectionTicks]. rewrite selectionTick_running by lia.
    cbn [mbind option_bind].
    rewrite decide_True by exact Htm.
    rewrite (IH t) by (cbn [Game.timer Game.timeLeft Game.set_timeLeft]; (done || lia)).
    cbn [mbind option_bind]. rewrite Ht.
    replace (Z.of_nat (S (S t)) - 1) with (Z.of_nat (S t)) by lia.
    rewrite <- countdown_shift.
    replace (S (S t) - S k)%nat with (S t - k)%nat by lia. reflexivity.
Qed.

Lemma selectionTicks_expiry (roomId w : string) (ws : list string) (t : nat) :
  ∀ g : Game.t,
    Game.timer g = Some SelectionTimer →
    Game.wordOptions g = w :: ws →
    Game.timeLeft g = Z.of_nat (S t) →
    selectionTicks (S t) roomId g
    = Some ((startRound roomId w g).1.1,
            ((λ j, TimerUpdate roomId (Z.of_nat (S t - j))) <$> seq 1 t)
              ++ (Emitted <$> (startRound roomId w g).1.2),
            (startRound roomId w g).2).
Proof.
  induction t as [|t IH]; intros g Htm Hw Ht.
  - cbn [selectionTicks]. rewrite (selectionTick_expiry roomId w ws) by (done || lia).
    cbn [mbind option_bind]. rewrite decide_False by apply startRound_timer_not_selection.
    reflexivity.
  - change (selectionTicks (S (S t)) roomId g)
      with ('(g1, e1, err1) ← selectionTick roomId g;
            if decide (Game.timer g1 = Some SelectionTimer) then
              '(g2, e2, err2) ← selectionTicks (S t) roomId g1; Some (g2, e1 ++ e2, err2)
            else Some (g1, e1, err1)).
    rewrite selectionTick_running by lia.
    cbn [mbind option_bind].
    rewrite decide_True by exact Htm.
    rewrite IH by (cbn [Game.timer Game.timeLeft Game.wordOptions Game.set_timeLeft];
                   (done || lia)).
    cbn [mbind option_bind]. rewrite startRound_set_timeLeft, Ht.
    replace (Z.of_nat (S (S t)) - 1) with (Z.of_nat (S t)) by lia.
    rewrite <- countdown_shift. reflexivity.
Qed.

(** X14. The selection countdown: with [S t] seconds left and at least one
    word offered, each of the first [t] firings of the interval only lowers
    the time left by one and tells the room; the firing after them starts
    the round on the first word offered, exactly as [startRound] would have
    on the room as it was, and throws what [startRound] throws there. *)
Theorem selection_times_out_on_first_option
    (roomId w : string) (ws : list string) (g : Game.t) (t : nat) :
  Game.timer g = Some SelectionTimer →
  Game.wordOptions g = w :: ws →
  Game.timeLeft g = Z.of_nat (S t) →
  (∀ k, (k ≤ t)%nat →
     selectionTicks k roomId g
     = Some (Game.set_timeLeft (Z.of_nat (S t - k)) g,
             (λ j, TimerUpdate roomId (Z.of_nat (S t - j))) <$> seq 1 k, None))
  ∧ selectionTicks (S t) roomId g
    = Some ((startRound roomId w g).1.1,
            ((λ j, TimerUpdate roomId (Z.of_nat (S t - j))) <$> seq 1 t)
              ++ (Emitted <$> (startRound roomId w g).1.2),
            (startRound roomId w g).2).
Proof.
  intros Htm Hw Ht. split.
  - intros k Hk. by apply selectionTicks_running.
  - by eapply selectionTicks_expiry.
Qed.

Lemma selection_times_out_on_first_option_witness :
  (∀ k, (k ≤ 11)%nat →
     selectionTicks k "r1" lastDrawerRoom
     = Some (Game.set_timeLeft (Z.of_nat (12 - k)) lastDrawerRoom,
             (λ j, TimerUpdate "r1" (Z.of_nat (12 - j))) <$> seq 1 k, None))
  ∧ selectionTicks 12 "r1" lastDrawerRoom
    = Some ((startRound "r1" "cat" lastDrawerRoom).1.1,
            ((λ j, TimerUpdate "r1" (Z.of_nat (12 - j))) <$> seq 1 11)
              ++ (Emitted <$> (startRound "r1" "cat" lastDrawerRoom).1.2),
            (startRound "r1" "cat" lastDrawerRoom).2).
Proof.
  apply (selection_times_out_on_first_option "r1" "cat" ["dog"; "owl"] lastDrawerRoom 11);
    reflexivity.
Defined.








(** ** What every reachable state satisfies *)

Lemma ServerInv_setGame (roomId : string) (g : Game.t) (srv : Server) :
  ServerInv srv → RoomInv roomId g → ServerInv (setGame roomId g srv).
Proof.
  intros Hs Hg r g'. cbn. destruct (decide (r = roomId)) as [->|Hne].
  - rewrite lookup_insert_eq. by intros [= <-].
  - rewrite lookup_insert_ne by done. apply Hs.
Qed.

Lemma ServerInv_deleteGame (roomId : string) (srv : Server) :
  ServerInv srv → ServerInv (deleteGame roomId srv).
Proof.
  intros Hs r g'. cbn. intros [_ H]%lookup_delete_Some. by apply Hs.
Qed.

Lemma ServerInv_games (srv srv' : Server) :
  games srv' = games srv → ServerInv srv → ServerInv srv'.
Proof. intros Hg Hs r g. rewrite Hg. apply Hs. Qed.

Lemma elem_of_insert_other {A : Type} (l : list A) (i : nat) (x y z : A) :
  x ∈ l → l !! i = Some y → x ≠ y → x ∈ <[i := z]> l.
Proof.
  intros [j Hj]%list_elem_of_lookup_1 Hi Hne.
  apply (list_elem_of_lookup_2 _ j). rewrite list_lookup_insert_ne; [done|].
  intros ->. congruence.
Qed.

Lemma elem_of_delete_other {A : Type} (l : list A) (i : nat) (x y : A) :
  x ∈ l → l !! i = Some y → x ≠ y → x ∈ delete i l.
Proof.
  intros [j Hj]%list_elem_of_lookup_1 Hi Hne.
  assert (j ≠ i) by (intros ->; congruence).
  destruct (decide (j < i)%nat).
  - apply (list_elem_of_lookup_2 _ j). by rewrite list_lookup_delete_lt.
  - apply (list_elem_of_lookup_2 _ (pred j)).
    rewrite list_lookup_delete_ge by lia.
    replace (S (pred j)) with j by lia. done.
Qed.

Lemma NoDup_insert_fresh {A : Type} (l : list A) (i : nat) (x : A) :
  NoDup l → x ∉ l → NoDup (<[i := x]> l).
Proof.
  intros Hnd Hx. revert i. induction l as [|a l IH]; intros i; [done|].
  apply NoDup_cons in Hnd as [Ha Hnd].
  apply not_elem_of_cons in Hx as [Hxa Hx].
  destruct i as [|i].
  - change (<[0%nat := x]> (a :: l)) with (x :: l). apply NoDup_cons. by split.
  - change (<[S i := x]> (a :: l)) with (a :: <[i := x]> l).
    apply NoDup_cons. split; [|by apply IH].
    intros Hin. destruct (decide (i < length l)%nat) as [Hlt|Hge].
    + destruct (lookup_lt_is_Some_2 _ _ Hlt) as [y Hy].
      apply list_elem_of_lookup_1 in Hin as [j Hj].
      destruct (decide (j = i)) as [->|Hji].
      * rewrite list_lookup_insert_eq in Hj by done. congruence.
      * rewrite list_lookup_insert_ne in Hj by done.
        apply Ha. by eapply list_elem_of_lookup_2.
    + rewrite list_insert_ge in Hin by lia. done.
Qed.

Lemma nextTurn_settings (opts : list string) (roomId : string) (g : Game.t) :
  let g' := (nextTurn opts roomId g).1.1 in
  Game.roomId g' = Game.roomId g ∧ Game.drawTime g' = Game.drawTime g
  ∧ Game.maxRounds g' = Game.maxRounds g
  ∧ ∀ t, Game.timer g' = Some t → timerOf (Game.status g') = Some t.
Proof.
  nextTurn_cases; game_fields; destruct (_ <=? _); game_fields;
    repeat split; try done; by intros t [= <-].
Qed.

Lemma nextTurn_drawerIndex (opts : list string) (roomId : string) (g : Game.t) :
  -1 ≤ Game.drawerIndex g → 0 ≤ Game.drawerIndex (nextTurn opts roomId g).1.1.
Proof.
  nextTurn_cases; game_fields; destruct (_ <=? _); game_fields; intros; lia.
Qed.

(** A room that differs from one with [RoomCore] in neither name, ids,
    host nor settings, and has no negative score, has [RoomCore]. *)
Lemma RoomCore_same (roomId : string) (g g' : Game.t) :
  RoomCore roomId g →
  Game.roomId g' = Game.roomId g →
  Player.id <$> Game.players g' = Player.id <$> Game.players g →
  Game.hostId g' = Game.hostId g →
  Game.drawTime g' = Game.drawTime g →
  Game.maxRounds g' = Game.maxRounds g →
  Forall (λ p, 0 ≤ Player.score p) (Game.players g') →
  RoomCore roomId g'.
Proof.
  intros [Hk Hown Hids Hne Hh Hdt Hmr Hsc] Ek Eids Eh Edt Emr Hsc'.
  split; [congruence|done|by rewrite Eids| |by rewrite Eids, Eh|congruence|congruence|done].
  intros Hnil. rewrite Hnil in Eids. cbn in Eids.
  symmetry in Eids. by apply fmap_nil_inv in Eids.
Qed.

Lemma nextTurn_core (opts : list string) (roomId r : string) (g : Game.t) :
  RoomCore roomId g → RoomCore roomId (nextTurn opts r g).1.1.
Proof.
  intros Hc. destruct (nextTurn_settings opts r g) as (Ek & Edt & Emr & _).
  apply (RoomCore_same roomId g); try done.
  - by apply nextTurn_players_fmap.
  - apply nextTurn_hostId.
  - assert (H : Forall (λ z, 0 ≤ z)
                  (Player.score <$> Game.players (nextTurn opts r g).1.1)).
    { rewrite nextTurn_scores. apply Forall_fmap. by destruct Hc. }
    rewrite Forall_fmap in H. exact H.
Qed.

Lemma nextTurn_inv (opts : list string) (roomId r : string) (g : Game.t) :
  RoomCore roomId g → -1 ≤ Game.drawerIndex g →
  RoomInv roomId (nextTurn opts r g).1.1.
Proof.
  intros Hc Hd. split.
  - by apply nextTurn_core.
  - by apply nextTurn_drawerIndex.
  - apply nextTurn_settings.
  - intros Hs. destruct (nextTurn_status opts r g); congruence.
Qed.

Lemma startRound_inv (roomId r word : string) (g : Game.t) :
  RoomCore roomId g → 0 ≤ Game.drawerIndex g →
  RoomInv roomId (startRound r word g).1.1.
Proof.
  intros Hc Hd.
  destruct (startRound_fields r word g) as (Hst & _ & _ & Htl & Hps & Hdi).
  split.
  - apply (RoomCore_same roomId g); [done|by startRound_cases|by rewrite Hps
      |by startRound_cases|by startRound_cases|by startRound_cases|].
    rewrite Hps. by destruct Hc.
  - by rewrite Hdi.
  - rewrite Hst. startRound_cases; game_fields; [done|]. by intros t [= <-].
  - intros _. left. rewrite Htl. by startRound_cases.
Qed.

Lemma insert_ne_nil {A : Type} (l : list A) (i : nat) (x : A) :
  l ≠ [] → <[i := x]> l ≠ [].
Proof.
  intros Hne Hnil. apply (f_equal length) in Hnil.
  rewrite length_insert in Hnil. by destruct l.
Qed.

Lemma findByName_lookup (username : string) (ps : list Player.t) (i : nat) (p : Player.t) :
  findByName username ps = Some (i, p) → ps !! i = Some p.
Proof. by intros (? & ? & _)%list_find_Some. Qed.

Lemma joinedRoom_inv (roomId sid username avatar : string) (game : Game.t) :
  RoomInv roomId game → RoomInv roomId (joinedRoom sid username avatar game).
Proof.
  intros [[Hk Hown Hids Hne Hh Hdt Hmr Hsc] Hd Htm Hcl].
  unfold joinedRoom, findExisting.
  destruct (findById sid (Game.players game)) as [[i p]|] eqn:Hid.
  - destruct (findById_lookup _ _ _ _ Hid) as [Hi Hp].
    assert (Eids : Player.id <$> <[i := Player.mk sid username
                     (if decide (avatar = "") then Player.avatar p else avatar)
                     (Player.score p) (Player.guessed p) false false]> (Game.players game)
                   = Player.id <$> Game.players game)
      by (by apply (ids_insert _ _ p)).
    assert (Hsc' : Forall (λ q, 0 ≤ Player.score q)
                     (<[i := Player.mk sid username
                        (if decide (avatar = "") then Player.avatar p else avatar)
                        (Player.score p) (Player.guessed p) false false]>
                        (Game.players game))).
    { apply Forall_insert; [done|]. cbn.
      by apply (Forall_lookup_1 _ _ _ _ Hsc Hi). }
    cbn [Game.hostId Game.set_players].
    destruct (decide (Game.hostId game = Player.id p)) as [Hhost|Hhost].
    + split; [|done|done|done].
      split; cbn; try done; try congruence. by apply insert_ne_nil.
    + split; [|done|done|done].
      split; cbn; try done; try congruence. by apply insert_ne_nil.
  - apply findById_None in Hid.
    destruct (findByName username (Game.players game)) as [[i p]|] eqn:Hnm.
    + apply findByName_lookup in Hnm as Hi.
      assert (Hlt : (i < length (Player.id <$> Game.players game))%nat)
        by (rewrite length_fmap; by eapply lookup_lt_Some).
      cbn [Game.hostId Game.set_players].
      destruct (decide (Game.hostId game = Player.id p)) as [Hhost|Hhost];
        (split; [|done|done|done]); split; cbn; try done.
      * rewrite list_fmap_insert. by apply NoDup_insert_fresh.
      * by apply insert_ne_nil.
      * rewrite list_fmap_insert. by apply list_elem_of_insert.
      * by apply Forall_insert; [|apply (Forall_lookup_1 _ _ _ _ Hsc Hi)].
      * rewrite list_fmap_insert. by apply NoDup_insert_fresh.
      * by apply insert_ne_nil.
      * rewrite list_fmap_insert.
        apply (elem_of_insert_other _ _ _ (Player.id p)); [done| |done].
        by rewrite list_lookup_fmap, Hi.
      * by apply Forall_insert; [|apply (Forall_lookup_1 _ _ _ _ Hsc Hi)].
    + split; [|done|done|done]. split; cbn; try done.
      * rewrite fmap_app. apply NoDup_app. split; [done|].
        split; [|apply NoDup_singleton].
        intros x Hx ->%list_elem_of_singleton. done.
      * by destruct (Game.players game).
      * rewrite fmap_app. apply elem_of_app. by left.
      * apply Forall_app. split; [done|]. by apply Forall_singleton.
Qed.

Lemma joinedRoom_newGame_inv (roomId sid username avatar : string) (c : Config) :
  inherited roomId = false →
  RoomInv roomId (joinedRoom sid username avatar (newGame roomId sid c)).
Proof.
  intros Hown.
  assert (Hor : ∀ o d, d ≠ 0 → Js.orNum o d ≠ 0).
  { intros [v|] d Hd; cbn; [|done]. by destruct (Z.eqb_spec v 0). }
  split; [|done|done|done]. split; cbn; try done.
  - apply NoDup_singleton.
  - apply list_elem_of_singleton. reflexivity.
  - by apply Hor.
  - by apply Hor.
  - by apply Forall_singleton.
Qed.

Lemma join_room_inv (sid roomId username : string) (config : option Config)
    (avatar : string) (srv : Server) :
  ServerInv srv → ServerInv (join_room sid roomId username config avatar srv).1.1.
Proof.
  intros Hs. unfold join_room.
  assert (Hs' : ServerInv (socketJoin sid roomId srv))
    by (by apply (ServerInv_games srv)).
  change (games (socketJoin sid roomId srv) !! roomId) with (games srv !! roomId).
  destruct (games srv !! roomId) as [game|] eqn:Hg.
  - rewrite enterRoom_server. apply ServerInv_setGame; [done|].
    apply joinedRoom_inv. by apply Hs.
  - destruct (inherited roomId) eqn:Hown; [done|].
    destruct config as [c|]; [|done].
    rewrite enterRoom_server. apply ServerInv_setGame; [done|].
    by apply joinedRoom_newGame_inv.
Qed.

Lemma handlePlayerRemove_inv (opts : list string) (roomId playerId : string)
    (srv : Server) :
  ServerInv srv → ServerInv (handlePlayerRemove opts roomId playerId srv).1.1.
Proof.
  intros Hs.
  destruct (games srv !! roomId) as [game|] eqn:Hg;
    [|by unfold handlePlayerRemove; rewrite Hg].
  destruct (findById playerId (Game.players game)) as [[i player]|] eqn:Hf;
    [|by unfold handlePlayerRemove; rewrite Hg, Hf].
  pose proof (handlePlayerRemove_shape opts roomId playerId srv game i player Hg Hf)
    as Hshape. cbv zeta in Hshape.
  destruct (Hs _ _ Hg) as [[Hk Hown Hids Hne Hh Hdt Hmr Hsc] Hd Htm Hcl].
  destruct (findById_lookup _ _ _ _ Hf) as [Hi Hp].
  destruct (delete i (Game.players game)) as [|first rest] eqn:Hdel.
  { rewrite Hshape. by apply ServerInv_deleteGame. }
  set (g0 := Game.set_players (first :: rest) game) in *.
  set (g1 := if Z.of_nat i <? Game.drawerIndex game
             then Game.set_drawerIndex (Game.drawerIndex game - 1) g0 else g0) in *.
  set (gh := if decide (Game.hostId game = playerId)
             then Game.set_hostId (Player.id first) g1 else g1) in *.
  assert (Hids' : NoDup (Player.id <$> first :: rest)).
  { rewrite <- Hdel, list_fmap_delete.
    exact (sublist_NoDup _ _ Hids (sublist_delete _ i)). }
  assert (Hsc' : Forall (λ p, 0 ≤ Player.score p) (first :: rest))
    by (rewrite <- Hdel; by apply Forall_delete).
  assert (Hg1 : Game.roomId g1 = roomId ∧ Game.players g1 = first :: rest
                ∧ Game.hostId g1 = Game.hostId game
                ∧ Game.drawTime g1 = Game.drawTime game
                ∧ Game.maxRounds g1 = Game.maxRounds game
                ∧ Game.status g1 = Game.status game
                ∧ Game.timer g1 = Game.timer game
                ∧ Game.timeLeft g1 = Game.timeLeft game
                ∧ 0 ≤ Game.drawerIndex g1).
  { subst g1 g0. destruct (Z.ltb_spec (Z.of_nat i) (Game.drawerIndex game));
      cbn; repeat split; (done || lia). }
  destruct Hg1 as (G1k & G1p & G1h & G1dt & G1mr & G1s & G1tm & G1tl & G1d).
  assert (Hgh : Game.roomId gh = roomId ∧ Game.players gh = first :: rest
                ∧ Game.hostId gh ∈ Player.id <$> first :: rest
                ∧ Game.drawTime gh = Game.drawTime game
                ∧ Game.maxRounds gh = Game.maxRounds game
                ∧ Game.status gh = Game.status game
                ∧ Game.timer gh = Game.timer game
                ∧ Game.timeLeft gh = Game.timeLeft game
                ∧ Game.drawerIndex gh = Game.drawerIndex g1).
  { subst gh. destruct (decide (Game.hostId game = playerId)) as [Hhost|Hhost].
    - cbn. repeat split; try done. apply list_elem_of_here.
    - repeat split; try done. rewrite G1h, <- Hdel, list_fmap_delete.
      apply (elem_of_delete_other _ _ _ playerId); [done| |done].
      by rewrite list_lookup_fmap, Hi, <- Hp. }
  destruct Hgh as (Gk & Gp & Gh & Gdt & Gmr & Gs & Gtm & Gtl & Gd).
  assert (Hcore : RoomCore roomId gh).
  { split; try congruence; rewrite ?Gp; done. }
  destruct Hshape as (g' & -> & Hcases).
  apply ServerInv_setGame; [done|].
  destruct Hcases as [(Hst & -> & ->)|[_ [(Hwas & Hst & ->)|[_ [->|[Hst ->]]]]]].
  - split; [|done|done|done]. split; cbn; try congruence.
    + apply NoDup_singleton.
    + apply list_elem_of_singleton. reflexivity.
    + apply Forall_singleton. cbn.
      apply Forall_cons in Hsc' as [Hfirst _]. lia.
  - apply nextTurn_inv.
    + apply (RoomCore_same roomId gh); try done.
      exact (core_scores _ _ Hcore).
    + cbn. lia.
  - split; [done|lia|by rewrite Gs, Gtm|]. rewrite Gs, Gtl, Gdt. done.
  - apply nextTurn_inv; [done|lia].
Qed.

Lemma start_game_inv (opts : list string) (sid roomId : string)
    (config : option Config) (srv : Server) :
  ServerInv srv → ServerInv (start_game opts sid roomId config srv).1.1.
Proof.
  intros Hs. unfold start_game.
  destruct (games srv !! roomId) as [game|] eqn:Hg; [|done].
  destruct (_ <? _)%nat; [done|].
  destruct (Hs _ _ Hg) as [[Hk Hown Hids Hne Hh Hdt Hmr Hsc] Hd Htm Hcl].
  assert (Hor : ∀ o d, d ≠ 0 → Js.orNum o d ≠ 0).
  { intros [v|] d Hd0; cbn; [|done]. by destruct (Z.eqb_spec v 0). }
  assert (Eids : Player.id <$> (Player.reset <$> Game.players game)
                 = Player.id <$> Game.players game).
  { rewrite <- list_fmap_compose. apply list_fmap_ext. by intros _ [] _. }
  match goal with |- context [nextTurn opts roomId ?g] =>
    pose proof (nextTurn_inv opts roomId roomId g) as Hn;
    destruct (nextTurn opts roomId g) as [[g' es] err] end.
  apply ServerInv_setGame; [done|]. apply Hn; [|cbn; lia].
  split; cbn; try done.
  - by rewrite Eids.
  - by destruct (Game.players game).
  - by rewrite Eids.
  - by apply Hor.
  - by apply Hor.
  - apply Forall_fmap, Forall_forall. by intros [] _.
Qed.

Lemma select_word_inv (sid roomId word : string) (srv : Server) :
  ServerInv srv → ServerInv (select_word sid roomId word srv).1.1.
Proof.
  intros Hs. unfold select_word.
  destruct (games srv !! roomId) as [game|] eqn:Hg; [|done].
  destruct (isDrawer game sid); [|done].
  pose proof (startRound_inv roomId roomId word game) as Hn.
  destruct (startRound roomId word game) as [[g' es] err].
  apply ServerInv_setGame; [done|].
  destruct (Hs _ _ Hg). by apply Hn.
Qed.

Lemma chat_message_inv (opts : list string) (sid : string) (data : ChatData)
    (srv : Server) :
  ServerInv srv → ServerInv (chat_message opts sid data srv).1.1.
Proof.
  intros Hs. unfold chat_message. cbv zeta.
  destruct (games srv !! chatRoomId data) as [game|] eqn:Hg; [|done].
  destruct (bool_decide (Game.status game = DRAWING)
            && isCorrectGuess (chatText data) (Game.currentWord game)); [|done].
  destruct (findById sid (Game.players game)) as [[i player]|] eqn:Hf; [|done].
  destruct (Player.guessed player); [done|].
  destruct (drawerOf game) as [drawer0|] eqn:Hdr; [|done].
  destruct (decide (Player.id player = Player.id drawer0)) as [|Hne0]; [done|].
  destruct (Hs _ _ Hg) as [[Hk Hown Hids Hne Hh Hdt Hmr Hsc] Hd Htm Hcl].
  destruct (findById_lookup _ _ _ _ Hf) as [Hi Hp].
  destruct (drawerOf_Some _ _ Hdr) as [_ Hdi].
  destruct (scoreGuess_players i player drawer0 game Hi Hdr Hne0) as [Hid Hsg].
  cbv zeta in Hid, Hsg.
  assert (Eids : Player.id <$> Game.players (scoreGuess i player game)
                 = Player.id <$> Game.players game).
  { rewrite Hsg. cbn [Game.players Game.set_players].
    rewrite (ids_insert _ _ drawer0); [|by rewrite list_lookup_insert_ne|done].
    by rewrite (ids_insert _ _ player). }
  assert (Hcore : RoomCore (chatRoomId data) (scoreGuess i player game)).
  { apply (RoomCore_same _ game); try done; try (by rewrite Hsg).
    rewrite Hsg. cbn [Game.players Game.set_players].
    pose proof (guessPoints_ge (Game.timeLeft game) (Game.drawTime game)).
    pose proof (Forall_lookup_1 _ _ _ _ Hsc Hi).
    pose proof (Forall_lookup_1 _ _ _ _ Hsc Hdi).
    apply Forall_insert; [apply Forall_insert; [done|]|]; cbn in *; lia. }
  assert (Hinv : RoomInv (chatRoomId data) (scoreGuess i player game)).
  { split; [done|by rewrite Hsg|by rewrite Hsg|by rewrite Hsg]. }
  destruct (emitAll _) as [e1 [err|]]; [by apply ServerInv_setGame|].
  destruct (everyGuessed _).
  - pose proof (nextTurn_inv opts (chatRoomId data) (chatRoomId data)
                  (scoreGuess i player game) Hcore) as Hn.
    destruct (nextTurn opts (chatRoomId data) (scoreGuess i player game))
      as [[g' e2] err2].
    apply ServerInv_setGame; [done|].
    apply Hn. rewrite Hsg. cbn. lia.
  - by apply ServerInv_setGame.
Qed.

Lemma timerOf_selection (s : Status) : timerOf s = Some SelectionTimer → s = SELECTING.
Proof. by destruct s. Qed.

Lemma timerOf_round (s : Status) : timerOf s = Some RoundTimer → s = DRAWING.
Proof. by destruct s. Qed.

Lemma timerTick_inv (opts : list string) (roomId : string) (srv : Server)
    (r : Server * list TimerEmit * option Error) :
  ServerInv srv → timerTick opts roomId srv = Some r → ServerInv r.1.1.
Proof.
  intros Hs. unfold timerTick.
  destruct (games srv !! roomId) as [g|] eqn:Hg; [|by intros [= <-]].
  destruct (Hs _ _ Hg) as [Hc Hd Htm Hcl].
  destruct (Game.timer g) as [[]|] eqn:Ht; [| |by intros [= <-]].
  - unfold selectionTick. cbn [Game.timeLeft Game.wordOptions Game.set_timeLeft].
    pose proof (Htm _ eq_refl) as Hst. apply timerOf_selection in Hst.
    assert (Hc' : RoomCore roomId (Game.set_timeLeft (Game.timeLeft g - 1) g))
      by (apply (RoomCore_same _ g); try done; by destruct Hc).
    destruct (_ <=? _).
    + destruct (Game.wordOptions g) as [|w ws]; [done|].
      pose proof (startRound_inv roomId roomId w
                    (Game.set_timeLeft (Game.timeLeft g - 1) g) Hc' Hd) as Hn.
      destruct (startRound roomId w _) as [[g' e'] err']. cbn.
      intros [= <-]. by apply ServerInv_setGame.
    + cbn. intros [= <-]. apply ServerInv_setGame; [done|].
      split; cbn; [done|done|by rewrite Ht, Hst; intros t [= <-]|congruence].
  - unfold roundTick. cbn [Game.timeLeft Game.currentWord Game.set_timeLeft].
    pose proof (Htm _ eq_refl) as Hst. apply timerOf_round in Hst.
    assert (Hc' : RoomCore roomId (Game.set_timeLeft (Game.timeLeft g - 1) g))
      by (apply (RoomCore_same _ g); try done; by destruct Hc).
    destruct (Z.leb_spec (Game.timeLeft g - 1) 0).
    + pose proof (nextTurn_inv opts roomId roomId
                    (Game.set_timeLeft (Game.timeLeft g - 1) g) Hc') as Hn.
      destruct (nextTurn opts roomId _) as [[g' e'] err'].
      intros [= <-]. apply ServerInv_setGame; [done|]. apply Hn. cbn. lia.
    + intros [= <-]. apply ServerInv_setGame; [done|].
      split; cbn; [done|done|by rewrite Ht, Hst; intros t [= <-]|].
      intros _. specialize (Hcl Hst). lia.
Qed.

Lemma markDisconnected_inv (roomId sid : string) (game : Game.t)
    (r : Outcome Game.t) :
  RoomInv roomId game → markDisconnected sid game = Some r → RoomInv roomId r.1.1.
Proof.
  intros [Hc Hd Htm Hcl]. unfold markDisconnected.
  destruct (findById sid (Game.players game)) as [[i p]|] eqn:Hf; [|done].
  destruct (findById_lookup _ _ _ _ Hf) as [Hi Hp].
  assert (Hsc : ∀ q, Player.id q = Player.id p → Player.score q = Player.score p →
                     RoomInv roomId (Game.set_players (<[i := q]> (Game.players game)) game)).
  { intros q Hq Hqs. split; [|done|done|done].
    apply (RoomCore_same _ game); try done.
    - cbn. apply (ids_insert _ _ p); [done|]. by rewrite Hq.
    - cbn. apply Forall_insert; [by destruct Hc|]. rewrite Hqs.
      by apply (Forall_lookup_1 _ _ _ _ (core_scores _ _ Hc) Hi). }
  destruct (emitAll _) as [sent [err|]]; intros [= <-]; cbn [fst].
  - by apply Hsc.
  - cbn [Game.players Game.set_players]. rewrite list_insert_insert_eq.
    by apply Hsc.
Qed.

Lemma disconnectFrom_inv (order : list string) (sid : string) (srv : Server) :
  ServerInv srv → ServerInv (disconnectFrom order sid srv).1.1.
Proof.
  intros Hs. induction order as [|roomId rest IH]; [done|]. cbn.
  destruct (games srv !! roomId) as [game|] eqn:Hg; [|done].
  destruct (markDisconnected sid game) as [[[g es] err]|] eqn:Hm; [|done].
  apply ServerInv_setGame; [done|].
  apply (markDisconnected_inv roomId sid game (g, es, err)); [by apply Hs|done].
Qed.

Lemma graceExpiry_inv (opts : list string) (roomId playerId : string) (srv : Server) :
  ServerInv srv → ServerInv (graceExpiry opts roomId playerId srv).1.1.
Proof.
  intros Hs. unfold graceExpiry.
  destruct (games srv !! roomId) as [game|]; [|done].
  destruct (findById playerId (Game.players game)) as [[i p]|]; [|done].
  destruct (Player.disconnectTimeout p); [|done].
  by apply handlePlayerRemove_inv.
Qed.

Lemma step_inv (ev : Event) (srv srv' : Server) :
  ServerInv srv → step ev srv = Some srv' → ServerInv srv'.
Proof.
  intros Hs. destruct ev; cbn [step].
  - intros [= <-]. by apply join_room_inv.
  - intros [= <-]. by apply start_game_inv.
  - intros [= <-]. by apply select_word_inv.
  - intros [= <-]. by apply chat_message_inv.
  - destruct (timerTick opts roomId srv) as [r|] eqn:Ht; [|done].
    cbn. intros [= <-]. by eapply timerTick_inv.
  - intros [= <-]. unfold disconnect. apply disconnectFrom_inv.
    by apply (ServerInv_games srv).
  - intros [= <-]. by apply graceExpiry_inv.
Qed.

Lemma reachable_inv (srv : Server) : Reachable srv → ServerInv srv.
Proof.
  induction 1 as [|ev srv srv' _ IH Hstep].
  - intros r g. cbn. by rewrite lookup_empty.
  - by eapply step_inv.
Qed.


Lemma stalledServer_run : run stalledTrace emptyServer = Some stalledServer.
Proof. vm_compute. reflexivity. Qed.

Lemma stalledServer_reachable : Reachable stalledServer.
Proof. exact (run_reachable _ _ _ reach_empty stalledServer_run). Qed.

(** X16. Every room of every state the server can reach, the states a
    throwing handler leaves included, is stored under its own name, which
    is no property name of [Object.prototype], has at least one player,
    lists no socket id twice, has its host among its players, and has a
    drawer index that is not negative. *)
Theorem reachable_rooms_are_well_formed (srv : Server) (roomId : string) (g : Game.t) :
  Reachable srv → games srv !! roomId = Some g →
  Game.roomId g = roomId
  ∧ inherited roomId = false
  ∧ Game.players g ≠ []
  ∧ NoDup (Player.id <$> Game.players g)
  ∧ Game.hostId g ∈ Player.id <$> Game.players g
  ∧ 0 ≤ Game.drawerIndex g.
Proof.
  intros Hr Hg. destruct (reachable_inv srv Hr roomId g Hg) as [[] ? _ _].
  by repeat split.
Qed.

Lemma reachable_rooms_are_well_formed_witness :
  Game.roomId pendingRoom = "r1"
  ∧ inherited "r1" = false
  ∧ Game.players pendingRoom ≠ []
  ∧ NoDup (Player.id <$> Game.players pendingRoom)
  ∧ Game.hostId pendingRoom ∈ Player.id <$> Game.players pendingRoom
  ∧ 0 ≤ Game.drawerIndex pendingRoom.
Proof.
  apply (reachable_rooms_are_well_formed pendingServer "r1" pendingRoom).
  - exact pendingServer_reachable.
  - exact pendingServer_room.
Defined.

(** X17. In every reachable state an interval that runs in a room is the
    one of its phase: none runs in LOBBY and ENDED, only the selection
    countdown in SELECTING and only the round countdown in DRAWING. A room
    in SELECTING or DRAWING phase may run none: [stalledServer], reached
    through a ['start-game'] that throws, holds a room in SELECTING phase
    with no countdown. *)
Theorem reachable_timer_matches_phase (srv : Server) (roomId : string) (g : Game.t) :
  Reachable srv → games srv !! roomId = Some g →
  (Game.timer g = None ∨ Game.timer g = timerOf (Game.status g))
  ∧ Reachable stalledServer
  ∧ (λ r, (Game.status r, Game.timer r)) <$> games stalledServer !! "r1"
    = Some (SELECTING, None).
Proof.
  intros Hr Hg. split; [|split].
  - destruct (reachable_inv srv Hr roomId g Hg) as [_ _ Htm _].
    destruct (Game.timer g) as [t|]; [|by left]. right. symmetry. by apply Htm.
  - exact stalledServer_reachable.
  - vm_compute. reflexivity.
Qed.

Lemma reachable_timer_matches_phase_witness :
  Game.timer drawingRoom = Some RoundTimer.
Proof.
  destruct (reachable_timer_matches_phase drawingServer "r1" drawingRoom)
    as [[Hnone|Hsome] _].
  - exact drawingServer_reachable.
  - exact drawingServer_room.
  - discriminate Hnone.
  - exact Hsome.
Defined.





(** X20. A round can start without a drawer, and a correct guess then
    makes the ['chat-message'] handler throw. When the selection countdown
    of a room whose [drawerIndex] names nobody runs out, the round starts on
    the first word offered, still with no drawer; from then on the right
    word sent by any listed player not flagged guessed raises the
    [TypeError]. *)
Theorem guess_in_a_round_without_drawer_throws
    (opts : list string) (roomId sid user text w : string) (ws : list string)
    (srv : Server) (game : Game.t) (i : nat) (player : Player.t) :
  games srv !! roomId = Some game →
  Game.timer game = Some SelectionTimer →
  Game.timeLeft game ≤ 1 →
  Game.wordOptions game = w :: ws →
  drawerOf game = None →
  findById sid (Game.players game) = Some (i, player) →
  Player.guessed player = false →
  isCorrectGuess text w = true →
  ∃ srv' es err g',
    timerTick opts roomId srv = Some (srv', es, err)
    ∧ games srv' !! roomId = Some g'
    ∧ Game.status g' = DRAWING ∧ Game.currentWord g' = w ∧ drawerOf g' = None
    ∧ chat_message opts sid (mkChat roomId user text) srv' = (srv', [], Some TypeError).
Proof.
  intros Hg Htm Ht Hw Hd Hf Hgu Hc.
  destruct (startRound_fields roomId w game) as (Hst & Hcw & _ & _ & Hps & Hdi).
  exists (setGame roomId (startRound roomId w game).1.1 srv),
         (Emitted <$> (startRound roomId w game).1.2),
         (startRound roomId w game).2,
         (startRound roomId w game).1.1.
  assert (Hdr : drawerOf (startRound roomId w game).1.1 = None)
    by (unfold drawerOf in *; by rewrite Hps, Hdi).
  split; [|split; [|split; [|split; [|split]]]]; try done.
  - unfold timerTick. rewrite Hg, Htm.
    by rewrite (selectionTick_expiry roomId w ws).
  - cbn. by rewrite lookup_insert_eq.
  - unfold chat_message. cbn [chatRoomId chatText games setGame].
    rewrite lookup_insert_eq, Hst, Hcw, Hps.
    rewrite bool_decide_true by done. rewrite Hc. cbn [andb].
    by rewrite Hf, Hgu, Hdr.
Qed.

Lemma guess_in_a_round_without_drawer_throws_witness :
  Reachable noDrawerServer
  ∧ ∃ srv' es err g',
      timerTick [] "r1" noDrawerServer = Some (srv', es, err)
      ∧ games srv' !! "r1" = Some g'
      ∧ Game.status g' = DRAWING ∧ Game.currentWord g' = "pen" ∧ drawerOf g' = None
      ∧ chat_message [] "A" (mkChat "r1" "alice" "Pen") srv'
        = (srv', [], Some TypeError).
Proof.
  split; [exact noDrawerServer_reachable|].
  eapply (guess_in_a_round_without_drawer_throws [] "r1" "A" "alice" "Pen" "pen"
            ["ink"; "cup"] noDrawerServer _ 0
            (Player.mk "A" "alice" defaultAvatar 600 false false false)).
  - exact noDrawerServer_room.
  - reflexivity.
  - cbn. lia.
  - reflexivity.
  - reflexivity.
  - reflexivity.
  - reflexivity.
  - vm_compute. reflexivity.
Defined.


(** * Further properties of the drawing board *)

Lemma pop_nil {A : Type} : Sketch.pop (@nil A) = None.
Proof. reflexivity. Qed.

Lemma pop_snoc {A : Type} (l : list A) (a : A) : Sketch.pop (l ++ [a]) = Some (l, a).
Proof. unfold Sketch.pop. by rewrite reverse_snoc, reverse_involutive. Qed.

Lemma pop_None {A : Type} (l : list A) : Sketch.pop l = None → l = [].
Proof.
  destruct l as [|a l _] using rev_ind; [done|]. by rewrite pop_snoc.
Qed.






Lemma undos_spec (n : nat) :
  ∀ (b : Sketch.Board) (h : list Sketch.Action) (acts : list Sketch.Action),
    Sketch.history b = h ++ acts → length acts = n →
    Sketch.undos n b
    = (Sketch.set_redoStack (Sketch.redoStack b ++ reverse acts) (Sketch.set_history h b),
       replicate n Sketch.UndoMsg).
Proof.
  induction n as [|n IH]; intros b h acts Hh Hn.
  - destruct acts; [|done]. cbn. rewrite app_nil_r in *. rewrite <- Hh. by destruct b.
  - destruct acts as [|a acts _] using rev_ind; [done|].
    rewrite length_app in Hn. cbn in Hn.
    cbn [Sketch.undos]. unfold Sketch.handleUndo. cbn [negb].
    rewrite Hh, app_assoc, pop_snoc.
    rewrite (IH _ h acts); [|done|lia]. cbn.
    by rewrite reverse_snoc, <- app_assoc.
Qed.

Lemma redos_spec (n : nat) :
  ∀ (b : Sketch.Board) (r : list Sketch.Action) (acts : list Sketch.Action),
    Sketch.redoStack b = r ++ reverse acts → length acts = n →
    Sketch.redos n b
    = (Sketch.set_redoStack r (Sketch.set_history (Sketch.history b ++ acts) b),
       replicate n Sketch.RedoMsg).
Proof.
  induction n as [|n IH]; intros b r acts Hr Hn.
  - destruct acts; [|done]. cbn in *. rewrite app_nil_r in *. rewrite <- Hr.
    by destruct b.
  - destruct acts as [|a acts]; [done|]. cbn in Hn.
    cbn [Sketch.redos]. unfold Sketch.handleRedo. cbn [negb].
    rewrite Hr, reverse_cons, app_assoc, pop_snoc.
    rewrite (IH _ r acts); [|done|lia]. cbn.
    by rewrite <- app_assoc.
Qed.

(** X22. Undo and redo are inverse of each other at the board of the
    player who draws: [n] clicks on Undo, for [n] up to the length of the
    history, take the last [n] actions off the history, and [n] clicks on
    Redo then put them back in their order; history and redo stack are as
    before, and the room was sent [n] undo and then [n] redo messages. *)
Theorem undo_redo_round_trip (n : nat) (b : Sketch.Board) :
  (n ≤ length (Sketch.history b))%nat →
  let '(b1, m1) := Sketch.undos n b in
  let '(b2, m2) := Sketch.redos n b1 in
  Sketch.history b1 = take (length (Sketch.history b) - n) (Sketch.history b)
  ∧ b2 = b
  ∧ m1 = replicate n Sketch.UndoMsg ∧ m2 = replicate n Sketch.RedoMsg.
Proof.
  intros Hn.
  set (k := (length (Sketch.history b) - n)%nat).
  assert (Hsplit : Sketch.history b
                   = take k (Sketch.history b) ++ drop k (Sketch.history b))
    by (by rewrite take_drop).
  assert (Hlen : length (drop k (Sketch.history b)) = n)
    by (rewrite length_drop; lia).
  rewrite (undos_spec n b _ _ Hsplit Hlen).
  rewrite (redos_spec n _ (Sketch.redoStack b) (drop k (Sketch.history b)));
    [|done|done].
  cbn. rewrite take_drop. split; [done|]. split; [by destruct b|done].
Qed.

Lemma undo_redo_round_trip_witness :
  let b := Sketch.mkBoard
             [Sketch.Clear; Sketch.Fill 3 4 "#FF0000";
              Sketch.Stroke [Sketch.mkPoint 1 1; Sketch.mkPoint 2 3] "#000000" 2]
             [Sketch.Clear] false [] None "#000000" Sketch.Pen in
  let '(b1, m1) := Sketch.undos 2 b in
  let '(b2, m2) := Sketch.redos 2 b1 in
  Sketch.history b1 = take (length (Sketch.history b) - 2) (Sketch.history b)
  ∧ b2 = b
  ∧ m1 = replicate 2 Sketch.UndoMsg ∧ m2 = replicate 2 Sketch.RedoMsg.
Proof.
  intros b. apply (undo_redo_round_trip 2 b). cbn. lia.
Defined.

(** ** Colours *)

Lemma hexDigit_range (c : ascii) (d : Z) : Sketch.hexDigit c = Some d → 0 ≤ d ≤ 15.
Proof.
  unfold Sketch.hexDigit. cbv zeta. generalize (Z.of_nat (nat_of_ascii c)). intros n.
  destruct (Z.leb_spec 48 n), (Z.leb_spec n 57), (Z.leb_spec 97 n), (Z.leb_spec n 102),
    (Z.leb_spec 65 n), (Z.leb_spec n 70); cbn [andb]; intros [= <-]; lia.
Qed.

Lemma hexPair_range (a b : ascii) (n : Z) : Sketch.hexPair a b = Some n → 0 ≤ n ≤ 255.
Proof.
  unfold Sketch.hexPair.
  destruct (Sketch.hexDigit a) as [hi|] eqn:Ha; [|done].
  destruct (Sketch.hexDigit b) as [lo|] eqn:Hb; [|done].
  cbn. intros [= <-].
  apply hexDigit_range in Ha. apply hexDigit_range in Hb. lia.
Qed.

Lemma hexDigit_lowerChar (c : ascii) :
  Sketch.hexDigit (Js.lowerChar c) = Sketch.hexDigit c.
Proof. destruct c as [[] [] [] [] [] [] [] []]; vm_compute; reflexivity. Qed.

Lemma lowerChar_hash (c : ascii) :
  Ascii.eqb (Js.lowerChar c) "#" = Ascii.eqb c "#".
Proof. destruct c as [[] [] [] [] [] [] [] []]; vm_compute; reflexivity. Qed.

(** The optional [#] of the pattern. *)
Lemma strip_hash_ne (c : ascii) (rest : string) :
  Ascii.eqb c "#" = false →
  match String c rest with
  | String "#" r => r
  | _ => String c rest
  end = String c rest.
Proof.
  destruct c as [[] [] [] [] [] [] [] []]; try reflexivity.
  vm_compute. discriminate.
Qed.

Lemma list_ascii_toLowerCase (s : string) :
  list_ascii_of_string (Js.toLowerCase s) = Js.lowerChar <$> list_ascii_of_string s.
Proof. induction s as [|c s IH]; [done|]. cbn. by rewrite IH. Qed.

Lemma matchHex_toLowerCase (hex : string) :
  Sketch.matchHex (Js.toLowerCase hex) = Sketch.matchHex hex.
Proof.
  assert (Hbody : ∀ s,
    match list_ascii_of_string (Js.toLowerCase s) with
    | [r1; r2; g1; g2; b1; b2] =>
        r ← Sketch.hexPair r1 r2; g ← Sketch.hexPair g1 g2;
        b ← Sketch.hexPair b1 b2; Some (r, g, b)
    | _ => None
    end
    = match list_ascii_of_string s with
      | [r1; r2; g1; g2; b1; b2] =>
          r ← Sketch.hexPair r1 r2; g ← Sketch.hexPair g1 g2;
          b ← Sketch.hexPair b1 b2; Some (r, g, b)
      | _ => None
      end).
  { intros s. rewrite list_ascii_toLowerCase.
    destruct (list_ascii_of_string s) as [|r1 [|r2 [|g1 [|g2 [|b1 [|b2 [|? ?]]]]]]];
      try done.
    cbn [fmap list_fmap]. unfold Sketch.hexPair. by rewrite !hexDigit_lowerChar. }
  unfold Sketch.matchHex. destruct hex as [|c rest]; [done|].
  cbn [Js.toLowerCase]. cbv zeta.
  destruct (Ascii.eqb c "#") eqn:Hc.
  - apply Ascii.eqb_eq in Hc as ->. apply Hbody.
  - rewrite (strip_hash_ne c rest Hc).
    rewrite (strip_hash_ne (Js.lowerChar c) (Js.toLowerCase rest))
      by (by rewrite lowerChar_hash).
    apply (Hbody (String c rest)).
Qed.

(** X23. [hexToRgb] gives three channels between 0 and 255 whatever the
    text; it does not tell capitals from small letters; before six
    characters the leading [#] is optional; and every colour of the palette is read as written, none
    falling back to black by accident. *)
Theorem hexToRgb_channels (hex : string) :
  (let '(r, g, b) := Sketch.hexToRgb hex in
   0 ≤ r ≤ 255 ∧ 0 ≤ g ≤ 255 ∧ 0 ≤ b ≤ 255)
  ∧ Sketch.hexToRgb (Js.toLowerCase hex) = Sketch.hexToRgb hex
  ∧ (∀ r1 r2 g1 g2 b1 b2 : ascii,
       let six := string_of_list_ascii [r1; r2; g1; g2; b1; b2] in
       Sketch.hexToRgb (String "#" six) = Sketch.hexToRgb six)
  ∧ Forall (λ c, is_Some (Sketch.matchHex c)) Sketch.COLORS.
Proof.
  split; [|split; [|split]].
  - unfold Sketch.hexToRgb.
    destruct (Sketch.matchHex hex) as [[[r g] b]|] eqn:Hm; [|cbn; lia].
    cbn. unfold Sketch.matchHex in Hm.
    destruct (list_ascii_of_string _) as [|r1 [|r2 [|g1 [|g2 [|b1 [|b2 [|? ?]]]]]]];
      try done.
    destruct (Sketch.hexPair r1 r2) as [r'|] eqn:Hr; [|done].
    destruct (Sketch.hexPair g1 g2) as [g'|] eqn:Hg; [|done].
    destruct (Sketch.hexPair b1 b2) as [b'|] eqn:Hb; [|done].
    cbn in Hm. injection Hm as <- <- <-.
    apply hexPair_range in Hr, Hg, Hb. done.
  - unfold Sketch.hexToRgb. by rewrite matchHex_toLowerCase.
  - intros r1 r2 g1 g2 b1 b2 six. unfold Sketch.hexToRgb, Sketch.matchHex.
    change (match String "#" six with
            | String "#" r => r
            | _ => String "#" six
            end) with six.
    subst six. cbn [string_of_list_ascii].
    destruct (Ascii.eqb r1 "#") eqn:Hc.
    + (* six characters of which the first is [#] are no colour, with or
         without one more [#] in front *)
      apply Ascii.eqb_eq in Hc as ->. done.
    + by rewrite (strip_hash_ne r1 _ Hc).
  - apply (bool_decide_eq_true_1 _). vm_compute. reflexivity.
Qed.

(** * Further properties of the voice mesh *)

Lemma scan_noop (me : string) (players : list string) :
  ∀ (peers : gset string) (out : list VoiceChat.Signal),
    (∀ pid, pid ∈ players →
            pid = me ∨ pid ∈ peers ∨ (me <? pid)%string = false) →
    foldl (VoiceChat.checkPeer me) (peers, out) players = (peers, out).
Proof.
  induction players as [|p ps IH]; intros peers out Hall; [done|].
  cbn [foldl].
  assert (Hp : VoiceChat.checkPeer me (peers, out) p = (peers, out)).
  { unfold VoiceChat.checkPeer.
    destruct (decide (p = me)); [done|].
    destruct (decide (p ∈ peers)); [done|].
    destruct (Hall p) as [?|[?| Hf]]; [apply list_elem_of_here|done|done|by rewrite Hf]. }
  rewrite Hp. apply IH. intros pid Hpid. apply Hall. by apply list_elem_of_further.
Qed.



Lemma scan_after_failure (me t : string) (peers : gset string) (players : list string) :
  t ≠ me → t ∈ peers → (me <? t)%string = true →
  (∀ pid, pid ∈ players → (me <? pid)%string = true → pid ∈ peers) →
  foldl (VoiceChat.checkPeer me) (peers ∖ {[t]}, []) players
  = if decide (t ∈ players)
    then (peers, [VoiceChat.mkSignal t VoiceChat.Offer])
    else (peers ∖ {[t]}, []).
Proof.
  intros Hme Ht Hlt. induction players as [|p ps IH]; intros Hall.
  { rewrite decide_False; [done|]. apply not_elem_of_nil. }
  cbn [foldl]. destruct (decide (p = t)) as [->|Hpt].
  - rewrite decide_True by apply list_elem_of_here.
    unfold VoiceChat.checkPeer at 2.
    rewrite decide_False by done.
    rewrite decide_False
      by (rewrite elem_of_difference, elem_of_singleton; by intros [_ ?]).
    rewrite Hlt. unfold VoiceChat.createPeerConnection. cbn [app].
    replace ({[t]} ∪ peers ∖ {[t]}) with peers.
    + apply scan_noop. intros pid Hin.
      destruct (me <? pid)%string eqn:Hlt'; [|by right; right].
      right. left. apply Hall; [by apply list_elem_of_further|done].
    + apply set_eq. intros x. rewrite elem_of_union, elem_of_difference,
        elem_of_singleton.
      split; [|by intros [->|[? _]]].
      intros Hx. destruct (decide (x = t)); [by left|by right].
  - assert (Hp : VoiceChat.checkPeer me (peers ∖ {[t]}, []) p = (peers ∖ {[t]}, [])).
    { unfold VoiceChat.checkPeer.
      destruct (decide (p = me)); [done|].
      destruct (decide (p ∈ peers ∖ {[t]})) as [|Hnot]; [done|].
      destruct (me <? p)%string eqn:Hlt'; [|done].
      exfalso. apply Hnot. apply elem_of_difference. split.
      - apply Hall; [apply list_elem_of_here|done].
      - by rewrite elem_of_singleton. }
    rewrite Hp, IH.
    + destruct (decide (t ∈ ps)) as [Hin|Hin].
      * by rewrite decide_True by (by apply list_elem_of_further).
      * rewrite decide_False; [done|].
        intros [?|?]%elem_of_cons; [congruence|done].
    + intros pid Hin. apply Hall. by apply list_elem_of_further.
Qed.

(** X25. Who repairs a connection that failed. When the connection to a
    listed player [t] is dropped on an ICE failure, the next firing of the
    reconciliation interval, at the side with the lower id, creates the
    connection anew and sends [t] one offer, and nothing else; at the side
    with the greater id it does nothing: that side waits for the offer. *)
Theorem failed_connection_is_repaired_by_initiator
    (me t : string) (players : list string) (peers : gset string) :
  VoiceMesh.settled me players peers →
  t ∈ players → t ∈ peers → t ≠ me →
  VoiceChat.reconcile me players (VoiceMesh.onIceFailure t peers)
  = if (me <? t)%string
    then (peers, [VoiceChat.mkSignal t VoiceChat.Offer])
    else (VoiceMesh.onIceFailure t peers, []).
Proof.
  intros Hset Hin Ht Hme.
  rewrite reconcile_checkNewPeers.
  unfold VoiceChat.checkNewPeers, VoiceMesh.onIceFailure.
  destruct (me <? t)%string eqn:Hlt.
  - rewrite scan_after_failure by done. by rewrite decide_True.
  - apply scan_noop. intros pid Hpid.
    destruct (me <? pid)%string eqn:Hlt'; [|by right; right].
    right. left. apply elem_of_difference. split; [by apply Hset|].
    rewrite elem_of_singleton. intros ->. congruence.
Qed.

Lemma failed_connection_is_repaired_by_initiator_witness :
  VoiceChat.reconcile "sockA" ["sockA"; "sockB"; "sockC"]
    (VoiceMesh.onIceFailure "sockC" {["sockB"; "sockC"]})
  = ({["sockB"; "sockC"]}, [VoiceChat.mkSignal "sockC" VoiceChat.Offer])
  ∧ VoiceChat.reconcile "sockC" ["sockA"; "sockB"; "sockC"]
      (VoiceMesh.onIceFailure "sockA" {["sockA"; "sockB"]})
    = (VoiceMesh.onIceFailure "sockA" {["sockA"; "sockB"]}, []).
Proof.
  split.
  - apply (failed_connection_is_repaired_by_initiator "sockA" "sockC").
    + intros pid Hin Hlt.
      repeat (apply elem_of_cons in Hin as [->|Hin]);
        [discriminate|set_solver|set_solver|by apply elem_of_nil in Hin].
    + set_solver.
    + set_solver.
    + discriminate.
  - apply (failed_connection_is_repaired_by_initiator "sockC" "sockA").
    + intros pid Hin Hlt.
      repeat (apply elem_of_cons in Hin as [->|Hin]);
        [discriminate|discriminate|discriminate|by apply elem_of_nil in Hin].
    + set_solver.
    + set_solver.
    + discriminate.
Defined.

(** * Further properties of the fill tool *)

Lemma get_put (d : list Z) (p q v : Z) :
  FloodFill.get (FloodFill.put p v d) q
  = if decide (p = q ∧ 0 ≤ p < Z.of_nat (length d)) then Some v
    else FloodFill.get d q.
Proof.
  unfold FloodFill.get, FloodFill.put.
  destruct (Z.ltb_spec q 0), (Z.ltb_spec p 0);
    try (rewrite decide_False by lia; done).
  destruct (decide (p = q)) as [->|Hpq].
  - destruct (decide (q < Z.of_nat (length d))).
    + rewrite decide_True by lia. apply list_lookup_insert_eq. lia.
    + rewrite decide_False by lia. rewrite list_insert_ge by lia. done.
  - rewrite decide_False by lia. apply list_lookup_insert_ne. lia.
Qed.

Lemma length_put (d : list Z) (p v : Z) :
  length (FloodFill.put p v d) = length d.
Proof. unfold FloodFill.put. destruct (_ <? _); [done|apply length_insert]. Qed.

Lemma get_Some_lt (d : list Z) (p v : Z) :
  FloodFill.get d p = Some v → 0 ≤ p < Z.of_nat (length d).
Proof.
  unfold FloodFill.get. destruct (Z.ltb_spec p 0) as [|Hp]; [done|].
  intros Hl%lookup_lt_Some. lia.
Qed.

Lemma get_lt_Some (d : list Z) (p : Z) :
  0 ≤ p < Z.of_nat (length d) → is_Some (FloodFill.get d p).
Proof.
  intros Hp. unfold FloodFill.get. destruct (Z.ltb_spec p 0); [lia|].
  apply lookup_lt_is_Some. lia.
Qed.

Section FloodFillProof.

Context (w h : Z) (Hw : 0 < w) (Hh : 0 ≤ h).
Context (tr tg tb fr fg fb : Z) (Hcolors : (tr, tg, tb) ≠ (fr, fg, fb)).

Local Abbreviation target := (Some tr, Some tg, Some tb).
Local Abbreviation fillc := (fr, fg, fb).
Local Abbreviation pos := (FloodFill.pixelPos w).
Local Abbreviation Open := (FloodFill.Open w h target).
Local Abbreviation Covered := (FloodFill.Covered w h target).
Local Abbreviation matches := (FloodFill.matches target).
Local Abbreviation colorPixel := (FloodFill.colorPixel fillc).
Local Abbreviation openSet := (FloodFill.openSet w h target).

Lemma pos_inj (x y x' y' k k' : Z) :
  0 ≤ x < w → 0 ≤ x' < w → 0 ≤ k < 4 → 0 ≤ k' < 4 →
  pos x y + k = pos x' y' + k' → x = x' ∧ y = y' ∧ k = k'.
Proof.
  unfold FloodFill.pixelPos. intros Hx Hx' Hk Hk' Heq.
  assert (y * w + x = y' * w + x' ∧ k = k') as [Hlin ->] by lia.
  assert (y = y') as -> by nia.
  split; [lia|done].
Qed.

Lemma pos_bounds (x y k : Z) :
  FloodFill.inside w h x y → 0 ≤ k < 4 → 0 ≤ pos x y + k < 4 * (w * h).
Proof.
  unfold FloodFill.inside, FloodFill.pixelPos. intros [Hx Hy] Hk. nia.
Qed.

Lemma pos_up (x y : Z) : pos x (y - 1) = pos x y - w * 4.
Proof. unfold FloodFill.pixelPos. lia. Qed.

Lemma pos_down (x y : Z) : pos x (y + 1) = pos x y + w * 4.
Proof. unfold FloodFill.pixelPos. lia. Qed.

Lemma pos_left (x y : Z) : pos (x - 1) y = pos x y - 4.
Proof. unfold FloodFill.pixelPos. lia. Qed.

Lemma pos_right (x y : Z) : pos (x + 1) y = pos x y + 4.
Proof. unfold FloodFill.pixelPos. lia. Qed.

Lemma get_colorPixel (d : list Z) (p q : Z) :
  0 ≤ p → p + 3 < Z.of_nat (length d) →
  FloodFill.get (colorPixel p d) q
  = if decide (q = p) then Some fr
    else if decide (q = p + 1) then Some fg
    else if decide (q = p + 2) then Some fb
    else if decide (q = p + 3) then Some 255
    else FloodFill.get d q.
Proof.
  intros Hp Hlen. unfold FloodFill.colorPixel. cbn [fst snd].
  rewrite !get_put, !length_put.
  repeat (destruct (decide _)); try done; lia.
Qed.

Lemma length_colorPixel (d : list Z) (p : Z) : length (colorPixel p d) = length d.
Proof. unfold FloodFill.colorPixel. by rewrite !length_put. Qed.

Lemma matches_colorPixel_here (d : list Z) (p : Z) :
  0 ≤ p → p + 3 < Z.of_nat (length d) → matches (colorPixel p d) p = false.
Proof.
  intros Hp Hlen. unfold FloodFill.matches. cbn [fst snd].
  rewrite !get_colorPixel by done.
  rewrite decide_True by done.
  rewrite decide_False, decide_True by lia.
  rewrite decide_False, decide_False, decide_True by lia.
  apply not_true_is_false. rewrite !andb_true_iff, !bool_decide_eq_true.
  intros [[[= ->] [= ->]] [= ->]]. by apply Hcolors.
Qed.

Lemma matches_colorPixel_away (d : list Z) (p q : Z) :
  0 ≤ p → p + 3 < Z.of_nat (length d) → q + 4 ≤ p ∨ p + 4 ≤ q →
  matches (colorPixel p d) q = matches d q.
Proof.
  intros Hp Hlen Hq. unfold FloodFill.matches.
  rewrite !get_colorPixel by done.
  by rewrite !decide_False by lia.
Qed.

Lemma matches_ext (d d' : list Z) (q : Z) :
  (∀ k, 0 ≤ k < 4 → FloodFill.get d' (q + k) = FloodFill.get d (q + k)) →
  matches d' q = matches d q.
Proof.
  intros H. unfold FloodFill.matches.
  pose proof (H 0 ltac:(lia)) as H0. rewrite Z.add_0_r in H0.
  by rewrite H0, (H 1), (H 2) by lia.
Qed.

Lemma elem_of_openSet (d : list Z) (k : Z) :
  k ∈ openSet d ↔ matches d (k * 4) = true ∧ 0 ≤ k < w * h.
Proof.
  unfold FloodFill.openSet. rewrite elem_of_filter, elem_of_list_to_set, elem_of_seqZ.
  split; (intros [? ?]; split; [done|lia]).
Qed.

Lemma index_bounds (x y : Z) : FloodFill.inside w h x y → 0 ≤ y * w + x < w * h.
Proof. unfold FloodFill.inside. intros [Hx Hy]. nia. Qed.

Lemma openSet_colorPixel (d : list Z) (x y : Z) :
  Z.of_nat (length d) = 4 * (w * h) → FloodFill.inside w h x y →
  matches d (pos x y) = true →
  size (openSet d) = S (size (openSet (colorPixel (pos x y) d))).
Proof.
  intros Hlen Hin Hm.
  pose proof (pos_bounds x y 0 Hin ltac:(lia)) as Hp0.
  pose proof (pos_bounds x y 3 Hin ltac:(lia)) as Hp3.
  pose proof (index_bounds x y Hin) as Hk.
  assert (Hpos : pos x y = (y * w + x) * 4) by done.
  assert (Heq : openSet (colorPixel (pos x y) d) = openSet d ∖ {[y * w + x]}).
  { apply set_eq. intros k.
    rewrite elem_of_difference, elem_of_singleton, !elem_of_openSet.
    destruct (decide (k = y * w + x)) as [->|Hne].
    - rewrite <- Hpos, matches_colorPixel_here by lia.
      split; [by intros [? _]|by intros [_ ?]].
    - rewrite matches_colorPixel_away by lia. split; [by intros ?|by intros [? _]]. }
  rewrite Heq, size_difference.
  - rewrite size_singleton.
    assert (size (openSet d) ≠ 0%nat); [|lia].
    apply size_non_empty_iff. intros Hemp.
    assert (y * w + x ∈ openSet d) as Hel by (by apply elem_of_openSet; rewrite <- Hpos).
    rewrite Hemp in Hel. by apply not_elem_of_empty in Hel.
  - intros k ->%elem_of_singleton. apply elem_of_openSet. by rewrite <- Hpos.
Qed.

Lemma Open_colorPixel_here (d : list Z) (x y : Z) :
  Z.of_nat (length d) = 4 * (w * h) → FloodFill.inside w h x y →
  ¬ Open (colorPixel (pos x y) d) x y.
Proof.
  intros Hlen Hin [_ Hm].
  pose proof (pos_bounds x y 0 Hin ltac:(lia)).
  pose proof (pos_bounds x y 3 Hin ltac:(lia)).
  rewrite matches_colorPixel_here in Hm by lia. done.
Qed.

Lemma Open_colorPixel_away (d : list Z) (x y x' y' : Z) :
  Z.of_nat (length d) = 4 * (w * h) → FloodFill.inside w h x y →
  (x', y') ≠ (x, y) →
  Open (colorPixel (pos x y) d) x' y' ↔ Open d x' y'.
Proof.
  intros Hlen Hin Hne.
  pose proof (pos_bounds x y 0 Hin ltac:(lia)).
  pose proof (pos_bounds x y 3 Hin ltac:(lia)).
  assert (Haway : FloodFill.inside w h x' y' →
                  pos x' y' + 4 ≤ pos x y ∨ pos x y + 4 ≤ pos x' y').
  { intros Hin'. destruct Hin as [Hx Hy], Hin' as [Hx' Hy'].
    destruct (decide (pos x' y' = pos x y)) as [Heq|Hd].
    - destruct (pos_inj x' y' x y 0 0) as (-> & -> & _); [done|done|lia|lia|lia|done].
    - unfold FloodFill.pixelPos in *. lia. }
  unfold FloodFill.Open. split; intros [Hin' Hm]; (split; [done|]).
  - by rewrite matches_colorPixel_away in Hm by (lia || by apply Haway).
  - by rewrite matches_colorPixel_away by (lia || by apply Haway).
Qed.

Lemma climb_eq (d : list Z) (y p : Z) :
  FloodFill.climb w target d y p
  = if (0 <=? y) && matches d p
    then FloodFill.climb w target d (y - 1) (p - w * 4)
    else (y, p).
Proof.
  unfold FloodFill.climb. destruct (Z.leb_spec 0 y) as [Hy|Hy].
  - replace (Z.to_nat (y + 1)) with (S (Z.to_nat (y - 1 + 1))) by lia.
    cbn [FloodFill.up]. destruct (Z.leb_spec 0 y); [done|lia].
  - replace (Z.to_nat (y + 1)) with 0%nat by lia. done.
Qed.

Lemma climb_spec (d : list Z) (x : Z) (n : nat) :
  ∀ y, Z.to_nat (y + 1) = n → -1 ≤ y < h → 0 ≤ x < w →
    ∃ y', FloodFill.climb w target d y (pos x y) = (y', pos x y')
          ∧ -1 ≤ y' ≤ y
          ∧ (∀ j, y' < j ≤ y → Open d x j)
          ∧ ¬ Open d x y'.
Proof.
  induction n as [|n IH]; intros y Hn Hy Hx; rewrite climb_eq.
  - assert (y = -1) as -> by lia. cbn [Z.leb andb]. exists (-1).
    split; [done|]. split; [lia|]. split; [intros; lia|].
    intros [[_ ?] _]. lia.
  - destruct (Z.leb_spec 0 y) as [Hy0|]; [|lia]. cbn [andb].
    destruct (matches d (pos x y)) eqn:Hm.
    + rewrite <- pos_up.
      destruct (IH (y - 1)) as (y' & Heq & Hb & Hopen & Hstop); [lia|lia|done|].
      exists y'. split; [done|]. split; [lia|]. split; [|done].
      intros j Hj. destruct (decide (j = y)) as [->|]; [|apply Hopen; lia].
      split; [split; lia|done].
    + exists y. split; [done|]. split; [lia|]. split; [intros; lia|].
      intros [_ ?]. congruence.
Qed.

Lemma Open_ext (d d' : list Z) (x y : Z) :
  (∀ k, 0 ≤ k < 4 → FloodFill.get d' (pos x y + k) = FloodFill.get d (pos x y + k)) →
  Open d' x y ↔ Open d x y.
Proof.
  intros H. unfold FloodFill.Open. by rewrite (matches_ext d d' _ H).
Qed.

Lemma Covered_mono (d d' : list Z) (st st' : list (Z * Z)) (x y : Z) :
  Covered d st x y →
  (∀ i, Open d x i → Open d' x i) → (∀ e, e ∈ st → e ∈ st') →
  Covered d' st' x y.
Proof.
  intros (s & Hs & Hle & Hseg) Hopen Hsub. exists s.
  split; [by apply Hsub|]. split; [done|]. intros i Hi. by apply Hopen, Hseg.
Qed.

Lemma Covered_extend (d : list Z) (st : list (Z * Z)) (x y : Z) :
  Covered d st x (y - 1) → Open d x y → Covered d st x y.
Proof.
  intros (s & Hs & Hle & Hseg) Hopen. exists s.
  split; [done|]. split; [lia|]. intros i Hi.
  destruct (decide (i = y)) as [->|]; [done|apply Hseg; lia].
Qed.

Lemma Covered_here (d : list Z) (st : list (Z * Z)) (x y : Z) :
  (x, y) ∈ st → Open d x y → Covered d st x y.
Proof.
  intros Hin Hopen. exists y. split; [done|]. split; [lia|].
  intros i Hi. by replace i with y by lia.
Qed.

Lemma Covered_Open (d : list Z) (st : list (Z * Z)) (x y : Z) :
  Covered d st x y → Open d x y.
Proof. intros (s & _ & Hle & Hseg). apply Hseg. lia. Qed.

(** One look at a neighbour column: what [look] leaves on the stack and in
    the flag. *)
Lemma look_spec (d : list Z) (st : list (Z * Z)) (reach : bool) (cx y : Z) :
  (reach = true → Covered d st cx (y - 1)) →
  let r := FloodFill.look reach (matches d (pos cx y)) (cx, y) st in
  ∃ pushed, r.1 = pushed ++ st
    ∧ (pushed = [] ∨ (pushed = [(cx, y)] ∧ matches d (pos cx y) = true))
    ∧ (r.2 = true → FloodFill.inside w h cx y → Covered d r.1 cx y)
    ∧ (matches d (pos cx y) = true → r.2 = true).
Proof.
  intros Hpre. unfold FloodFill.look.
  destruct (matches d (pos cx y)) eqn:Hm.
  - destruct reach.
    + exists []. cbn. split; [done|]. split; [by left|]. split; [|done].
      intros _ Hin. apply Covered_extend; [by apply Hpre|]. by split.
    + exists [(cx, y)]. cbn. split; [done|]. split; [by right|]. split; [|done].
      intros _ Hin. apply Covered_here; [apply list_elem_of_here|by split].
  - exists []. cbn. split; [done|]. split; [by left|]. split; [done|done].
Qed.

Lemma side_spec (d : list Z) (st : list (Z * Z)) (reach guard : bool) (cx y : Z) :
  (guard = true ↔ 0 ≤ cx < w) → 0 ≤ y < h →
  (reach = true → Covered d st cx (y - 1)) →
  let r := if guard
           then FloodFill.look reach (matches d (pos cx y)) (cx, y) st
           else (st, reach) in
  ∃ pushed, r.1 = pushed ++ st
    ∧ (pushed = [] ∨ (pushed = [(cx, y)] ∧ Open d cx y))
    ∧ (r.2 = true → Covered d r.1 cx y)
    ∧ (Open d cx y → r.2 = true).
Proof.
  intros Hguard Hy Hpre. destruct guard.
  - assert (Hcx : 0 ≤ cx < w) by (by apply Hguard).
    destruct (look_spec d st reach cx y Hpre) as (pushed & H1 & H2 & H3 & H4).
    exists pushed. split; [done|]. split; [|split].
    + destruct H2 as [?|[? ?]]; [by left|right]. split; [done|]. by split.
    + intros Hr. by apply H3.
    + intros [_ Hm]. by apply H4.
  - assert (Hout : ¬ (0 ≤ cx < w)) by (intros ?; by apply Hguard in H).
    exists []. cbn. split; [done|]. split; [by left|]. split.
    + intros Hr. apply Hpre, Covered_Open in Hr.
      by destruct Hr as [[? _] _].
    + by intros [[? _] _].
Qed.

Lemma down_spec (x : Z) (n : nat) :
  0 ≤ x < w →
  ∀ y0 d st rl rr,
    Z.to_nat (h - y0) = n → 0 ≤ y0 →
    Z.of_nat (length d) = 4 * (w * h) →
    (rl = true → Covered d st (x - 1) (y0 - 1)) →
    (rr = true → Covered d st (x + 1) (y0 - 1)) →
    ∃ y1 pushes d',
      FloodFill.down w h target fillc n x y0 (pos x y0) d st rl rr
      = (d', pushes ++ st)
      ∧ y0 ≤ y1
      ∧ (∀ j, y0 ≤ j < y1 → Open d x j)
      ∧ ¬ Open d x y1
      ∧ length d' = length d
      ∧ (∀ j, y0 ≤ j < y1 → FloodFill.Filled w fillc d' x j)
      ∧ (∀ x' y', FloodFill.inside w h x' y' → ¬ (x' = x ∧ y0 ≤ y' < y1) →
           ∀ k, 0 ≤ k < 4 →
             FloodFill.get d' (pos x' y' + k) = FloodFill.get d (pos x' y' + k))
      ∧ Z.of_nat (length pushes) ≤ 2 * (y1 - y0)
      ∧ (∀ e, e ∈ pushes →
           ∃ ey, y0 ≤ ey < y1 ∧ (e = (x - 1, ey) ∨ e = (x + 1, ey))
                 ∧ Open d e.1 e.2)
      ∧ (∀ j, y0 ≤ j < y1 →
           (Open d (x - 1) j → Covered d' (pushes ++ st) (x - 1) j)
           ∧ (Open d (x + 1) j → Covered d' (pushes ++ st) (x + 1) j))
      ∧ Z.of_nat (size (openSet d)) = Z.of_nat (size (openSet d')) + (y1 - y0).
Proof.
  intros Hx. induction n as [|n IH]; intros y0 d st rl rr Hn Hy0 Hlen HrL HrR.
  - (* the loop is not entered: [y0] is at the bottom *)
    exists y0, [], d. cbn [FloodFill.down app].
    split; [done|]. split; [lia|]. split; [intros; lia|].
    split; [intros [[_ ?] _]; lia|]. split; [done|]. split; [intros; lia|].
    split; [done|]. split; [cbn; lia|]. split; [by intros e ?%elem_of_nil|].
    split; [intros; lia|lia].
  - cbn [FloodFill.down].
    destruct (Z.ltb_spec y0 h) as [Hyh|]; [|lia]. cbn [andb].
    destruct (matches d (pos x y0)) eqn:Hm.
    2:{ exists y0, [], d. cbn [app].
        split; [done|]. split; [lia|]. split; [intros; lia|].
        split; [intros [_ ?]; congruence|]. split; [done|]. split; [intros; lia|].
        split; [done|]. split; [cbn; lia|]. split; [by intros e ?%elem_of_nil|].
        split; [intros; lia|lia]. }
    assert (Hin : FloodFill.inside w h x y0) by (split; lia).
    assert (Hopen0 : Open d x y0) by (by split).
    set (d1 := colorPixel (pos x y0) d).
    assert (Hlen1 : Z.of_nat (length d1) = 4 * (w * h))
      by (unfold d1; by rewrite length_colorPixel).
    assert (Haway : ∀ x' y', (x', y') ≠ (x, y0) → Open d1 x' y' ↔ Open d x' y')
      by (intros; by apply Open_colorPixel_away).
    assert (Hcol : ∀ cx, cx ≠ x → ∀ i, Open d cx i → Open d1 cx i).
    { intros cx Hcx i Hi. apply Haway; [|done]. intros [= ? _]. done. }
    (* the left neighbour *)
    rewrite <- pos_left.
    destruct (side_spec d1 st rl (0 <? x) (x - 1) y0) as (pL & HL1 & HL2 & HL3 & HL4).
    { destruct (Z.ltb_spec 0 x); split; (done || lia). }
    { lia. }
    { intros Hr. eapply Covered_mono; [by apply HrL|apply Hcol; lia|done]. }
    destruct (if 0 <? x then _ else _) as [st1 rl1]. cbn [fst snd] in HL1, HL3, HL4.
    subst st1.
    (* the right neighbour *)
    rewrite <- pos_right.
    destruct (side_spec d1 (pL ++ st) rr (x <? w - 1) (x + 1) y0)
      as (pR & HR1 & HR2 & HR3 & HR4).
    { destruct (Z.ltb_spec x (w - 1)); split; (done || lia). }
    { lia. }
    { intros Hr. eapply Covered_mono; [by apply HrR|apply Hcol; lia|].
      intros e He. apply elem_of_app. by right. }
    destruct (if x <? w - 1 then _ else _) as [st2 rr1]. cbn [fst snd] in HR1, HR3, HR4.
    subst st2.
    (* the rest of the column *)
    rewrite <- pos_down.
    destruct (IH (y0 + 1) d1 (pR ++ pL ++ st) rl1 rr1)
      as (y1 & pushes & d' & Heq & Hle & Hrun & Hstop & Hlen' & Hfill & Hframe
          & Hcount & Hent & Hcov & Hsize); [lia|lia|done| | |].
    { replace (y0 + 1 - 1) with y0 by lia. intros Hr.
      eapply Covered_mono; [by apply HL3|done|].
      intros e He. apply elem_of_app. by right. }
    { replace (y0 + 1 - 1) with y0 by lia. done. }
    exists y1, (pushes ++ pR ++ pL), d'.
    assert (Hd1 : ∀ x' y', FloodFill.inside w h x' y' → (x', y') ≠ (x, y0) →
                  ∀ k, 0 ≤ k < 4 →
                    FloodFill.get d1 (pos x' y' + k) = FloodFill.get d (pos x' y' + k)).
    { intros x' y' Hin' Hne k Hk. unfold d1.
      pose proof (pos_bounds x y0 0 Hin ltac:(lia)).
      pose proof (pos_bounds x y0 3 Hin ltac:(lia)).
      rewrite get_colorPixel by lia.
      assert (∀ k', 0 ≤ k' < 4 → pos x' y' + k ≠ pos x y0 + k').
      { intros k' Hk' Heq'. destruct Hin as [? ?], Hin' as [? ?].
        destruct (pos_inj x' y' x y0 k k') as (-> & -> & _); done. }
      pose proof (H1 0 ltac:(lia)). pose proof (H1 1 ltac:(lia)).
      pose proof (H1 2 ltac:(lia)). pose proof (H1 3 ltac:(lia)).
      rewrite !decide_False by lia. done. }
    split; [by rewrite Heq, <- !app_assoc|].
    split; [lia|].
    split.
    { intros j Hj. destruct (decide (j = y0)) as [->|]; [done|].
      apply Haway; [intros [= ?]; lia|]. apply Hrun. lia. }
    split.
    { intros Ho. apply Hstop. apply Haway; [intros [= ?]; lia|done]. }
    split; [rewrite Hlen'; unfold d1; by rewrite length_colorPixel|].
    split.
    { intros j Hj. destruct (decide (j = y0)) as [->|]; [|apply Hfill; lia].
      pose proof (pos_bounds x y0 0 Hin ltac:(lia)).
      pose proof (pos_bounds x y0 3 Hin ltac:(lia)).
      unfold FloodFill.Filled, FloodFill.rgb, FloodFill.alpha. cbn [fst snd].
      pose proof (Hframe x y0 Hin ltac:(lia) 0 ltac:(lia)) as E0.
      rewrite Z.add_0_r in E0.
      rewrite E0, !(Hframe x y0 Hin) by lia.
      unfold d1. rewrite !get_colorPixel by lia.
      rewrite decide_True by done.
      rewrite decide_False, decide_True by lia.
      rewrite decide_False, decide_False, decide_True by lia.
      rewrite decide_False, decide_False, decide_False, decide_True by lia.
      done. }
    split.
    { intros x' y' Hin' Hout k Hk.
      rewrite Hframe by (done || lia). apply Hd1; [done| |done].
      intros [= -> ->]. apply Hout. lia. }
    split.
    { rewrite !length_app.
      assert (Z.of_nat (length pL) ≤ 1) by (destruct HL2 as [->|[-> _]]; cbn; lia).
      assert (Z.of_nat (length pR) ≤ 1) by (destruct HR2 as [->|[-> _]]; cbn; lia).
      lia. }
    split.
    { intros e [He|[He|He]%elem_of_app]%elem_of_app.
      - destruct (Hent e He) as (ey & Hey & Hshape & Ho). exists ey.
        split; [lia|]. split; [done|].
        apply Haway; [|done]. destruct Hshape as [->| ->]; intros [= ?]; lia.
      - destruct HR2 as [->|[-> Ho]]; [by apply elem_of_nil in He|].
        apply list_elem_of_singleton in He as ->. exists y0.
        split; [lia|]. split; [by right|]. apply Haway; [intros [= ?]; lia|done].
      - destruct HL2 as [->|[-> Ho]]; [by apply elem_of_nil in He|].
        apply list_elem_of_singleton in He as ->. exists y0.
        split; [lia|]. split; [by left|]. apply Haway; [intros [= ?]; lia|done]. }
    split.
    { assert (Hkeep : ∀ cx, cx ≠ x → ∀ i, Open d1 cx i → Open d' cx i).
      { intros cx Hcx i Hi. apply (Open_ext d1); [|done].
        intros k Hk. apply Hframe; [by destruct Hi|lia|done]. }
      intros j Hj. rewrite <- !app_assoc.
      destruct (decide (j = y0)) as [->|Hjne].
      - split; intros Ho.
        + eapply Covered_mono; [apply HL3, HL4, Hcol; [lia|done]|apply Hkeep; lia|].
          intros e He. rewrite !elem_of_app in *. tauto.
        + eapply Covered_mono; [apply HR3, HR4, Hcol; [lia|done]|apply Hkeep; lia|].
          intros e He. rewrite !elem_of_app in *. tauto.
      - destruct (Hcov j ltac:(lia)) as [HcL HcR].
        split; intros Ho; [apply HcL|apply HcR]; apply Hcol; (lia || done). }
    rewrite (openSet_colorPixel d x y0) by done. fold d1. lia.
Qed.

Lemma matches_rgb (d : list Z) (x y : Z) :
  matches d (pos x y) = true ↔ FloodFill.rgb w d x y = target.
Proof.
  unfold FloodFill.matches, FloodFill.rgb. cbn [fst snd].
  rewrite !andb_true_iff, !bool_decide_eq_true. split.
  - by intros [[-> ->] ->].
  - by intros [= -> -> ->].
Qed.

Lemma Filled_not_Open (d : list Z) (x y : Z) :
  FloodFill.Filled w fillc d x y → ¬ Open d x y.
Proof.
  intros [Hf _] [_ Hm%matches_rgb]. rewrite Hf in Hm. cbn in Hm.
  injection Hm as -> -> ->. by apply Hcolors.
Qed.

Lemma Filled_ext (d d' : list Z) (x y : Z) :
  (∀ k, 0 ≤ k < 4 → FloodFill.get d' (pos x y + k) = FloodFill.get d (pos x y + k)) →
  FloodFill.Filled w fillc d x y → FloodFill.Filled w fillc d' x y.
Proof.
  intros H. unfold FloodFill.Filled, FloodFill.rgb, FloodFill.alpha.
  pose proof (H 0 ltac:(lia)) as H0. rewrite Z.add_0_r in H0.
  by rewrite H0, (H 1), (H 2), (H 3) by lia.
Qed.

Lemma Same_ext (d0 d d' : list Z) (x y : Z) :
  (∀ k, 0 ≤ k < 4 → FloodFill.get d' (pos x y + k) = FloodFill.get d (pos x y + k)) →
  FloodFill.Same w d0 d x y → FloodFill.Same w d0 d' x y.
Proof.
  intros H. unfold FloodFill.Same, FloodFill.rgb, FloodFill.alpha.
  pose proof (H 0 ltac:(lia)) as H0. rewrite Z.add_0_r in H0.
  by rewrite H0, (H 1), (H 2), (H 3) by lia.
Qed.

Context (d0 : list Z) (sx sy : Z).
Context (Hlen0 : Z.of_nat (length d0) = 4 * (w * h)).
Context (Hstart : FloodFill.inside w h sx sy).
Context (Hrgb : FloodFill.rgb w d0 sx sy = target).

Local Abbreviation InRegion := (FloodFill.Region (FloodFill.mkImageData w h d0) sx sy).
Local Abbreviation Inv := (FloodFill.Inv w h target fillc d0 sx sy).

Lemma Open0_rgb (x y : Z) :
  Open d0 x y → FloodFill.rgb w d0 x y = FloodFill.rgb w d0 sx sy.
Proof. intros [_ Hm%matches_rgb]. by rewrite Hm, Hrgb. Qed.

Lemma Region_Open0 (x y : Z) : InRegion x y → Open d0 x y.
Proof.
  intros [|a b x' y' _ _ Hin Hc].
  - split; [done|]. by apply matches_rgb.
  - split; [done|]. apply matches_rgb. cbn in Hc. by rewrite Hc.
Qed.

Lemma Region_down (x a : Z) (n : nat) :
  InRegion x a → (∀ i, a < i ≤ a + Z.of_nat n → Open d0 x i) →
  InRegion x (a + Z.of_nat n).
Proof.
  intros Ha. induction n as [|n IH]; intros Hseg.
  - by rewrite Z.add_0_r.
  - replace (a + Z.of_nat (S n)) with (a + Z.of_nat n + 1) by lia.
    assert (Ho : Open d0 x (a + Z.of_nat n + 1)) by (apply Hseg; lia).
    apply (FloodFill.region_step _ _ _ x (a + Z.of_nat n)).
    + apply IH. intros i Hi. apply Hseg. lia.
    + left. split; [done|by left].
    + by destruct Ho.
    + by apply Open0_rgb.
Qed.

Lemma Region_up (x a : Z) (n : nat) :
  InRegion x a → (∀ i, a - Z.of_nat n ≤ i < a → Open d0 x i) →
  InRegion x (a - Z.of_nat n).
Proof.
  intros Ha. induction n as [|n IH]; intros Hseg.
  - by rewrite Z.sub_0_r.
  - replace (a - Z.of_nat (S n)) with (a - Z.of_nat n - 1) by lia.
    assert (Ho : Open d0 x (a - Z.of_nat n - 1)) by (apply Hseg; lia).
    apply (FloodFill.region_step _ _ _ x (a - Z.of_nat n)).
    + apply IH. intros i Hi. apply Hseg. lia.
    + left. split; [done|by right].
    + by destruct Ho.
    + by apply Open0_rgb.
Qed.

(** From a pixel of the region, along its column, through open pixels. *)
Lemma Region_column (x a b : Z) :
  InRegion x a →
  (∀ i, (a < i ≤ b ∨ b ≤ i < a) → Open d0 x i) →
  InRegion x b.
Proof.
  intros Ha Hseg. destruct (Z.le_gt_cases a b).
  - replace b with (a + Z.of_nat (Z.to_nat (b - a))) by lia.
    apply Region_down; [done|]. intros i Hi. apply Hseg. lia.
  - replace b with (a - Z.of_nat (Z.to_nat (a - b))) by lia.
    apply Region_up; [done|]. intros i Hi. apply Hseg. lia.
Qed.

Lemma Open_then_Open0 (d : list Z) (st : list (Z * Z)) (x y : Z) :
  Inv d st → Open d x y → Open d0 x y.
Proof.
  intros HI Ho. pose proof Ho as [Hin Hm].
  destruct (FloodFill.inv_frame _ _ _ _ _ _ _ _ _ HI x y Hin) as [[Hs _]|[_ Hf]].
  - split; [done|]. apply matches_rgb. rewrite <- Hs. by apply matches_rgb.
  - by apply Filled_not_Open in Hf.
Qed.

(** Once round the outer loop. *)
Lemma drain_step (d : list Z) (x y : Z) (st : list (Z * Z)) :
  Inv d ((x, y) :: st) →
  ∃ d' st',
    (let '(y', p') := FloodFill.climb w target d y (pos x y) in
     FloodFill.descend w h target fillc x (y' + 1) (p' + w * 4) d st) = (d', st')
    ∧ Inv d' st'
    ∧ (2 * size (openSet d') + length st' ≤ 2 * size (openSet d) + length st)%nat.
Proof.
  intros HI. pose proof HI as [Il Ifr Ist Icl Istart].
  assert (Hreg : InRegion x y) by (apply (Ist (x, y)), list_elem_of_here).
  pose proof (Region_Open0 _ _ Hreg) as [[Hx Hy] _].
  assert (Hlen : Z.of_nat (length d) = 4 * (w * h)) by (by rewrite Il).
  destruct (climb_spec d x (Z.to_nat (y + 1)) y)
    as (y' & Hclimb & Hy' & Hup & Htop); [done|lia|done|].
  rewrite Hclimb. unfold FloodFill.descend. rewrite <- pos_down.
  destruct (down_spec x (Z.to_nat (h - (y' + 1))) Hx (y' + 1) d st false false)
    as (y1 & pushes & d' & Hdown & Hle & Hrun & Hbot & Hlen' & Hfill & Hframe
        & Hcount & Hent & Hcov & Hsize); [done|lia|done|done|done|].
  exists d', (pushes ++ st). split; [done|].
  set (y0 := y' + 1) in *.
  assert (Htop' : ¬ Open d x (y0 - 1)) by (by replace (y0 - 1) with y' by lia).
  assert (Hfresh : Open d x y → y0 ≤ y < y1).
  { intros Ho. assert (y' ≠ y) by (intros ->; done).
    split; [lia|]. destruct (Z.lt_ge_cases y y1) as [|Hge]; [done|].
    exfalso. apply Hbot. apply Hup. lia. }
  assert (Hstale : ¬ Open d x y → y0 = y + 1).
  { intros Hno. destruct (decide (y' = y)) as [->|]; [done|].
    exfalso. apply Hno, Hup. lia. }
  (* outside the run nothing changed; inside it everything is filled *)
  assert (Hout : ∀ a b, FloodFill.inside w h a b → ¬ (a = x ∧ y0 ≤ b < y1) →
                 Open d' a b ↔ Open d a b).
  { intros a b Hin Hno. apply Open_ext. intros k Hk. by apply Hframe. }
  assert (Hrunfill : ∀ a b, a = x ∧ y0 ≤ b < y1 → ¬ Open d' a b).
  { intros a b [-> Hb]. by apply Filled_not_Open, Hfill. }
  assert (Hrunreg : ∀ j, y0 ≤ j < y1 → InRegion x j).
  { intros j Hj. apply (Region_column x y); [done|].
    intros i Hi. apply (Open_then_Open0 d ((x, y) :: st)); [done|].
    destruct (decide (y0 ≤ i < y1)); [by apply Hrun|].
    destruct (matches d (pos x y)) eqn:Hm.
    - assert (Open d x y) as Ho%Hfresh by (by split). lia.
    - assert (¬ Open d x y) as Hs%Hstale by (intros [_ ?]; congruence). lia. }
  (* what was covered and is still open is covered *)
  assert (Hkeep : ∀ a b, Covered d ((x, y) :: st) a b → Open d' a b →
                  Covered d' (pushes ++ st) a b).
  { intros a b (s & Hs & Hsb & Hseg) Ho.
    assert (Hnorun : ∀ i, s ≤ i ≤ b → ¬ (a = x ∧ y0 ≤ i < y1)).
    { intros i Hi [-> Hrun'].
      assert (¬ (y0 ≤ b < y1)) by (intros ?; by apply (Hrunfill x b)).
      apply Hbot, Hseg. lia. }
    exists s. split; [|split; [done|]].
    - apply elem_of_app. right.
      apply elem_of_cons in Hs as [[= -> ->]|Hs]; [|done].
      exfalso. assert (Open d x y) as Hoy by (apply Hseg; lia).
      apply (Hnorun y); [lia|]. split; [done|by apply Hfresh].
    - intros i Hi. pose proof (Hseg i Hi) as Hoi.
      apply Hout; [by destruct Hoi|by apply Hnorun|done]. }
  split; [split|].
  - by rewrite Hlen'.
  - intros a b Hin.
    destruct (decide (a = x ∧ y0 ≤ b < y1)) as [[-> Hb]|Hno].
    + right. split; [by apply Hrunreg|by apply Hfill].
    + destruct (Ifr a b Hin) as [Hs|[Hr Hf]].
      * left. eapply Same_ext; [|done]. intros k Hk. by apply Hframe.
      * right. split; [done|]. eapply Filled_ext; [|done].
        intros k Hk. by apply Hframe.
  - intros e [He|He]%elem_of_app; [|apply Ist; by apply list_elem_of_further].
    destruct (Hent e He) as (ey & Hey & Hshape & Ho).
    apply (FloodFill.region_step _ _ _ x ey).
    + by apply Hrunreg.
    + right. destruct Hshape as [->| ->]; cbn; split; (done || by (left + right)).
    + by destruct Ho.
    + apply Open0_rgb. by apply (Open_then_Open0 d ((x, y) :: st)).
  - intros a b a' b' Ho0 Hno Hadj Ho'.
    assert (Hin' : FloodFill.inside w h a' b') by (by destruct Ho').
    assert (Hnr' : ¬ (a' = x ∧ y0 ≤ b' < y1))
      by (intros ?; by apply (Hrunfill a' b')).
    assert (Hod : Open d a' b') by (by apply Hout).
    destruct (decide (a = x ∧ y0 ≤ b < y1)) as [[-> Hb]|Hnr].
    + destruct Hadj as [[-> Hv]|[-> Hside]].
      * exfalso.
        destruct Hv as [-> | ->].
        -- apply Hbot. replace y1 with (b + 1) by lia. done.
        -- apply Htop'. replace (y0 - 1) with (b - 1) by lia. done.
      * split; [done|]. destruct (Hcov b Hb) as [HcL HcR].
        destruct Hside as [-> | ->]; [by apply HcR|by apply HcL].
    + assert (Hnod : ¬ Open d a b).
      { intros Hoab. apply Hno. apply Hout; [by destruct Ho0|done|done]. }
      destruct (Icl a b a' b' Ho0 Hnod Hadj Hod) as [-> Hc].
      split; [done|]. by apply Hkeep.
  - destruct Istart as [[Ho0 Hno]|Hc].
    + left. split; [done|]. intros Ho'.
      destruct (decide (sx = x ∧ y0 ≤ sy < y1)) as [Hr|Hnr].
      * by apply (Hrunfill sx sy).
      * apply Hno. by apply Hout.
    + destruct (matches d' (pos sx sy)) eqn:Hm.
      * right. apply Hkeep; [done|by split].
      * left. split.
        -- apply (Open_then_Open0 d ((x, y) :: st)); [done|by apply Covered_Open in Hc].
        -- intros [_ ?]. congruence.
  - rewrite length_app. lia.
Qed.

Lemma drain_spec (fuel : nat) :
  ∀ d st, Inv d st →
    (2 * size (openSet d) + length st ≤ fuel)%nat →
    ∃ d', FloodFill.drain w h target fillc fuel d st = Some d' ∧ Inv d' [].
Proof.
  induction fuel as [|fuel IH]; intros d st HI Hfuel.
  - destruct st as [|[x y] st]; [by exists d|]. cbn in Hfuel. lia.
  - destruct st as [|[x y] st]; [by exists d|].
    destruct (drain_step d x y st HI) as (d' & st' & Heq & HI' & Hm).
    cbn [FloodFill.drain].
    change ((y * w + x) * 4) with (pos x y).
    destruct (FloodFill.climb w target d y (pos x y)) as [y' p'].
    rewrite Heq. apply IH; [done|]. cbn [length] in Hfuel. lia.
Qed.

Lemma Inv_start : Inv d0 [(sx, sy)].
Proof.
  assert (Ho : Open d0 sx sy) by (split; [done|by apply matches_rgb]).
  split.
  - done.
  - intros x y _. by left.
  - intros e ->%list_elem_of_singleton. apply FloodFill.region_start.
  - intros x y x' y' Hy Hn. done.
  - right. apply Covered_here; [apply list_elem_of_here|done].
Qed.

Lemma Inv_end (d : list Z) (x y : Z) :
  Inv d [] → FloodFill.inside w h x y →
  (InRegion x y → FloodFill.Filled w fillc d x y)
  ∧ (¬ InRegion x y → FloodFill.Same w d0 d x y).
Proof.
  intros [Il Ifr Ist Icl Istart] Hin.
  assert (Hnocover : ∀ a b, ¬ Covered d [] a b).
  { intros a b (s & Hs & _). by apply elem_of_nil in Hs. }
  assert (Hpainted : ∀ a b, InRegion a b → ¬ Open d a b).
  { intros a b Hr. induction Hr as [|a b a' b' Hr IH Hadj Hin' Hc].
    - destruct Istart as [[_ ?]|Hc]; [done|]. by apply Hnocover in Hc.
    - intros Ho. destruct (Icl a b a' b') as [_ Hcov]; try done.
      + by apply Region_Open0.
      + by apply Hnocover in Hcov. }
  split.
  - intros Hr. destruct (Ifr x y Hin) as [[Hs _]|[_ Hf]]; [|done].
    exfalso. apply (Hpainted x y Hr). split; [done|].
    apply matches_rgb. rewrite Hs. apply matches_rgb. by apply Region_Open0.
  - intros Hnr. destruct (Ifr x y Hin) as [Hs|[Hr _]]; done.
Qed.

Lemma size_openSet_le (d : list Z) : (size (openSet d) ≤ Z.to_nat (w * h))%nat.
Proof.
  unfold FloodFill.openSet.
  etransitivity.
  - apply subseteq_size. intros k Hk. apply elem_of_filter in Hk as [_ Hk]. exact Hk.
  - rewrite size_list_to_set by apply NoDup_seqZ. by rewrite length_seqZ.
Qed.

End FloodFillProof.

(** What [floodFill] returns, on a start pixel of the fill colour and on
    any other. *)
Lemma floodFill_spec (img : FloodFill.ImageData) (startX startY : Z)
    (fillColorStr : string) (fuel : nat) :
  let w := FloodFill.width img in
  let h := FloodFill.height img in
  let d := FloodFill.data img in
  let fillColor := Sketch.hexToRgb fillColorStr in
  let fillRgb := (Some fillColor.1.1, Some fillColor.1.2, Some fillColor.2) in
  Z.of_nat (length d) = 4 * (w * h) →
  FloodFill.inside w h startX startY →
  (2 * Z.to_nat (w * h) + 1 ≤ fuel)%nat →
  (FloodFill.rgb w d startX startY = fillRgb →
   FloodFill.floodFill fuel img startX startY fillColorStr = Some img)
  ∧ (FloodFill.rgb w d startX startY ≠ fillRgb →
     ∃ d', FloodFill.floodFill fuel img startX startY fillColorStr
           = Some (FloodFill.mkImageData w h d')
       ∧ length d' = length d
       ∧ ∀ x y, FloodFill.inside w h x y →
           (FloodFill.Region img startX startY x y → FloodFill.Filled w fillColor d' x y)
           ∧ (¬ FloodFill.Region img startX startY x y → FloodFill.Same w d d' x y)).
Proof.
  destruct img as [w h d]. cbn [FloodFill.width FloodFill.height FloodFill.data].
  intros Hlen Hin Hfuel.
  destruct (Sketch.hexToRgb fillColorStr) as [[fr fg] fb] eqn:Hfill. cbn [fst snd].
  assert (Hw : 0 < w) by (destruct Hin; lia).
  assert (Hb : ∀ k, 0 ≤ k < 4 →
               is_Some (FloodFill.get d (FloodFill.pixelPos w startX startY + k))).
  { intros k Hk. apply get_lt_Some. rewrite Hlen. by apply pos_bounds. }
  destruct (Hb 0 ltac:(lia)) as [tr Htr]. rewrite Z.add_0_r in Htr.
  destruct (Hb 1 ltac:(lia)) as [tg Htg].
  destruct (Hb 2 ltac:(lia)) as [tb Htb].
  assert (Hrgb : FloodFill.rgb w d startX startY = (Some tr, Some tg, Some tb))
    by (unfold FloodFill.rgb; by rewrite Htr, Htg, Htb).
  rewrite Hrgb. unfold FloodFill.floodFill.
  cbn [FloodFill.width FloodFill.height FloodFill.data]. rewrite Hfill. cbn [fst snd].
  change ((startY * w + startX) * 4) with (FloodFill.pixelPos w startX startY).
  rewrite Htr, Htg, Htb. split.
  - intros [= -> -> ->]. by rewrite !bool_decide_true.
  - intros Hne.
    assert (Hcolors : (tr, tg, tb) ≠ (fr, fg, fb)) by (intros [= -> -> ->]; done).
    assert (bool_decide (Some tr = Some fr) && bool_decide (Some tg = Some fg)
            && bool_decide (Some tb = Some fb) = false) as ->.
    { apply not_true_is_false. rewrite !andb_true_iff, !bool_decide_eq_true.
      intros [[[= ->] [= ->]] [= ->]]. done. }
    destruct (drain_spec w h Hw tr tg tb fr fg fb Hcolors d startX startY Hlen Hin Hrgb
                fuel d [(startX, startY)]) as (d' & Hdrain & Hinv).
    { by apply Inv_start. }
    { pose proof (size_openSet_le w h tr tg tb d). cbn [length]. lia. }
    rewrite Hdrain. exists d'. split; [done|]. split.
    + by destruct Hinv.
    + intros x y Hxy.
      eapply Inv_end; eauto.
Qed.

Lemma floodFill_same_colour (img : FloodFill.ImageData) (startX startY : Z)
    (fillColorStr : string) (fuel : nat) :
  let fillColor := Sketch.hexToRgb fillColorStr in
  FloodFill.rgb (FloodFill.width img) (FloodFill.data img) startX startY
  = (Some fillColor.1.1, Some fillColor.1.2, Some fillColor.2) →
  FloodFill.floodFill fuel img startX startY fillColorStr = Some img.
Proof.
  cbv zeta. unfold FloodFill.rgb, FloodFill.floodFill, FloodFill.pixelPos.
  intros [= -> -> ->]. cbn [fst snd]. by rewrite !bool_decide_true.
Qed.

(** X26. [floodFill] fills the region of the start pixel and nothing
    else. On an image of [width * height] RGBA pixels, started inside the
    canvas on a pixel whose colour is not the fill colour, the loop ends
    (twice the number of pixels, plus one, times round the outer loop are
    always enough) and leaves an image of the same size in which every
    pixel that can be reached from the start through adjacent pixels of the
    colour of the start (side by side or one above the other, never
    diagonally, never leaving the canvas) has the fill colour and is
    opaque, and every other pixel is as it was, colour and opacity. Started
    on a pixel that has the fill colour already, it returns at once and
    changes nothing. *)
Theorem floodFill_fills_the_region (img : FloodFill.ImageData) (startX startY : Z)
    (fillColorStr : string) (fuel : nat) :
  let w := FloodFill.width img in
  let h := FloodFill.height img in
  let d := FloodFill.data img in
  let fillColor := Sketch.hexToRgb fillColorStr in
  let fillRgb := (Some fillColor.1.1, Some fillColor.1.2, Some fillColor.2) in
  Z.of_nat (length d) = 4 * (w * h) →
  FloodFill.inside w h startX startY →
  (2 * Z.to_nat (w * h) + 1 ≤ fuel)%nat →
  (FloodFill.rgb w d startX startY = fillRgb →
   FloodFill.floodFill fuel img startX startY fillColorStr = Some img)
  ∧ (FloodFill.rgb w d startX startY ≠ fillRgb →
     ∃ d', FloodFill.floodFill fuel img startX startY fillColorStr
           = Some (FloodFill.mkImageData w h d')
       ∧ length d' = length d
       ∧ ∀ x y, FloodFill.inside w h x y →
           (FloodFill.Region img startX startY x y → FloodFill.Filled w fillColor d' x y)
           ∧ (¬ FloodFill.Region img startX startY x y → FloodFill.Same w d d' x y)).
Proof. apply floodFill_spec. Qed.


Lemma floodFill_fills_the_region_witness :
  let white := [255; 255; 255; 255] in
  let black := [0; 0; 0; 255] in
  let img := FloodFill.mkImageData 3 2
               (white ++ black ++ white ++ white ++ black ++ white) in
  ∃ d', FloodFill.floodFill 13 img 0 0 "#FF0000" = Some (FloodFill.mkImageData 3 2 d')
    ∧ length d' = 24%nat
    ∧ ∀ x y, FloodFill.inside 3 2 x y →
        (FloodFill.Region img 0 0 x y → FloodFill.Filled 3 (255, 0, 0) d' x y)
        ∧ (¬ FloodFill.Region img 0 0 x y → FloodFill.Same 3 (FloodFill.data img) d' x y).
Proof.
  intros white black img.
  apply (floodFill_fills_the_region img 0 0 "#FF0000" 13).
  - reflexivity.
  - unfold FloodFill.inside. cbn. lia.
  - cbn. lia.
  - discriminate.
Defined.

(** X27. Filling twice is filling once: on an image of the canvas, started
    inside it, [floodFill] returns an image on which the same fill, at the
    same place with the same colour, returns at once and changes nothing. *)
Theorem floodFill_twice (img : FloodFill.ImageData) (startX startY : Z)
    (fillColorStr : string) (fuel : nat) :
  let w := FloodFill.width img in
  let h := FloodFill.height img in
  Z.of_nat (length (FloodFill.data img)) = 4 * (w * h) →
  FloodFill.inside w h startX startY →
  (2 * Z.to_nat (w * h) + 1 ≤ fuel)%nat →
  ∃ img', FloodFill.floodFill fuel img startX startY fillColorStr = Some img'
    ∧ ∀ fuel', FloodFill.floodFill fuel' img' startX startY fillColorStr = Some img'.
Proof.
  cbv zeta. intros Hlen Hin Hfuel.
  destruct (floodFill_spec img startX startY fillColorStr fuel Hlen Hin Hfuel)
    as [Hsame Hfill].
  destruct (decide (FloodFill.rgb (FloodFill.width img) (FloodFill.data img)
                      startX startY
                    = (Some (Sketch.hexToRgb fillColorStr).1.1,
                       Some (Sketch.hexToRgb fillColorStr).1.2,
                       Some (Sketch.hexToRgb fillColorStr).2))) as [Heq|Hne].
  - exists img. split; [by apply Hsame|]. intros fuel'.
    by apply floodFill_same_colour.
  - destruct (Hfill Hne) as (d' & Hd' & _ & Hpix).
    eexists. split; [exact Hd'|]. intros fuel'.
    apply floodFill_same_colour. cbn [FloodFill.width FloodFill.data].
    destruct (Hpix startX startY Hin) as [Hreg _].
    by destruct (Hreg (FloodFill.region_start _ _ _)) as [Hf _].
Qed.

Lemma floodFill_twice_witness :
  let white := [255; 255; 255; 255] in
  let black := [0; 0; 0; 255] in
  let img := FloodFill.mkImageData 3 2
               (white ++ black ++ white ++ white ++ white ++ white) in
  ∃ img', FloodFill.floodFill 13 img 0 0 "#ff0000" = Some img'
    ∧ ∀ fuel', FloodFill.floodFill fuel' img' 0 0 "#ff0000" = Some img'.
Proof.
  intros white black img.
  apply (floodFill_twice img 0 0 "#ff0000" 13).
  - reflexivity.
  - unfold FloodFill.inside. cbn. lia.
  - cbn. lia.
Defined.


(** * Further properties of the clock *)













(** * Further properties of the lobby *)

Lemma isSpace_lowerChar (c : ascii) : Js.isSpace (Js.lowerChar c) = Js.isSpace c.
Proof. destruct c as [[] [] [] [] [] [] [] []]; vm_compute; reflexivity. Qed.

Lemma lowerChar_idemp (c : ascii) : Js.lowerChar (Js.lowerChar c) = Js.lowerChar c.
Proof. destruct c as [[] [] [] [] [] [] [] []]; vm_compute; reflexivity. Qed.

Lemma toLowerCase_idemp (s : string) :
  Js.toLowerCase (Js.toLowerCase s) = Js.toLowerCase s.
Proof. induction s as [|c s IH]; [done|]. cbn. by rewrite lowerChar_idemp, IH. Qed.

Lemma trimStart_toLowerCase (s : string) :
  Js.trimStart (Js.toLowerCase s) = Js.toLowerCase (Js.trimStart s).
Proof.
  induction s as [|c s IH]; [done|]. cbn. rewrite isSpace_lowerChar.
  by destruct (Js.isSpace c).
Qed.

Lemma trimEnd_toLowerCase (s : string) :
  Js.trimEnd (Js.toLowerCase s) = Js.toLowerCase (Js.trimEnd s).
Proof.
  induction s as [|c s IH]; [done|]. cbn. rewrite IH, isSpace_lowerChar.
  destruct (Js.trimEnd s); cbn; [by destruct (Js.isSpace c)|done].
Qed.

Lemma trim_toLowerCase (s : string) :
  Js.trim (Js.toLowerCase s) = Js.toLowerCase (Js.trim s).
Proof. unfold Js.trim. by rewrite trimStart_toLowerCase, trimEnd_toLowerCase. Qed.

Lemma trimEnd_idemp (s : string) : Js.trimEnd (Js.trimEnd s) = Js.trimEnd s.
Proof.
  induction s as [|c s IH]; [done|]. cbn.
  destruct (Js.trimEnd s) as [|a r] eqn:Hr.
  - destruct (Js.isSpace c) eqn:Hc; [done|]. cbn. by rewrite Hc.
  - cbn. cbn in IH. by rewrite IH.
Qed.

Lemma trimStart_trimEnd_trimStart (s : string) :
  Js.trimStart (Js.trimEnd (Js.trimStart s)) = Js.trimEnd (Js.trimStart s).
Proof.
  induction s as [|c s IH]; [done|].
  change (Js.trimStart (String c s))
    with (if Js.isSpace c then Js.trimStart s else String c s).
  destruct (Js.isSpace c) eqn:Hc; [exact IH|].
  change (Js.trimEnd (String c s))
    with (match Js.trimEnd s with
          | EmptyString => if Js.isSpace c then EmptyString else String c EmptyString
          | r' => String c r'
          end).
  rewrite Hc. destruct (Js.trimEnd s); cbn; by rewrite Hc.
Qed.

Lemma trim_idemp (s : string) : Js.trim (Js.trim s) = Js.trim s.
Proof.
  unfold Js.trim. by rewrite trimStart_trimEnd_trimStart, trimEnd_idemp.
Qed.

Lemma plain_cons (c : ascii) (s : string) :
  Lobby.plain (String c s) = true →
  Js.isSpace c = false ∧ Js.lowerChar c = c ∧ Lobby.plain s = true.
Proof.
  unfold Lobby.plain. cbn. intros [[Hs He]%andb_true_iff Hr]%andb_true_iff.
  split; [by destruct (Js.isSpace c)|]. split; [by apply Ascii.eqb_eq|done].
Qed.

Lemma plain_trimEnd (s : string) : Lobby.plain s = true → Js.trimEnd s = s.
Proof.
  induction s as [|c s IH]; [done|]. intros (Hs & _ & Hr)%plain_cons. cbn.
  rewrite IH by done. destruct s; [by rewrite Hs|done].
Qed.

Lemma plain_toLowerCase (s : string) : Lobby.plain s = true → Js.toLowerCase s = s.
Proof.
  induction s as [|c s IH]; [done|]. intros (_ & Hl & Hr)%plain_cons. cbn.
  by rewrite Hl, IH.
Qed.

Lemma plain_clean (s : string) :
  Lobby.plain s = true → s ≠ "" → Lobby.cleanRoomId s = s.
Proof.
  intros Hp Hne. unfold Lobby.cleanRoomId, Js.orStr, Js.trim.
  rewrite decide_False by done.
  assert (Js.trimStart s = s) as ->.
  { destruct s as [|c s]; [done|]. apply plain_cons in Hp as (Hs & _). cbn.
    by rewrite Hs. }
  by rewrite plain_trimEnd, plain_toLowerCase.
Qed.

Lemma charAt_chars (i : nat) :
  (i < 36)%nat →
  ∃ c, Lobby.charAt Lobby.chars i = String c ""
       ∧ Js.isSpace c = false ∧ Js.lowerChar c = c.
Proof.
  intros Hi.
  do 36 (destruct i as [|i];
         [eexists; split; [reflexivity|split; vm_compute; reflexivity]|]).
  lia.
Qed.

Lemma generateRoomId_plain (draw : nat → nat) :
  (∀ i, (draw i < 36)%nat) →
  String.length (Lobby.generateRoomId draw) = 6%nat
  ∧ Lobby.plain (Lobby.generateRoomId draw) = true.
Proof.
  intros Hd. unfold Lobby.generateRoomId. cbn [seq foldl].
  destruct (charAt_chars _ (Hd 0%nat)) as (c0 & -> & Hs0 & Hl0).
  destruct (charAt_chars _ (Hd 1%nat)) as (c1 & -> & Hs1 & Hl1).
  destruct (charAt_chars _ (Hd 2%nat)) as (c2 & -> & Hs2 & Hl2).
  destruct (charAt_chars _ (Hd 3%nat)) as (c3 & -> & Hs3 & Hl3).
  destruct (charAt_chars _ (Hd 4%nat)) as (c4 & -> & Hs4 & Hl4).
  destruct (charAt_chars _ (Hd 5%nat)) as (c5 & -> & Hs5 & Hl5).
  cbv [String.append]. split; [done|].
  unfold Lobby.plain. cbn [list_ascii_of_string forallb].
  rewrite Hs0, Hs1, Hs2, Hs3, Hs4, Hs5, Hl0, Hl1, Hl2, Hl3, Hl4, Hl5.
  by rewrite !Ascii.eqb_refl.
Qed.

(** The property names of [Object.prototype] have seven characters or
    more. *)
Lemma inherited_length (k : string) :
  inherited k = true → (7 ≤ String.length k)%nat.
Proof.
  unfold inherited, inheritedKeys. intros H%bool_decide_eq_true.
  repeat (apply elem_of_cons in H as [->|H]; [cbn; lia|]).
  by apply elem_of_nil in H.
Qed.

(** The entry a join leaves for the joining socket. *)
Lemma joinedRoom_entry (sid username avatar : string) (game : Game.t) :
  ∃ j p, Game.players (joinedRoom sid username avatar game) !! j = Some p
         ∧ Player.id p = sid ∧ Player.name p = username.
Proof.
  unfold joinedRoom.
  destruct (findExisting sid username (Game.players game)) as [[i p]|] eqn:Hf.
  - assert (Hi : (i < length (Game.players game))%nat).
    { unfold findExisting in Hf.
      destruct (findById sid (Game.players game)) as [[k q]|] eqn:Hid.
      - injection Hf as -> ->. apply findById_lookup in Hid as [Hq _].
        by eapply lookup_lt_Some.
      - apply findByName_lookup in Hf. by eapply lookup_lt_Some. }
    exists i, (Player.mk sid username
                 (if decide (avatar = "") then Player.avatar p else avatar)
                 (Player.score p) (Player.guessed p) false false).
    split; [|split; reflexivity].
    destruct (decide _); cbn; by apply list_lookup_insert_eq.
  - exists (length (Game.players game)),
      (Player.mk sid username (Js.orStr avatar defaultAvatar) 0 false false false).
    split; [|split; reflexivity].
    cbn. rewrite lookup_app_r by lia. by rewrite Nat.sub_diag.
Qed.

(** A join leaves the entries of the other sockets, under other names, in
    place. *)
Lemma joinedRoom_keeps (sid username avatar : string) (game : Game.t)
    (j : nat) (p : Player.t) :
  Game.players game !! j = Some p →
  Player.id p ≠ sid → Player.name p ≠ username →
  Game.players (joinedRoom sid username avatar game) !! j = Some p.
Proof.
  intros Hj Hid Hname. unfold joinedRoom.
  destruct (findExisting sid username (Game.players game)) as [[i q]|] eqn:Hf.
  - assert (Hij : i ≠ j).
    { intros ->. unfold findExisting in Hf.
      destruct (findById sid (Game.players game)) as [[k r]|] eqn:Hfid.
      - injection Hf as -> ->. apply findById_lookup in Hfid as [Hq Hq'].
        congruence.
      - apply list_find_Some in Hf as (Hq & Hq' & _). congruence. }
    destruct (decide _); cbn; by rewrite list_lookup_insert_ne.
  - cbn. apply lookup_app_l_Some. done.
Qed.

(** X29. A room code reaches its room. [generateRoomId] gives six
    characters out of the small letters and the digits, which
    [handleJoin] sends as they are; whatever is typed instead, [handleJoin]
    sends it trimmed and in small letters, and sending what it sends again
    changes nothing more (unless nothing but blanks was typed). So when one
    player creates a room under a code and another, on another socket and
    under another name, joins with a text that differs from the code by
    capitals and blanks around it only, the server lists both in the room
    of that code. *)
Theorem room_code_reaches_the_room (draw : nat → nat) (typed : string)
    (srv : Server) (sidA sidB userA userB avatarA avatarB : string)
    (rounds drawTime : Z) :
  (∀ i, (draw i < 36)%nat) →
  let code := Lobby.generateRoomId draw in
  Js.toLowerCase (Js.trim typed) = code →
  userA ≠ "" → userB ≠ "" → userA ≠ userB → sidA ≠ sidB →
  String.length code = 6%nat
  ∧ Lobby.cleanRoomId code = code
  ∧ Lobby.cleanRoomId typed = code
  ∧ ∃ srv1 srv2 g,
      Lobby.submit (Lobby.handleJoin sidA Lobby.CREATE code userA avatarA
                      rounds drawTime) srv = Some srv1
      ∧ Lobby.submit (Lobby.handleJoin sidB Lobby.JOIN typed userB avatarB
                        rounds drawTime) srv1 = Some srv2
      ∧ games srv2 !! code = Some g
      ∧ (∃ j p, Game.players g !! j = Some p
                ∧ Player.id p = sidA ∧ Player.name p = userA)
      ∧ (∃ j p, Game.players g !! j = Some p
                ∧ Player.id p = sidB ∧ Player.name p = userB).
Proof.
  intros Hdraw. cbv zeta.
  generalize (generateRoomId_plain draw Hdraw).
  generalize (Lobby.generateRoomId draw).
  intros code [Hlen Hplain] Htyped HuA HuB Hu Hs.
  assert (Hne : code ≠ "") by (intros E; by rewrite E in Hlen).
  assert (Hown : inherited code = false).
  { destruct (inherited code) eqn:E; [|done]. apply inherited_length in E. lia. }
  assert (Hcode : Lobby.cleanRoomId code = code) by (by apply plain_clean).
  assert (Htypedne : typed ≠ "").
  { intros ->. cbn in Htyped. by rewrite <- Htyped in Hne. }
  assert (Hclean : Lobby.cleanRoomId typed = code).
  { unfold Lobby.cleanRoomId, Js.orStr. by rewrite decide_False. }
  split; [done|]. split; [done|]. split; [done|].
  unfold Lobby.handleJoin. rewrite !decide_False by done.
  rewrite Hcode, Hclean. cbn [Lobby.submit step].
  set (cfg := Some (mkConfig (Some rounds) (Some drawTime))).
  (* the first join leaves a room of that name with an entry for [sidA] *)
  assert (H1 : ∃ g1, games (join_room sidA code userA cfg avatarA srv).1.1 !! code
                     = Some g1
                     ∧ ∃ j p, Game.players g1 !! j = Some p
                              ∧ Player.id p = sidA ∧ Player.name p = userA).
  { unfold join_room.
    change (games (socketJoin sidA code srv) !! code) with (games srv !! code).
    destruct (games srv !! code) as [game|]; [|rewrite Hown]; unfold cfg;
      rewrite enterRoom_server; cbn [games setGame]; rewrite lookup_insert_eq;
      eexists; (split; [reflexivity|apply joinedRoom_entry]). }
  destruct H1 as (g1 & Hg1 & jA & pA & HjA & HidA & HnameA).
  eexists _, _, (joinedRoom sidB userB avatarB g1).
  split; [reflexivity|]. split; [reflexivity|].
  assert (Hsrv2 : games (join_room sidB code userB None avatarB
                           (join_room sidA code userA cfg avatarA srv).1.1).1.1 !! code
                  = Some (joinedRoom sidB userB avatarB g1)).
  { unfold join_room at 1.
    change (games (socketJoin sidB code ?s) !! code) with (games s !! code).
    rewrite Hg1, enterRoom_server. cbn [games setGame]. by rewrite lookup_insert_eq. }
  split; [exact Hsrv2|]. split.
  - exists jA, pA. split; [|done].
    apply joinedRoom_keeps; [done|congruence|congruence].
  - apply joinedRoom_entry.
Qed.

Lemma room_code_reaches_the_room_witness :
  let code := Lobby.generateRoomId (λ i, (7 * i + 3) `mod` 36)%nat in
  code = "dkry5c"
  ∧ Lobby.cleanRoomId "  DkRy5C " = code
  ∧ ∃ srv1 srv2 g,
      Lobby.submit (Lobby.handleJoin "A" Lobby.CREATE code "alice" "" 3 60)
        emptyServer = Some srv1
      ∧ Lobby.submit (Lobby.handleJoin "B" Lobby.JOIN "  DkRy5C " "bob" "" 3 60)
          srv1 = Some srv2
      ∧ games srv2 !! code = Some g
      ∧ (∃ j p, Game.players g !! j = Some p
                ∧ Player.id p = "A" ∧ Player.name p = "alice")
      ∧ (∃ j p, Game.players g !! j = Some p
                ∧ Player.id p = "B" ∧ Player.name p = "bob").
Proof.
  intros code.
  destruct (room_code_reaches_the_room (λ i, (7 * i + 3) `mod` 36)%nat "  DkRy5C "
              emptyServer "A" "B" "alice" "bob" "" "" 3 60)
    as (_ & _ & Hclean & Hrest); try discriminate.
  - intros i. apply Nat.mod_upper_bound. discriminate.
  - vm_compute. reflexivity.
  - split; [vm_compute; reflexivity|]. split; [exact Hclean|exact Hrest].
Defined.
